(** * uns_metadata_sync: a shallow embedding of the CDC, repository, Canary
    client, Sparkplug and alias-cache code, and the properties proved of it.

    Conventions of the embedding:
    - Python [int] is [Z]; a finite [float] is the rational [Q] it stands
      for.  Comparing, assigning, doubling and [min]/[max] are exact on
      floats; a sum, difference, product or quotient that the code computes
      is rounded to the nearest binary64 value (module [Float64]), except
      where a definition says that it is kept exact.  Results beyond the
      largest float (about 1.8e308) are not turned into [inf].
    - [str] is [string]; [Optional[T]] is [option T].
    - a [dict] that the code only looks up and compares is a [gmap]; a dict
      whose insertion order the code relies on is an association list in
      insertion order (module [PyDict]).
    - a method that mutates [self] returns the new object; a method that may
      raise returns a [result].
    - injected callables (clock, sleep, request sender, database connection,
      decompressors, builtin coercions) are arguments of the model. *)

From Stdlib Require Import ZArith QArith Qpower Qminmax Qround Lia Lqa.
From Stdlib Require Import PrimFloat FloatOps SpecFloat.
From Stdlib.Strings Require Import Ascii String Byte.
From Stdlib Require Import DecimalString DecimalPos DecimalZ.
From stdpp Require Import gmap strings list fin_maps sorting.

Local Open Scope Z_scope.

(** ** Exceptions and results *)

Inductive exn :=
  | ValueError (msg : string)
  | OSError
  | KeyError
  | IndexError
  | TypeError
  | RepositoryError (msg : string)
  | CompressionError (msg : string)
  | DecodeError.

Inductive result (A : Type) :=
  | Ok (a : A)
  | Raise (e : exn).
Arguments Ok {A} a.
Arguments Raise {A} e.

Global Instance result_ret : MRet result := fun A a => Ok a.
Global Instance result_bind : MBind result := fun A B k r =>
  match r with
  | Ok a => k a
  | Raise e => Raise e
  end.

Global Instance result_fmap : FMap result := fun A B f r =>
  match r with
  | Ok a => Ok (f a)
  | Raise e => Raise e
  end.

Definition is_none {A} (o : option A) : bool :=
  match o with None => true | Some _ => false end.

(** [x < y] on floats. *)
Definition Qltb (x y : Q) : bool := negb (Qle_bool y x).

(** ** Floats: binary64 arithmetic

    Python's [float] is IEEE 754 binary64, and its [+], [-], [*] and [/]
    return the float nearest to the exact result, the one with the even
    significand when two are equally near. *)

Module Float64.

(** The exponent of the smallest positive float, [2 ^ -1074]. *)
Definition emin : Z := -1074.

(** [2 ^ e] for any integer [e]. *)
Definition two_to (e : Z) : Q := (2 ^ e)%Q.

(** [floor (log2 x)] for a positive [x]. *)
Definition ilog2 (x : Q) : Z :=
  let l := Z.log2 (Qnum x) - Z.log2 (Zpos (Qden x)) in
  if Qle_bool (two_to l) x then l else l - 1.

(** The exponent of the spacing of the floats around a positive [x]: 53
    significant bits, and the spacing [2 ^ emin] below [2 ^ -1022]. *)
Definition ulp_exponent (x : Q) : Z := Z.max emin (ilog2 x - 52).

(** The nearest integer, the even one of two that are equally near. *)
Definition round_half_even (x : Q) : Z :=
  let f := Qfloor x in
  match (x - inject_Z f ?= 1 # 2)%Q with
  | Lt => f
  | Gt => f + 1
  | Eq => if Z.even f then f else f + 1
  end.

(** A positive [x] rounded to a whole number of spacings. *)
Definition round_positive (x : Q) : Q :=
  let q := ulp_exponent x in
  (inject_Z (round_half_even (x / two_to q)) * two_to q)%Q.

(** The binary64 value nearest to [x], ties to the even significand. *)
Definition round64 (x : Q) : Q :=
  match (0 ?= x)%Q with
  | Eq => 0%Q
  | Lt => round_positive x
  | Gt => (- round_positive (- x))%Q
  end.

(** The rationals that are floats. *)
Definition is_float (x : Q) : Prop := (round64 x == x)%Q.

(** [x + y], [x - y], [x * y] and [x / y] on floats. *)
Definition add (x y : Q) : Q := round64 (x + y).
Definition sub (x y : Q) : Q := round64 (x - y).
Definition mul (x y : Q) : Q := round64 (x * y).
Definition div (x y : Q) : Q := round64 (x / y).

(** The rational a finite binary64 value of the machine stands for. *)
Definition of_binary64 (f : PrimFloat.float) : Q :=
  match Prim2SF f with
  | S754_finite negative m e =>
      ((if negative then -1 else 1) * inject_Z (Zpos m) * two_to e)%Q
  | _ => 0%Q
  end.
End Float64.

(** ** cdc/checkpoint.py *)

Module Checkpoint.

(** [x not in (None, current)] for optional integers. *)
Definition not_in_none_or (expected current : option Z) : bool :=
  negb (bool_decide (expected = None) || bool_decide (expected = current)).

(** *** InMemoryCheckpointStore *)

Record InMemoryCheckpointStore := MkInMemory {
  im_positions : gmap string Z
}.

Definition im_new : InMemoryCheckpointStore := MkInMemory ∅.

Definition im_load (slot_name : string) (self : InMemoryCheckpointStore)
  : option Z :=
  im_positions self !! slot_name.

Definition im_save (slot_name : string) (lsn : Z)
    (self : InMemoryCheckpointStore) : InMemoryCheckpointStore :=
  let current := im_positions self !! slot_name in
  if is_none current || (match current with Some c => c <? lsn | None => false end)
  then MkInMemory (<[slot_name := lsn]> (im_positions self))
  else self.

Definition unexpected_msg : string := "unexpected resume token value".
Definition exceeds_msg : string :=
  "new resume token must not exceed current value".

(** The checks of [reset] that run when [force] is false and the early
    return was not taken; [Some msg] is the [ValueError] raised. *)
Definition reset_guard (missing_msg : string)
    (current expected_lsn new_lsn : option Z) : option string :=
  match current with
  | None =>
      if not_in_none_or expected_lsn current then Some missing_msg else None
  | Some c =>
      if is_none expected_lsn || negb (bool_decide (expected_lsn = Some c))
      then Some unexpected_msg
      else match new_lsn with
           | Some n =>
               if c <? n
               then Some exceeds_msg
               else None
           | None => None
           end
  end.

Definition im_missing_msg : string :=
  "resume token missing; supply force=True to reset".

Definition im_reset (slot_name : string) (expected_lsn new_lsn : option Z)
    (force : bool) (self : InMemoryCheckpointStore)
  : result unit * InMemoryCheckpointStore :=
  let current := im_positions self !! slot_name in
  if is_none current && is_none new_lsn then
    if negb force && not_in_none_or expected_lsn current
    then (Raise (ValueError im_missing_msg), self)
    else (Ok tt, self)
  else
    match (if force then None
           else reset_guard im_missing_msg current expected_lsn new_lsn) with
    | Some msg => (Raise (ValueError msg), self)
    | None =>
        match new_lsn with
        | None => (Ok tt, MkInMemory (delete slot_name (im_positions self)))
        | Some n => (Ok tt, MkInMemory (<[slot_name := n]> (im_positions self)))
        end
    end.

(** *** PersistentCheckpointStore

    [ps_file] is the decoded content of the checkpoint file ([None]: the
    file does not exist).  What the file system does in [_write_locked] is
    the argument [outcome] of every method that writes. *)

(** [written]: the temporary file is written and [os.replace] puts it in
    place.  [failed_before_replace]: [mkstemp], the write, the [fsync] of
    the temporary file or [os.replace] raises [OSError], and the file is
    as it was.  [failed_after_replace]: with [fsync=True], the [fsync] of
    the directory raises [OSError] when the file has been replaced.  Each
    [OSError] is logged and raised again. *)
Inductive write_outcome :=
  | written
  | failed_before_replace
  | failed_after_replace.

Record PersistentCheckpointStore := MkPersistent {
  ps_positions : gmap string Z;
  ps_file : option (gmap string Z)
}.

Definition ps_write_locked (outcome : write_outcome)
    (self : PersistentCheckpointStore)
  : result unit * PersistentCheckpointStore :=
  let replaced := MkPersistent (ps_positions self) (Some (ps_positions self)) in
  match outcome with
  | written => (Ok tt, replaced)
  | failed_before_replace => (Raise OSError, self)
  | failed_after_replace => (Raise OSError, replaced)
  end.

Definition ps_load (slot_name : string) (self : PersistentCheckpointStore)
  : option Z :=
  ps_positions self !! slot_name.

Definition ps_save (slot_name : string) (lsn : Z) (outcome : write_outcome)
    (self : PersistentCheckpointStore)
  : result unit * PersistentCheckpointStore :=
  let current := ps_positions self !! slot_name in
  if negb (is_none current)
     && (match current with Some c => lsn <=? c | None => false end)
  then (Ok tt, self)
  else ps_write_locked outcome
         (MkPersistent (<[slot_name := lsn]> (ps_positions self)) (ps_file self)).

Definition ps_missing_msg : string := "resume token does not exist for slot".

Definition ps_reset (slot_name : string) (expected_lsn new_lsn : option Z)
    (force : bool) (outcome : write_outcome) (self : PersistentCheckpointStore)
  : result unit * PersistentCheckpointStore :=
  let current := ps_positions self !! slot_name in
  if is_none current && is_none new_lsn then
    if negb force && not_in_none_or expected_lsn current
    then (Raise (ValueError ps_missing_msg), self)
    else (Ok tt, self)
  else
    match (if force then None
           else reset_guard ps_missing_msg current expected_lsn new_lsn) with
    | Some msg => (Raise (ValueError msg), self)
    | None =>
        match new_lsn with
        | None =>
            if is_none current then (Ok tt, self)
            else ps_write_locked outcome
                   (MkPersistent (delete slot_name (ps_positions self))
                                 (ps_file self))
        | Some n =>
            ps_write_locked outcome
              (MkPersistent (<[slot_name := n]> (ps_positions self))
                            (ps_file self))
        end
    end.

(** *** Sequences of calls *)

(** [save] calls, possibly on several slots, in program order. *)
Definition im_save_all (calls : list (string * Z))
    (self : InMemoryCheckpointStore) : InMemoryCheckpointStore :=
  foldl (fun s c => im_save c.1 c.2 s) self calls.

(** Each call comes with the outcome of its file write; a caller that
    catches the [OSError] goes on with the store as the call left it. *)
Definition ps_save_all (calls : list (string * Z * write_outcome))
    (self : PersistentCheckpointStore) : PersistentCheckpointStore :=
  foldl (fun s c => (ps_save c.1.1 c.1.2 c.2 s).2) self calls.

(** The positions saved on [slot_name], in call order. *)
Definition lsns_for (slot_name : string) (calls : list (string * Z)) : list Z :=
  (filter (fun c => c.1 = slot_name) calls).*2.

(** The maximum of a non-empty list; nothing for an empty one. *)
Definition highest (lsns : list Z) : option Z :=
  match lsns with
  | [] => None
  | l :: ls => Some (foldl Z.max l ls)
  end.

(** *** Opening a store: [__init__] and [_load_from_disk] *)

(** A value of the dictionary [json.loads] returns: an integer, a
    boolean (an [int] for [isinstance], equal to 0 or 1), or anything
    else. *)
Inductive json_value :=
  | json_int (n : Z)
  | json_bool (b : bool)
  | json_other.

(** The checkpoint file as [_load_from_disk] finds it. *)
Inductive disk :=
  | no_file
  | unreadable
  | not_text
  | not_a_dict
  | json_dict (entries : gmap string json_value).

Definition int_of_json (v : json_value) : option Z :=
  match v with
  | json_int n => Some n
  | json_bool b => Some (if b then 1 else 0)
  | json_other => None
  end.

(** The positions of a store opened on [d].  [unreadable]: [read_text]
    raises [OSError] or [json.loads] raises [JSONDecodeError], which is
    logged; [not_text]: the bytes are not UTF-8 and [read_text] raises
    [UnicodeDecodeError], which nothing catches.  An empty file reads
    as [json_dict ∅]. *)
Definition load_from_disk (d : disk) : result (gmap string Z) :=
  match d with
  | json_dict entries => Ok (omap int_of_json entries)
  | not_text => Raise (ValueError "codec can't decode byte")
  | _ => Ok ∅
  end.

(** What [_write_locked] leaves on disk, read back by [json.loads]. *)
Definition disk_of_file (file : option (gmap string Z)) : disk :=
  match file with
  | None => no_file
  | Some positions => json_dict (json_int <$> positions)
  end.

(** A new store opened on the file this one leaves behind. *)
Definition ps_reopen (self : PersistentCheckpointStore)
  : result PersistentCheckpointStore :=
  positions ← load_from_disk (disk_of_file (ps_file self));
  Ok (MkPersistent positions (ps_file self)).

(** The file can be opened again, and no slot is further on disk than
    in memory. *)
Definition file_behind (self : PersistentCheckpointStore) : Prop :=
  exists reopened,
    ps_reopen self = Ok reopened
    /\ forall slot p,
         ps_load slot reopened = Some p ->
         exists q, ps_load slot self = Some q /\ p <= q.

(** A store opened where no file exists, and three saves of which only
    the second reaches the file. *)
Definition ps_new : PersistentCheckpointStore := MkPersistent ∅ None.

Definition flaky_saves : list (string * Z * write_outcome) :=
  [("slot"%string, 5, failed_before_replace); ("slot"%string, 7, written);
   ("slot"%string, 9, failed_before_replace)].
End Checkpoint.

(** ** Insertion-ordered dictionaries

    A Python [dict] (or [OrderedDict]) whose iteration order the code
    observes: the items in insertion order.  Assigning to a key that is
    present replaces its value where it stands; a new key goes to the end. *)

Module PyDict.
Section Dict.
Context {K V : Type} `{EqDecision K}.

Fixpoint get (k : K) (d : list (K * V)) : option V :=
  match d with
  | [] => None
  | (k', v) :: d' => if decide (k' = k) then Some v else get k d'
  end.

Fixpoint set (k : K) (v : V) (d : list (K * V)) : list (K * V) :=
  match d with
  | [] => [(k, v)]
  | (k', v') :: d' =>
      if decide (k' = k) then (k', v) :: d' else (k', v') :: set k v d'
  end.

Fixpoint pop (k : K) (d : list (K * V)) : list (K * V) :=
  match d with
  | [] => []
  | (k', v') :: d' =>
      if decide (k' = k) then d' else (k', v') :: pop k d'
  end.

Definition keys (d : list (K * V)) : list K := d.*1.
Definition values (d : list (K * V)) : list V := d.*2.

(** [{k: v for k, v in items}] and every loop [for k, v in items: d[k] = v]. *)
Definition update (d : list (K * V)) (items : list (K * V)) : list (K * V) :=
  foldl (fun acc kv => set kv.1 kv.2 acc) d items.
End Dict.
End PyDict.

(** ** cdc/diffing.py *)

Module Diffing.
Section WithValue.
(** The values of a change map are opaque Python objects. *)
Context {Value : Type}.

Record DiffEvent := MkDiffEvent {
  event_id : string;
  uns_path : string;
  version : Z;
  actor : string;
  changes : gmap string Value;
  timestamp : string
}.

Record AggregatedDiff := MkAggregatedDiff {
  ad_uns_path : string;
  events : list DiffEvent;
  merged_changes : gmap string (Z * Value)
}.

(** The body of the loop of [append], for one [(key, value)] item. *)
Definition merge_change (event_version : Z) (key : string) (value : Value)
    (merged : gmap string (Z * Value)) : gmap string (Z * Value) :=
  let current := merged !! key in
  if is_none current
     || (match current with Some c => event_version >=? c.1 | None => false end)
  then <[key := (event_version, value)]> merged
  else merged.

Definition append (event : DiffEvent) (self : AggregatedDiff) : AggregatedDiff :=
  {| ad_uns_path := ad_uns_path self;
     events := events self ++ [event];
     merged_changes :=
       map_fold (merge_change (version event)) (merged_changes self)
                (changes event) |}.

(** What [append] leaves at one key: [new] is the event's value for
    the key, [current] the merged value before. *)
Definition merged_after (event_version : Z) (new : option Value)
    (current : option (Z * Value)) : option (Z * Value) :=
  match new with
  | None => current
  | Some v =>
      match current with
      | None => Some (event_version, v)
      | Some c =>
          if event_version >=? c.1 then Some (event_version, v) else Some c
      end
  end.

(** [sorted(events, key=lambda ev: ev.version)]: a stable sort. *)
Fixpoint insert_by_version (ev : DiffEvent) (sorted : list DiffEvent)
  : list DiffEvent :=
  match sorted with
  | [] => [ev]
  | x :: rest =>
      if version ev <? version x then ev :: x :: rest
      else x :: insert_by_version ev rest
  end.

Definition sorted_by_version (evs : list DiffEvent) : list DiffEvent :=
  foldl (fun acc ev => insert_by_version ev acc) [] evs.

(** The dictionary [to_snapshot] returns, its [metadata] flattened. *)
Record Snapshot := MkSnapshot {
  snap_uns_path : string;
  snap_versions : list Z;
  latest_version : Z;
  previous_version : option Z;
  latest_actor : string;
  snap_actors : list string;
  snap_timestamps : list string;
  snap_changes : gmap string Value
}.

Definition to_snapshot (self : AggregatedDiff) : result Snapshot :=
  let ordered_events := sorted_by_version (events self) in
  match last ordered_events with
  | None => Raise IndexError
  | Some latest =>
      Ok {| snap_uns_path := ad_uns_path self;
            snap_versions := version <$> ordered_events;
            latest_version := version latest;
            previous_version :=
              if 1 <? Z.of_nat (length ordered_events)
              then version <$> ordered_events !! (length ordered_events - 2)%nat
              else None;
            latest_actor := actor latest;
            snap_actors := actor <$> ordered_events;
            snap_timestamps := timestamp <$> ordered_events;
            snap_changes := snd <$> merged_changes self |}
  end.

Record DiffAccumulator := MkDiffAccumulator {
  entries : list (string * AggregatedDiff);
  seen_event_ids : gset string
}.

Definition accumulator_new : DiffAccumulator := MkDiffAccumulator [] ∅.

Definition apply (event : DiffEvent) (self : DiffAccumulator)
  : bool * DiffAccumulator :=
  if bool_decide (event_id event ∈ seen_event_ids self) then (false, self)
  else
    let seen := {[event_id event]} ∪ seen_event_ids self in
    let entry :=
      match PyDict.get (uns_path event) (entries self) with
      | None => MkAggregatedDiff (uns_path event) [] ∅
      | Some entry => entry
      end in
    (true,
     MkDiffAccumulator
       (PyDict.set (uns_path event) (append event entry) (entries self))
       seen).

Definition extend (evs : list DiffEvent) (self : DiffAccumulator)
  : Z * DiffAccumulator :=
  foldl (fun st event =>
           let r := apply event st.2 in
           (if r.1 then st.1 + 1 else st.1, r.2))
        (0, self) evs.

Fixpoint snapshot_entries (es : list AggregatedDiff) : result (list Snapshot) :=
  match es with
  | [] => Ok []
  | entry :: rest =>
      match to_snapshot entry with
      | Raise e => Raise e
      | Ok s =>
          match snapshot_entries rest with
          | Raise e => Raise e
          | Ok ss => Ok (s :: ss)
          end
      end
  end.

Definition snapshot (self : DiffAccumulator) : result (list Snapshot) :=
  snapshot_entries (PyDict.values (entries self)).

Definition pop (path : string) (self : DiffAccumulator)
  : result (option Snapshot) * DiffAccumulator :=
  match PyDict.get path (entries self) with
  | None => (Ok None, self)
  | Some entry =>
      (Some <$> to_snapshot entry,
       MkDiffAccumulator (PyDict.pop path (entries self)) (seen_event_ids self))
  end.

(** What the snapshot shows for [key] under [path]: the entry of
    [snapshot()] whose [uns_path] is [path], and its [changes] at [key]. *)
Definition snapshot_value (path key : string) (self : DiffAccumulator)
  : option Value :=
  match snapshot self with
  | Raise _ => None
  | Ok snaps =>
      match List.find (fun s => bool_decide (snap_uns_path s = path)) snaps with
      | None => None
      | Some s => snap_changes s !! key
      end
  end.

(** Every entry is filed under its own path and holds an event: true of
    a new accumulator and kept by [apply] and [pop]. *)
Definition accumulator_wf (self : DiffAccumulator) : Prop :=
  Forall (fun e => ad_uns_path e.2 = e.1 /\ events e.2 <> []) (entries self).

(** The loop of [drain] over the keys listed before it starts.  A snapshot
    is a dictionary with four keys, hence truthy: each one is appended. *)
Fixpoint drain_loop (keys : list string) (snapshots : list Snapshot)
    (self : DiffAccumulator) : result (list Snapshot) * DiffAccumulator :=
  match keys with
  | [] => (Ok snapshots, self)
  | key :: rest =>
      match pop key self with
      | (Raise e, self') => (Raise e, self')
      | (Ok None, self') => drain_loop rest snapshots self'
      | (Ok (Some s), self') => drain_loop rest (snapshots ++ [s]) self'
      end
  end.

Definition drain (self : DiffAccumulator)
  : result (list Snapshot) * DiffAccumulator :=
  drain_loop (PyDict.keys (entries self)) [] self.
End WithValue.
Arguments DiffEvent : clear implicits.

(** Two events of the same version on one key, and the out-of-order pair
    of [test_version_ordering_preserved_for_out_of_order_events]. *)
Definition tie_first : DiffEvent Z :=
  MkDiffEvent "evt-1" "Kiln/T1" 3 "svc-a" {["displayHigh"%string := 10]} "12:00".
Definition tie_second : DiffEvent Z :=
  MkDiffEvent "evt-2" "Kiln/T1" 3 "svc-b" {["displayHigh"%string := 20]} "12:01".
Definition evt_high : DiffEvent Z :=
  MkDiffEvent "evt-high" "Kiln/T3" 7 "svc-a"
              {["displayHigh"%string := 2000]} "12:10".
Definition evt_low : DiffEvent Z :=
  MkDiffEvent "evt-low" "Kiln/T3" 6 "svc-b"
              (<["comment"%string := 0]> {["displayHigh"%string := 1950]}) "12:08".

Arguments AggregatedDiff : clear implicits.
Arguments Snapshot : clear implicits.
Arguments DiffAccumulator : clear implicits.

(** The accumulator after the out-of-order pair. *)
Definition two_events : DiffAccumulator Z :=
  (apply evt_low (apply evt_high accumulator_new).2).2.
End Diffing.

(** ** cdc/debounce.py *)

Module Debounce.

(** Truthiness of an optional string: neither [None] nor empty. *)
Definition truthy (o : option string) : bool :=
  match o with
  | Some s => negb (bool_decide (s = ""%string))
  | None => false
  end.

Record DebounceMetrics := MkDebounceMetrics {
  counters : gmap string Z;
  gauges : gmap string Q
}.

Definition inc (name : string) (value : Z) (self : DebounceMetrics)
  : DebounceMetrics :=
  MkDebounceMetrics
    (<[name := default 0 (counters self !! name) + value]> (counters self))
    (gauges self).

Definition set_gauge (name : string) (value : Q) (self : DebounceMetrics)
  : DebounceMetrics :=
  MkDebounceMetrics (counters self) (<[name := value]> (gauges self)).

Section WithValue.
Context {Value : Type}.

Record DebounceEntry := MkDebounceEntry {
  metric_key : string;
  first_seen : Q;
  last_update : Q;
  payload : gmap string Value;
  version : option Z;
  actor : option string;
  event_ids : gset string;
  extras : gmap string Value
}.

Definition merge (diff : gmap string Value) (new_version : option Z)
    (new_actor event_id : option string) (timestamp : option Q)
    (new_extras : option (gmap string Value)) (self : DebounceEntry)
  : DebounceEntry :=
  {| metric_key := metric_key self;
     first_seen := first_seen self;
     last_update :=
       match timestamp with
       | Some t => t
       | None => last_update self
       end;
     payload := map_fold (fun key value p => <[key := value]> p)
                         (payload self) diff;
     version :=
       match new_version with
       | Some v =>
           if is_none (version self)
              || (match version self with
                  | Some v0 => v >=? v0
                  | None => false
                  end)
           then Some v
           else version self
       | None => version self
       end;
     actor := if truthy new_actor then new_actor else actor self;
     event_ids :=
       match event_id with
       | Some id =>
           if truthy event_id then {[id]} ∪ event_ids self
           else event_ids self
       | None => event_ids self
       end;
     extras :=
       match new_extras with
       | Some ex =>
           if bool_decide (ex = ∅) then extras self else ex ∪ extras self
       | None => extras self
       end |}.

Record DebounceBuffer := MkDebounceBuffer {
  window_seconds : Q;
  max_entries : Z;
  metrics : DebounceMetrics;
  entries : list (string * DebounceEntry);
  sequence : list string
}.

(** [min(values, key=lambda entry: entry.last_update)]: the first of the
    entries with the least [last_update]. *)
Definition min_by_last_update (es : list DebounceEntry) : option DebounceEntry :=
  match es with
  | [] => None
  | e :: rest =>
      Some (foldl (fun best c =>
                     if Qltb (last_update c) (last_update best) then c else best)
                  e rest)
  end.

(** [list.remove(x)]: the first occurrence goes, [ValueError] if none. *)
Fixpoint list_remove (x : string) (l : list string) : result (list string) :=
  match l with
  | [] => Raise (ValueError "list.remove(x): x not in list")
  | y :: rest =>
      if decide (y = x) then Ok rest
      else match list_remove x rest with
           | Ok rest' => Ok (y :: rest')
           | Raise e => Raise e
           end
  end.

(** The loop of [_enforce_cap]; [None] when [fuel] iterations were not
    enough (they are: see [enforce_cap_total]).  The log line is left out. *)
Fixpoint enforce_cap_loop (fuel : nat) (self : DebounceBuffer)
  : option (result DebounceBuffer) :=
  if max_entries self <? Z.of_nat (length (entries self)) then
    match fuel with
    | O => None
    | S fuel' =>
        match min_by_last_update (PyDict.values (entries self)) with
        | None => Some (Raise (ValueError "min() arg is an empty sequence"))
        | Some oldest =>
            let oldest_key := metric_key oldest in
            match PyDict.get oldest_key (entries self) with
            | None => Some (Raise KeyError)
            | Some dropped =>
                match list_remove oldest_key (sequence self) with
                | Raise e => Some (Raise e)
                | Ok sequence' =>
                    enforce_cap_loop fuel'
                      (MkDebounceBuffer
                         (window_seconds self) (max_entries self)
                         (inc "dropped" 1 (metrics self))
                         (PyDict.pop oldest_key (entries self))
                         sequence')
                end
            end
        end
    end
  else Some (Ok self).

Definition enforce_cap (self : DebounceBuffer) : option (result DebounceBuffer) :=
  enforce_cap_loop (S (length (entries self))) self.

(** [clock_now] is what [self._clock()] returns if it is called. *)
Definition add (key : string) (diff : gmap string Value)
    (new_version : option Z) (new_actor event_id : option string)
    (timestamp : option Q) (new_extras : option (gmap string Value))
    (clock_now : Q) (self : DebounceBuffer)
  : option (result DebounceBuffer) :=
  let now := match timestamp with Some t => t | None => clock_now end in
  let '(entry, sequence') :=
    match PyDict.get key (entries self) with
    | None =>
        (MkDebounceEntry key now now ∅ None None ∅ ∅, sequence self ++ [key])
    | Some entry => (entry, sequence self)
    end in
  let merged :=
    merge diff new_version new_actor event_id (Some now) new_extras entry in
  match enforce_cap
          (MkDebounceBuffer (window_seconds self) (max_entries self)
             (metrics self) (PyDict.set key merged (entries self)) sequence')
  with
  | Some (Ok capped) =>
      Some (Ok (MkDebounceBuffer
                  (window_seconds capped) (max_entries capped)
                  (set_gauge "buffer_depth"
                     (inject_Z (Z.of_nat (length (entries capped))))
                     (metrics capped))
                  (entries capped) (sequence capped)))
  | other => other
  end.

(** The entry filed under [key] once a call has returned. *)
Definition entry_after (r : option (result DebounceBuffer)) (key : string)
  : option DebounceEntry :=
  match r with
  | Some (Ok buffer) => PyDict.get key (entries buffer)
  | _ => None
  end.

(** [DebounceBuffer(window_seconds, max_entries, metrics=...)]: a metrics
    object is always truthy, so [metrics or DebounceMetrics()] is a
    default on [None]. *)
Definition buffer_init (window : Q) (max : Z) (m : option DebounceMetrics)
  : result DebounceBuffer :=
  if Qle_bool window 0 then Raise (ValueError "window_seconds must be positive")
  else if max <=? 0 then Raise (ValueError "max_entries must be positive")
  else Ok (MkDebounceBuffer window max (default (MkDebounceMetrics ∅ ∅) m) [] []).

Definition pending_keys (self : DebounceBuffer) : list string := sequence self.

(** One dictionary of the list [flush_due] returns. *)
Record FlushedPayload := MkFlushedPayload {
  out_metric : string;
  out_diff : gmap string Value;
  out_version : option Z;
  out_actor : option string;
  out_first_seen : Q;
  out_last_update : Q;
  out_event_ids : list string;
  out_extras : gmap string Value
}.

(** [sorted(ids)] for a set of strings: compared byte by byte. *)
Fixpoint insert_string (x : string) (sorted : list string) : list string :=
  match sorted with
  | [] => [x]
  | y :: rest =>
      if String.ltb x y then x :: y :: rest else y :: insert_string x rest
  end.

Definition sorted_strings (ids : gset string) : list string :=
  foldl (fun acc x => insert_string x acc) [] (elements ids).

Definition flushed_payload (key : string) (entry : DebounceEntry)
  : FlushedPayload :=
  {| out_metric := key;
     out_diff := payload entry;
     out_version := version entry;
     out_actor := actor entry;
     out_first_seen := first_seen entry;
     out_last_update := last_update entry;
     out_event_ids := sorted_strings (event_ids entry);
     out_extras := extras entry |}.

(** [l.index(x)]: [None] stands for the [ValueError] of a missing [x]. *)
Fixpoint index (x : string) (l : list string) : option nat :=
  match l with
  | [] => None
  | y :: rest => if decide (y = x) then Some O else S <$> index x rest
  end.

Fixpoint insert_by_index (ix : nat * string) (sorted : list (nat * string))
  : list (nat * string) :=
  match sorted with
  | [] => [ix]
  | y :: rest =>
      if (ix.1 <? y.1)%nat then ix :: y :: rest
      else y :: insert_by_index ix rest
  end.

(** [keys.sort(key=sequence.index)]: every sort key is computed before
    the list is reordered, and the sort is stable. *)
Definition sort_by_index (sequence : list string) (keys : list string)
  : result (list string) :=
  match mapM (fun k => (fun i => (i, k)) <$> index k sequence) keys with
  | None => Raise (ValueError "x is not in list")
  | Some decorated =>
      Ok (foldl (fun acc ix => insert_by_index ix acc) [] decorated).*2
  end.

(** The loop of [flush_due] over the ready keys. *)
Fixpoint flush_loop (ready_keys : list string) (payloads : list FlushedPayload)
    (es : list (string * DebounceEntry)) (seq : list string)
  : result (list FlushedPayload * list (string * DebounceEntry) * list string) :=
  match ready_keys with
  | [] => Ok (payloads, es, seq)
  | key :: rest =>
      match PyDict.get key es with
      | None => Raise KeyError
      | Some entry =>
          match list_remove key seq with
          | Raise e => Raise e
          | Ok seq' =>
              flush_loop rest (payloads ++ [flushed_payload key entry])
                         (PyDict.pop key es) seq'
          end
      end
  end.

(** [current - entry.last_update >= self.window_seconds]. *)
Definition due (window current : Q) (kv : string * DebounceEntry) : bool :=
  Qle_bool window (Float64.sub current (last_update kv.2)).

(** [clock_now] is what [self._clock()] returns if it is called. *)
Definition flush_due (now : option Q) (clock_now : Q) (self : DebounceBuffer)
  : result (list FlushedPayload * DebounceBuffer) :=
  let current := match now with Some t => t | None => clock_now end in
  let unsorted :=
    (filter (fun kv => due (window_seconds self) current kv) (entries self)).*1 in
  match sort_by_index (sequence self) unsorted with
  | Raise e => Raise e
  | Ok ready_keys =>
      match flush_loop ready_keys [] (entries self) (sequence self) with
      | Raise e => Raise e
      | Ok (payloads, es, seq) =>
          let m :=
            match ready_keys with
            | [] => metrics self
            | _ :: _ =>
                inc "emitted" (Z.of_nat (length ready_keys))
                    (set_gauge "buffer_depth" (inject_Z (Z.of_nat (length es)))
                               (metrics self))
            end in
          Ok (payloads,
              MkDebounceBuffer (window_seconds self) (max_entries self) m es seq)
      end
  end.

(** What the buffer keeps between calls: [_sequence] lists the keys of
    [_entries] in insertion order, and every entry is filed under its
    own [metric_key]. *)
Definition buffer_wf (self : DebounceBuffer) : Prop :=
  sequence self = PyDict.keys (entries self)
  /\ NoDup (PyDict.keys (entries self))
  /\ Forall (fun kv => metric_key kv.2 = kv.1) (entries self).
End WithValue.
Arguments DebounceEntry : clear implicits.
Arguments DebounceBuffer : clear implicits.
Arguments FlushedPayload : clear implicits.

(** A buffer holding one entry for ["metric-1"], last updated at 10. *)
Definition one_entry_buffer : DebounceBuffer Z :=
  MkDebounceBuffer 120 10 (MkDebounceMetrics ∅ ∅)
    [("metric-1"%string,
      MkDebounceEntry "metric-1" 10 10 {["displayHigh"%string := 1800]}
                      (Some 1) (Some "ingest"%string) ∅ ∅)]
    ["metric-1"%string].

(** The same entry in a buffer that holds at most one. *)
Definition full_buffer : DebounceBuffer Z :=
  MkDebounceBuffer 120 1 (MkDebounceMetrics ∅ ∅)
    [("metric-1"%string,
      MkDebounceEntry "metric-1" 10 10 {["displayHigh"%string := 1800]}
                      (Some 1) (Some "ingest"%string) ∅ ∅)]
    ["metric-1"%string].
End Debounce.

(** ** canary/client.py *)

Module Canary.

(** *** RetryPolicy *)

Record RetryPolicy := MkRetryPolicy {
  retries : Z;
  jitter_fn : Q -> Q;
  limits : list Q
}.

(** The loop of [__init__]: [n] rounds starting from [delay].  Doubling
    a float is exact. *)
Fixpoint build_limits (n : nat) (delay max_delay : Q) : list Q :=
  match n with
  | O => []
  | S n' =>
      Qmin delay max_delay
      :: build_limits n' (Qmin (delay * 2) max_delay) max_delay
  end.

(** [jitter] is the callable of the settings; when the settings give none
    the code draws [random.uniform(0, limit)], which is one more such
    function for each run. *)
Definition retry_policy_init (attempts : Z) (base_delay max_delay : Q)
    (jitter : Q -> Q) : result RetryPolicy :=
  if attempts <? 0 then Raise (ValueError "attempts must be >= 0")
  else if Qle_bool base_delay 0 || Qle_bool max_delay 0
  then Raise (ValueError "delays must be positive")
  else Ok (MkRetryPolicy attempts jitter
             (build_limits (Z.to_nat (Z.max attempts 0)) base_delay max_delay)).

Definition max_attempts (self : RetryPolicy) : Z := retries self + 1.

Definition next_delay (attempt : Z) (self : RetryPolicy) : Q :=
  if attempt <=? 1 then 0%Q
  else
    let index := Z.min (attempt - 2) (Z.of_nat (length (limits self)) - 1) in
    if index <? 0 then 0%Q
    else match limits self !! Z.to_nat index with
         | Some limit => Qmax 0 (jitter_fn self limit)
         | None => 0%Q
         end.

Definition all_delays (self : RetryPolicy) : list Q := limits self.

(** *** CircuitBreaker

    Every method that reads the clock takes the reading as [now]. *)

Inductive breaker_state := st_closed | st_open | st_half_open.

Record CircuitBreaker := MkCircuitBreaker {
  threshold : Z;
  reset_timeout : Q;
  state : breaker_state;
  failures : Z;
  opened_at : Q
}.

Definition circuit_breaker_init (failure_threshold : Z) (timeout : Q)
  : result CircuitBreaker :=
  if failure_threshold <=? 0
  then Raise (ValueError "failure_threshold must be positive")
  else if Qle_bool timeout 0
  then Raise (ValueError "reset_timeout must be positive")
  else Ok (MkCircuitBreaker failure_threshold timeout st_closed 0 0).

Definition time_until_allow (now : Q) (self : CircuitBreaker) : Q :=
  match state self with
  | st_open =>
      let elapsed := Float64.sub now (opened_at self) in
      let remaining := Float64.sub (reset_timeout self) elapsed in
      Qmax 0 remaining
  | _ => 0%Q
  end.

Definition allow (now : Q) (self : CircuitBreaker) : bool * CircuitBreaker :=
  match state self with
  | st_open =>
      if Qltb 0 (time_until_allow now self) then (false, self)
      else (true,
            MkCircuitBreaker (threshold self) (reset_timeout self)
                             st_half_open 0 (opened_at self))
  | _ => (true, self)
  end.

Definition record_success (self : CircuitBreaker) : CircuitBreaker :=
  MkCircuitBreaker (threshold self) (reset_timeout self) st_closed 0 0.

Definition record_failure (now : Q) (self : CircuitBreaker) : CircuitBreaker :=
  let failures' := failures self + 1 in
  if (match state self with st_half_open | st_open => true | st_closed => false end)
     || (failures' >=? threshold self)
  then MkCircuitBreaker (threshold self) (reset_timeout self) st_open failures' now
  else MkCircuitBreaker (threshold self) (reset_timeout self) (state self)
                        failures' (opened_at self).

(** [record_failure] called once at each of the clock readings [times]. *)
Definition record_failures (times : list Q) (self : CircuitBreaker)
  : CircuitBreaker :=
  foldl (fun cb now => record_failure now cb) self times.

(** *** CanaryClientMetrics *)

Record CanaryClientMetrics := MkMetrics {
  throttled_total : Z;
  queue_depth : Z;
  queue_dropped_total : Z;
  requests_total : Z;
  success_total : Z;
  retry_total : Z;
  failure_total : Z;
  circuit_open_total : Z;
  circuit_state : breaker_state;
  dead_letter_total : Z
}.

Definition metrics_new : CanaryClientMetrics :=
  MkMetrics 0 0 0 0 0 0 0 0 st_closed 0.

Definition inc_requests (m : CanaryClientMetrics) : CanaryClientMetrics :=
  MkMetrics (throttled_total m) (queue_depth m) (queue_dropped_total m)
            (requests_total m + 1) (success_total m) (retry_total m)
            (failure_total m) (circuit_open_total m) (circuit_state m)
            (dead_letter_total m).

Definition inc_success (count : Z) (m : CanaryClientMetrics) : CanaryClientMetrics :=
  MkMetrics (throttled_total m) (queue_depth m) (queue_dropped_total m)
            (requests_total m) (success_total m + count) (retry_total m)
            (failure_total m) (circuit_open_total m) (circuit_state m)
            (dead_letter_total m).

Definition inc_retry (m : CanaryClientMetrics) : CanaryClientMetrics :=
  MkMetrics (throttled_total m) (queue_depth m) (queue_dropped_total m)
            (requests_total m) (success_total m) (retry_total m + 1)
            (failure_total m) (circuit_open_total m) (circuit_state m)
            (dead_letter_total m).

Definition inc_failure (m : CanaryClientMetrics) : CanaryClientMetrics :=
  MkMetrics (throttled_total m) (queue_depth m) (queue_dropped_total m)
            (requests_total m) (success_total m) (retry_total m)
            (failure_total m + 1) (circuit_open_total m) (circuit_state m)
            (dead_letter_total m).

Definition set_circuit_state (s : breaker_state) (m : CanaryClientMetrics)
  : CanaryClientMetrics :=
  MkMetrics (throttled_total m) (queue_depth m) (queue_dropped_total m)
            (requests_total m) (success_total m) (retry_total m)
            (failure_total m) (circuit_open_total m) s
            (dead_letter_total m).

Definition inc_dead_letters (amount : Z) (m : CanaryClientMetrics)
  : CanaryClientMetrics :=
  if amount <=? 0 then m
  else MkMetrics (throttled_total m) (queue_depth m) (queue_dropped_total m)
                 (requests_total m) (success_total m) (retry_total m)
                 (failure_total m) (circuit_open_total m) (circuit_state m)
                 (dead_letter_total m + amount).

(** *** CanaryClient._dispatch *)

(** What the request sender raised.  For an [HTTPStatusError], [message]
    is the text [_handle_session_error] extracts from the response. *)
Inductive SendError :=
  | PayloadTooLargeError
  | HTTPStatusError (status : Z) (message : string)
  | RequestError
  | OtherError.

Fixpoint contains (needle hay : string) : bool :=
  String.prefix needle hay
  || match hay with
     | EmptyString => false
     | String _ rest => contains needle rest
     end.

Definition is_retriable (error : SendError) : bool :=
  match error with
  | PayloadTooLargeError => false
  | HTTPStatusError status _ => (status >=? 500) || (status =? 429)
  | RequestError => true
  | OtherError => true
  end.

(** The session manager, as far as [_dispatch] touches it. *)
Record SessionManager := MkSession {
  invalidations : nat;
  activity_marks : nat
}.

Definition invalidate (s : SessionManager) : SessionManager :=
  MkSession (S (invalidations s)) (activity_marks s).

Definition mark_activity (s : SessionManager) : SessionManager :=
  MkSession (invalidations s) (S (activity_marks s)).

Definition handle_session_error (error : SendError)
    (session : option SessionManager) : bool * option SessionManager :=
  match session with
  | None => (false, session)
  | Some s =>
      match error with
      | HTTPStatusError status message =>
          if (status =? 401) || (status =? 403)
          then (true, Some (invalidate s))
          else if contains "BadSessionToken" message
                  || contains "sessionToken" message
          then (true, Some (invalidate s))
          else (false, session)
      | _ => (false, session)
      end
  end.

Section WithDiff.
Context {Diff : Type}.

(** The client in the middle of a dispatch.  [clock] is the reading of
    the injected clock and [slept] the durations the injected [sleep]
    was called with; a sleep moves the clock by its duration, as the
    fake sleep of the tests does ([value += amount]).  [sent] counts the
    calls of the
    request sender and [dead_lettered] what the dead-letter handler
    received. *)
Record Client := MkClient {
  retry_policy : RetryPolicy;
  circuit : CircuitBreaker;
  metrics : CanaryClientMetrics;
  session_manager : option SessionManager;
  dead_letter_handler : bool;
  clock : Q;
  slept : list Q;
  sent : nat;
  dead_lettered : list (Diff * SendError)
}.

Definition wait (duration : Q) (c : Client) : Client :=
  if Qle_bool duration 0 then c
  else MkClient (retry_policy c) (circuit c) (metrics c) (session_manager c)
                (dead_letter_handler c) (Float64.add (clock c) duration)
                (slept c ++ [duration]) (sent c) (dead_lettered c).

Definition emit_dead_letter (batch : list Diff) (error : SendError)
    (c : Client) : Client :=
  MkClient (retry_policy c) (circuit c)
           (inc_dead_letters (Z.of_nat (length batch)) (metrics c))
           (session_manager c) (dead_letter_handler c) (clock c) (slept c)
           (sent c)
           (if dead_letter_handler c
            then dead_lettered c ++ ((fun d => (d, error)) <$> batch)
            else dead_lettered c).

(** [circuit.record_failure()] or [record_success()] followed by
    [metrics.set_circuit_state(circuit.state)]. *)
Definition with_circuit (cb : CircuitBreaker) (m : CanaryClientMetrics)
    (session : option SessionManager) (c : Client) : Client :=
  MkClient (retry_policy c) cb (set_circuit_state (state cb) m) session
           (dead_letter_handler c) (clock c) (slept c) (sent c)
           (dead_lettered c).

Definition count_send (c : Client) : Client :=
  MkClient (retry_policy c) (circuit c) (metrics c) (session_manager c)
           (dead_letter_handler c) (clock c) (slept c) (S (sent c))
           (dead_lettered c).

(** The [while True] loop of [_dispatch].  [sender i] is what the [i]-th
    call of the request sender does: [None] when it returns, [Some error]
    when it raises.  [None] as a result: [fuel] iterations were not
    enough. *)
Fixpoint dispatch_loop (sender : nat -> option SendError) (batch : list Diff)
    (fuel : nat) (attempt : Z) (c : Client) : option Client :=
  match fuel with
  | O => None
  | S fuel' =>
      let outcome := sender (sent c) in
      let c := count_send c in
      match outcome with
      | Some exc =>
          let '(session_invalidated, session) :=
            handle_session_error exc (session_manager c) in
          let retriable := is_retriable exc || session_invalidated in
          if (attempt >=? max_attempts (retry_policy c)) || negb retriable
          then
            Some (emit_dead_letter batch exc
                    (with_circuit (record_failure (clock c) (circuit c))
                                  (inc_failure (metrics c)) session c))
          else
            let c := with_circuit (record_failure (clock c) (circuit c))
                                  (inc_retry (metrics c)) session c in
            let delay := next_delay (attempt + 1) (retry_policy c) in
            dispatch_loop sender batch fuel' (attempt + 1) (wait delay c)
      | None =>
          Some (with_circuit (record_success (circuit c))
                             (inc_success (Z.of_nat (length batch)) (metrics c))
                             (mark_activity <$> session_manager c) c)
      end
  end.

Definition dispatch (sender : nat -> option SendError) (batch : list Diff)
    (c : Client) : option Client :=
  dispatch_loop sender batch (Z.to_nat (max_attempts (retry_policy c))) 1
    (MkClient (retry_policy c) (circuit c) (inc_requests (metrics c))
              (session_manager c) (dead_letter_handler c) (clock c)
              (slept c) (sent c) (dead_lettered c)).
End WithDiff.
Arguments Client : clear implicits.

(** The cap of the delay before the [n]-th retry, in closed form:
    [min(base_delay * 2^(n-1), max_delay)]. *)
Definition backoff_limit (base_delay max_delay : Q) (n : nat) : Q :=
  Qmin (base_delay * inject_Z (2 ^ Z.of_nat (n - 1))) max_delay.

(** The sleeps a dispatch makes when every attempt fails retriably: one
    for each backoff limit whose jittered delay is positive. *)
Definition jittered (policy : RetryPolicy) (limit : Q) : Q :=
  Qmax 0 (jitter_fn policy limit).

Definition backoff_sleeps (policy : RetryPolicy) : list Q :=
  filter (fun d => Qltb 0 d = true) (jittered policy <$> limits policy).

(** The settings of
    [test_retry_policy_applies_exponential_backoff_with_jitter]. *)
Definition client_for (policy : RetryPolicy) : Client unit :=
  MkClient policy (MkCircuitBreaker 99 60 st_closed 0 0) metrics_new None
           false 0 [] 0 [].

Definition always_unreachable (i : nat) : option SendError := Some RequestError.

(** A sender that refuses the payload, one whose first call meets an
    expired session, and a client that has a session manager. *)
Definition rejects_payload (i : nat) : option SendError :=
  Some PayloadTooLargeError.



(** *** TokenBucket

    Every method that reads the clock takes the reading as [now]. *)

Record TokenBucket := MkTokenBucket {
  rate : Q;
  capacity : Q;
  tokens : Q;
  updated_at : Q
}.

(** [rate_per_second] and [capacity] may be integers or floats;
    [float(...)] gives the nearest float. *)
Definition token_bucket_init (rate_per_second cap now : Q)
  : result TokenBucket :=
  if Qle_bool rate_per_second 0
  then Raise (ValueError "rate_per_second must be positive")
  else if Qle_bool cap 0 then Raise (ValueError "capacity must be positive")
  else Ok (MkTokenBucket (Float64.round64 rate_per_second)
                         (Float64.round64 cap) (Float64.round64 cap) now).

Definition refill (now : Q) (self : TokenBucket) : TokenBucket :=
  let elapsed := Float64.sub now (updated_at self) in
  if Qle_bool elapsed 0 then self
  else MkTokenBucket (rate self) (capacity self)
         (Qmin (capacity self)
               (Float64.add (tokens self) (Float64.mul elapsed (rate self))))
         now.

Definition consume (now n : Q) (self : TokenBucket) : bool * TokenBucket :=
  let self := refill now self in
  if Qle_bool n (tokens self)
  then (true,
        MkTokenBucket (rate self) (capacity self)
                      (Float64.sub (tokens self) n) (updated_at self))
  else (false, self).

Definition time_until_ready (now n : Q) (self : TokenBucket)
  : Q * TokenBucket :=
  let self := refill now self in
  if Qle_bool n (tokens self) then (0%Q, self)
  else (let deficit := Float64.sub n (tokens self) in
        Float64.div deficit (rate self), self).

(** What the constructor guarantees of a bucket, and what [_refill] and
    [consume] keep. *)
Definition bucket_ok (b : TokenBucket) : Prop :=
  (0 < rate b)%Q /\ (0 < capacity b)%Q /\ (0 <= tokens b <= capacity b)%Q
  /\ Float64.is_float (capacity b) /\ Float64.is_float (tokens b).

(** *** The queue of the client: [enqueue] and [_acquire_batch] *)

Definition inc_throttled (m : CanaryClientMetrics) : CanaryClientMetrics :=
  MkMetrics (throttled_total m + 1) (queue_depth m) (queue_dropped_total m)
            (requests_total m) (success_total m) (retry_total m)
            (failure_total m) (circuit_open_total m) (circuit_state m)
            (dead_letter_total m).

Definition inc_queue_dropped (m : CanaryClientMetrics) : CanaryClientMetrics :=
  MkMetrics (throttled_total m) (queue_depth m) (queue_dropped_total m + 1)
            (requests_total m) (success_total m) (retry_total m)
            (failure_total m) (circuit_open_total m) (circuit_state m)
            (dead_letter_total m).

Definition set_queue_depth (depth : Z) (m : CanaryClientMetrics)
  : CanaryClientMetrics :=
  MkMetrics (throttled_total m) (Z.max 0 depth) (queue_dropped_total m)
            (requests_total m) (success_total m) (retry_total m)
            (failure_total m) (circuit_open_total m) (circuit_state m)
            (dead_letter_total m).

Definition inc_circuit_open (m : CanaryClientMetrics) : CanaryClientMetrics :=
  MkMetrics (throttled_total m) (queue_depth m) (queue_dropped_total m)
            (requests_total m) (success_total m) (retry_total m)
            (failure_total m) (circuit_open_total m + 1) (circuit_state m)
            (dead_letter_total m).

(** What [enqueue] does: it returns, or raises [CanaryQueueFull]. *)
Inductive enqueue_outcome := Enqueued | CanaryQueueFull.

Section WithQueue.
Context {Diff : Type}.

(** The client with its queue, run by one thread ([auto_start=False] and
    [drain_once], as in the tests).  [worker] is the part of the client
    [_dispatch] works on; [backpressured] is what the backpressure
    handler received. *)
Record QueuedClient := MkQueuedClient {
  queue_capacity : Z;
  max_batch_tags : Z;
  queue : list Diff;
  bucket : TokenBucket;
  backpressure_handler : bool;
  backpressured : list Diff;
  worker : Client Diff
}.

Definition set_metrics (m : CanaryClientMetrics) (c : Client Diff)
  : Client Diff :=
  MkClient (retry_policy c) (circuit c) m (session_manager c)
           (dead_letter_handler c) (clock c) (slept c) (sent c)
           (dead_lettered c).

Definition set_circuit (cb : CircuitBreaker) (c : Client Diff)
  : Client Diff :=
  MkClient (retry_policy c) cb (metrics c) (session_manager c)
           (dead_letter_handler c) (clock c) (slept c) (sent c)
           (dead_lettered c).

(** [enqueue] of a [CanaryDiff]. *)
Definition enqueue (diff : Diff) (self : QueuedClient)
  : enqueue_outcome * QueuedClient :=
  if Z.of_nat (length (queue self)) >=? queue_capacity self then
    (CanaryQueueFull,
     MkQueuedClient (queue_capacity self) (max_batch_tags self) (queue self)
       (bucket self) (backpressure_handler self)
       (if backpressure_handler self then backpressured self ++ [diff]
        else backpressured self)
       (set_metrics (inc_queue_dropped (metrics (worker self))) (worker self)))
  else
    let queue' := queue self ++ [diff] in
    (Enqueued,
     MkQueuedClient (queue_capacity self) (max_batch_tags self) queue'
       (bucket self) (backpressure_handler self) (backpressured self)
       (set_metrics (set_queue_depth (Z.of_nat (length queue'))
                                     (metrics (worker self)))
                    (worker self))).

(** [enqueue] of each diff in turn, whether or not one is refused: what
    a producer does that catches [CanaryQueueFull]. *)
Definition enqueue_all (diffs : list Diff) (self : QueuedClient)
  : QueuedClient :=
  foldl (fun st diff => (enqueue diff st).2) self diffs.

(** [while self._queue and len(batch) < max_batch_tags:
       batch.append(self._queue.popleft())]. *)
Fixpoint take_batch (limit : Z) (pending batch : list Diff)
  : list Diff * list Diff :=
  match pending with
  | [] => (batch, [])
  | diff :: rest =>
      if Z.of_nat (length batch) <? limit
      then take_batch limit rest (batch ++ [diff])
      else (batch, pending)
  end.

(** [_acquire_batch(block=False)] while the stop event is not set.
    [None] as a result: [fuel] rounds of the loop were not enough. *)
Fixpoint acquire_batch (fuel : nat) (self : QueuedClient)
  : option (option (list Diff) * QueuedClient) :=
  match fuel with
  | O => None
  | S fuel' =>
      match queue self with
      | [] => Some (None, self)
      | _ :: _ =>
          let c := worker self in
          let '(allowed, cb) := allow (clock c) (circuit c) in
          if negb allowed then
            let c := set_metrics
                       (set_circuit_state (state cb)
                          (inc_circuit_open (metrics c)))
                       (set_circuit cb c) in
            acquire_batch fuel'
              (MkQueuedClient (queue_capacity self) (max_batch_tags self)
                 (queue self) (bucket self) (backpressure_handler self)
                 (backpressured self)
                 (wait (time_until_allow (clock c) cb) c))
          else
            let c := set_circuit cb c in
            let '(consumed, b) := consume (clock c) 1 (bucket self) in
            if negb consumed then
              let c := set_metrics (inc_throttled (metrics c)) c in
              let '(wait_time, b) := time_until_ready (clock c) 1 b in
              acquire_batch fuel'
                (MkQueuedClient (queue_capacity self) (max_batch_tags self)
                   (queue self) b (backpressure_handler self)
                   (backpressured self)
                   (wait (if Qltb 0 wait_time then wait_time else (1 # 100)%Q)
                         c))
            else
              let '(batch, rest) :=
                take_batch (max_batch_tags self) (queue self) [] in
              Some (Some batch,
                    MkQueuedClient (queue_capacity self) (max_batch_tags self)
                      rest b (backpressure_handler self) (backpressured self)
                      (set_metrics
                         (set_queue_depth (Z.of_nat (length rest)) (metrics c))
                         c))
      end
  end.

(** [drain_once()], that is [_process_next_batch(block=False)]. *)
Definition drain_once (fuel : nat) (sender : nat -> option SendError)
    (self : QueuedClient) : option (bool * QueuedClient) :=
  match acquire_batch fuel self with
  | None => None
  | Some (None, self) => Some (false, self)
  | Some (Some [], self) => Some (false, self)
  | Some (Some ((_ :: _) as batch), self) =>
      match dispatch sender batch (worker self) with
      | None => None
      | Some c =>
          Some (true,
                MkQueuedClient (queue_capacity self) (max_batch_tags self)
                  (queue self) (bucket self) (backpressure_handler self)
                  (backpressured self) c)
      end
  end.
End WithQueue.
Arguments QueuedClient : clear implicits.

(** A bucket that is empty at time 0, and a client that holds three
    diffs behind it. *)
Definition empty_bucket : TokenBucket := MkTokenBucket 2 1 0 0.

(** A breaker with a timeout of 60 that one failure opens, and the clock
    readings 0.3 and 60.3. *)
Definition breaker_of_one : CircuitBreaker :=
  MkCircuitBreaker 1 60 st_closed 0 0.

Definition clock_03 : Q := Float64.div 3 10.
Definition clock_603 : Q := Float64.div 603 10.

(** A bucket of one token, filled at 49 tokens per second, that is
    empty at time 0. *)
Definition bucket_of_49 : TokenBucket := MkTokenBucket 49 1 0 0.

Definition throttled_client : QueuedClient unit :=
  MkQueuedClient 3 2 [tt; tt; tt] empty_bucket true []
    (client_for (MkRetryPolicy 2 (fun limit => limit) [1%Q; 2%Q])).
End Canary.

(** ** sparkplug_b_utils.py *)

Module Sparkplug.

(** The [value] oneof of a Sparkplug metric, as far as the helpers look at
    it: which field is set, and the string when it is [string_value]. *)
Inductive MetricValue :=
  | no_value
  | int_value (v : Z)
  | long_value (v : Z)
  | boolean_value (v : bool)
  | string_value (v : string)
  | bytes_value (v : list Byte.byte)
  | other_value.

Record Metric := MkMetric {
  name : string;
  alias : Z;
  datatype : Z;
  is_null : bool;
  value : MetricValue
}.

Record Payload := MkPayload {
  timestamp : Z;
  metrics : list Metric;
  seq : Z;
  uuid : string;
  body : list Byte.byte
}.

Fixpoint metric_algorithm_value_in (ms : list Metric) : option string :=
  match ms with
  | [] => None
  | metric :: rest =>
      match value metric with
      | string_value v =>
          if bool_decide (name metric = "algorithm"%string)
             && negb (is_null metric)
          then Some v
          else metric_algorithm_value_in rest
      | _ => metric_algorithm_value_in rest
      end
  end.

Definition metric_algorithm_value (payload : Payload) : option string :=
  metric_algorithm_value_in (metrics payload).

Definition is_compressed_wrapper (payload : Payload) : bool :=
  if bool_decide (uuid payload = "SPBV1.0_COMPRESSED"%string)
     && (0 <? Z.of_nat (length (body payload)))
  then true
  else
    let algorithm := metric_algorithm_value payload in
    bool_decide (algorithm = Some "GZIP"%string)
    && (0 <? Z.of_nat (length (body payload))).

(** What [gzip.decompress] does with a body. *)
Inductive gzip_outcome :=
  | gzip_ok (data : list Byte.byte)
  | gzip_os_error
  | gzip_raises (e : exn).

Section WithCodecs.
(** [gzip.decompress], [zlib.decompress(..., wbits=16 + MAX_WBITS)] and
    [Payload.ParseFromString]. *)
Context (gzip_decompress : list Byte.byte -> gzip_outcome)
        (zlib_decompress : list Byte.byte -> result (list Byte.byte))
        (parse : list Byte.byte -> result Payload).

Definition unwrap_if_compressed (payload : Payload) : result Payload :=
  if negb (is_compressed_wrapper payload) then Ok payload
  else
    match body payload with
    | [] => Raise (CompressionError "Compressed payload had empty body")
    | body =>
        inner_bytes ← match gzip_decompress body with
                      | gzip_ok data => Ok data
                      | gzip_os_error => zlib_decompress body
                      | gzip_raises e => Raise e
                      end;
        parse inner_bytes
    end.

Definition decode_sparkplug_payload (blob : list Byte.byte) : result Payload :=
  outer ← parse blob;
  unwrap_if_compressed outer.
End WithCodecs.

(** Wrappers without a body: one marked by its uuid, as in
    [test_unwrap_if_compressed_returns_original_when_body_missing], and one
    marked by an [algorithm] metric. *)
Definition empty_uuid_wrapper : Payload :=
  MkPayload 0 [] 0 "SPBV1.0_COMPRESSED" [].
Definition empty_gzip_wrapper : Payload :=
  MkPayload 0 [MkMetric "algorithm" 0 12 false (string_value "GZIP")] 0 "" [].

(** Codecs that fail on everything. *)
Definition no_gzip (data : list Byte.byte) : gzip_outcome := gzip_os_error.
Definition no_zlib (data : list Byte.byte) : result (list Byte.byte) :=
  Raise OSError.
Definition no_parse (data : list Byte.byte) : result Payload := Raise DecodeError.
End Sparkplug.

(** ** alias_cache.py *)

Module AliasCache.

(** [str(alias)] and [int(text)] on decimal integers.  [int_of_str] reads
    the decimal spellings [str] produces (an optional [-], then digits);
    the other spellings Python accepts (a [+], blanks, underscores) are
    refused here. *)
Definition str_of_int (z : Z) : string := NilZero.string_of_int (Z.to_int z).

Definition int_of_str (text : string) : result Z :=
  match NilZero.int_of_string text with
  | Some d => Ok (Z.of_int d)
  | None => Raise (ValueError "invalid literal for int() with base 10")
  end.

(** [text.split(sep, maxsplit)] for a one-character separator. *)
Fixpoint split_once (sep : ascii) (text : string) : option (string * string) :=
  match text with
  | EmptyString => None
  | String a rest =>
      if Ascii.eqb a sep then Some (EmptyString, rest)
      else match split_once sep rest with
           | Some (before, after) => Some (String a before, after)
           | None => None
           end
  end.

Fixpoint split (sep : ascii) (maxsplit : nat) (text : string) : list string :=
  match maxsplit with
  | O => [text]
  | S m =>
      match split_once sep text with
      | None => [text]
      | Some (before, after) => before :: split sep m after
      end
  end.

Fixpoint has_char (c : ascii) (text : string) : bool :=
  match text with
  | EmptyString => false
  | String a rest => Ascii.eqb a c || has_char c rest
  end.

(** A loop [for item in items: acc = step(acc, item)] whose body may raise. *)
Fixpoint for_each {A B} (step : B -> A -> result B) (acc : B) (items : list A)
  : result B :=
  match items with
  | [] => Ok acc
  | item :: rest =>
      match step acc item with
      | Ok acc' => for_each step acc' rest
      | Raise e => Raise e
      end
  end.

Section WithInfo.
(** [AliasInfo] is an opaque dictionary. *)
Context {Info : Type}.

Abbreviation AliasKey := (string * string * option string)%type.
Abbreviation AliasMap := (list (Z * Info)).

Definition composite_key_of (key : AliasKey) : string :=
  let '(group, edge_node, device) := key in
  let device_token := match device with None => ""%string | Some d => d end in
  (group ++ "|" ++ edge_node ++ "|" ++ device_token)%string.

Definition serialize_entries (entries : AliasMap) : list (string * Info) :=
  PyDict.update [] ((fun e => (str_of_int e.1, e.2)) <$> entries).

Definition serialize_alias_maps (alias_maps : list (AliasKey * AliasMap))
  : list (string * list (string * Info)) :=
  PyDict.update []
    ((fun item => (composite_key_of item.1, serialize_entries item.2))
       <$> alias_maps).

Definition deserialize_entries (entries : list (string * Info))
  : result AliasMap :=
  for_each (fun acc e =>
              match int_of_str e.1 with
              | Ok alias => Ok (PyDict.set alias e.2 acc)
              | Raise err => Raise err
              end)
           [] entries.

Definition deserialize_alias_maps (data : list (string * list (string * Info)))
  : result (list (AliasKey * AliasMap)) :=
  for_each (fun alias_maps item =>
              match split "|" 2 item.1 with
              | [group; edge_node; device_token] =>
                  let device :=
                    if bool_decide (device_token = ""%string) then None
                    else Some device_token in
                  match deserialize_entries item.2 with
                  | Ok entries =>
                      Ok (PyDict.set (group, edge_node, device) entries
                                     alias_maps)
                  | Raise err => Raise err
                  end
              | _ => Raise (ValueError "not enough values to unpack")
              end)
           [] data.

(** The keys of the claim: no ['|'] in group and edge, and a device that
    is [None] or a non-empty string. *)
Definition key_ok (key : AliasKey) : Prop :=
  has_char "|" key.1.1 = false
  /\ has_char "|" key.1.2 = false
  /\ key.2 <> Some ""%string.

(** A registry as Python holds it: no key twice, in the registry and in
    each alias map, and every key as the claim wants it. *)
Definition registry_ok (alias_maps : list (AliasKey * AliasMap)) : Prop :=
  NoDup (PyDict.keys alias_maps)
  /\ Forall (fun item => key_ok item.1 /\ NoDup (PyDict.keys item.2)) alias_maps.
End WithInfo.

(** The registry of
    [test_serialize_deserialize_round_trip_preserves_alias_maps], with the
    names of the metrics for infos. *)
Definition example_registry
  : list (string * string * option string * list (Z * string)) :=
  [ (("Secil", "EdgeNode", Some "DeviceA"), [(7, "pump_state")]);
    (("Secil", "EdgeNode", None), [(5, "node_temp"); (-3, "spare")]) ]%string.
End AliasCache.

(** ** db/repository.py

    The connection is an argument of the model: a database state [DB] and
    one function for each statement the repository sends, which gives the
    reply ([db_error] for a [psycopg2.Error]) and the next state.  The
    repository's side is the connection with the list of the statements it
    executed, as the fake connections of the unit tests record them.  The
    text of the [psycopg2.Error] is left out of the [RepositoryError]
    messages. *)

Module Repository.

Inductive upsert_status := inserted | updated | noop.

Record MetricPayload := MkMetricPayload {
  device_id : Z;
  name : string;
  uns_path : string;
  datatype : string
}.

(** [(p.device_id, p.name, p.uns_path, p.datatype)]. *)
Definition metric_row (p : MetricPayload) : Z * string * string * string :=
  (device_id p, name p, uns_path p, datatype p).

Inductive db_reply (A : Type) :=
  | db_ok (a : A)
  | db_error.
Arguments db_ok {A} a.
Arguments db_error {A}.

(** [range(0, len(items), size)] and the slices [items[i : i + size]]. *)
Fixpoint batched_from {A} (fuel size : nat) (items : list A) : list (list A) :=
  match fuel with
  | O => []
  | S fuel' =>
      match items with
      | [] => []
      | _ => take size items :: batched_from fuel' size (drop size items)
      end
  end.

Definition batched {A} (size : nat) (items : list A) : list (list A) :=
  batched_from (length items) size items.

Definition allowed : list string :=
  ["int"; "long"; "float"; "double"; "string"; "boolean"]%string.

Definition invalid_type_msg (type : string) : string :=
  ("invalid property type: " ++ type)%string.

(** Python's [==] on two floats.  It is not the identity of values:
    [nan == nan] is [False] and [0.0 == -0.0] is [True]. *)
Class FloatEq (A : Type) := float_eq : A -> A -> bool.

Section WithBuiltins.
(** Python objects other than [None], floats, and the builtins [int],
    [float], [str] and [bool] on objects ([int] and [float] may raise). *)
Context {Obj PyFloat : Type} `{EqDecision PyFloat} `{FloatEq PyFloat}.
Context (py_int : Obj -> result Z) (py_float : Obj -> result PyFloat)
        (py_str : Obj -> string) (py_bool : Obj -> bool).

Record MetricPropertyPayload := MkMetricPropertyPayload {
  metric_id : Z;
  key : string;
  type : string;
  value : option Obj
}.

Record Columns := MkColumns {
  value_int : option Z;
  value_long : option Z;
  value_float : option PyFloat;
  value_double : option PyFloat;
  value_string : option string;
  value_bool : option bool
}.

(** [f(value) if value is not None else None]. *)
Definition coerce {A} (f : Obj -> result A) (v : option Obj) : result (option A) :=
  match v with
  | None => Ok None
  | Some o => Some <$> f o
  end.

Definition property_column_values (payload : MetricPropertyPayload)
  : result Columns :=
  if negb (bool_decide (type payload ∈ allowed))
  then Raise (RepositoryError (invalid_type_msg (type payload)))
  else
    let v := value payload in
    if bool_decide (type payload = "int"%string) then
      c ← coerce py_int v; Ok (MkColumns c None None None None None)
    else if bool_decide (type payload = "long"%string) then
      c ← coerce py_int v; Ok (MkColumns None c None None None None)
    else if bool_decide (type payload = "float"%string) then
      c ← coerce py_float v; Ok (MkColumns None None c None None None)
    else if bool_decide (type payload = "double"%string) then
      c ← coerce py_float v; Ok (MkColumns None None None c None None)
    else if bool_decide (type payload = "string"%string) then
      Ok (MkColumns None None None None (py_str <$> v) None)
    else if bool_decide (type payload = "boolean"%string) then
      Ok (MkColumns None None None None None (py_bool <$> v))
    else Ok (MkColumns None None None None None None).

(** The names of the columns that are not NULL. *)
Definition non_null_columns (c : Columns) : list string :=
  (if value_int c is Some _ then ["value_int"] else [])
  ++ (if value_long c is Some _ then ["value_long"] else [])
  ++ (if value_float c is Some _ then ["value_float"] else [])
  ++ (if value_double c is Some _ then ["value_double"] else [])
  ++ (if value_string c is Some _ then ["value_string"] else [])
  ++ (if value_bool c is Some _ then ["value_bool"] else []).

(** The column a declared type goes to. *)
Definition column_of_type (type : string) : string :=
  if bool_decide (type = "int"%string) then "value_int"
  else if bool_decide (type = "long"%string) then "value_long"
  else if bool_decide (type = "float"%string) then "value_float"
  else if bool_decide (type = "double"%string) then "value_double"
  else if bool_decide (type = "string"%string) then "value_string"
  else "value_bool".

(** A row of [uns_meta.metric_properties] as the repository sends it, and
    as the database returns it. *)
Record PropertyRow := MkPropertyRow {
  row_metric_id : Z;
  row_key : string;
  row_type : string;
  row_columns : Columns
}.

Record StoredProperty := MkStoredProperty {
  stored_row : PropertyRow;
  stored_updated_at : Z
}.

Inductive Statement :=
  | SelectProperty (metric_id : Z) (key : string)
  | UpdateProperty (row : PropertyRow)
  | InsertProperty (row : PropertyRow)
  | BulkUpsertProperties (rows : list PropertyRow)
  | BulkUpsertMetrics (rows : list (Z * string * string * string))
  | SelectMetricIds (device_id : Z) (names : list string).

Record UpsertResult := MkUpsertResult {
  status : upsert_status;
  record : option StoredProperty
}.

(** [a == b] for two columns that hold a float or [None]. *)
Definition optional_float_eq (a b : option PyFloat) : bool :=
  match a, b with
  | None, None => true
  | Some x, Some y => float_eq x y
  | _, _ => false
  end.

Definition property_rows_equal (existing : StoredProperty)
    (payload : MetricPropertyPayload) (columns : Columns) : bool :=
  bool_decide (row_type (stored_row existing) = type payload)
  && bool_decide (value_int (row_columns (stored_row existing)) = value_int columns)
  && bool_decide (value_long (row_columns (stored_row existing)) = value_long columns)
  && optional_float_eq (value_float (row_columns (stored_row existing)))
                       (value_float columns)
  && optional_float_eq (value_double (row_columns (stored_row existing)))
                       (value_double columns)
  && bool_decide (value_string (row_columns (stored_row existing)) = value_string columns)
  && bool_decide (value_bool (row_columns (stored_row existing)) = value_bool columns).

Section WithConnection.
Context {DB : Type}.
Context (select_property : Z -> string -> DB -> db_reply (option StoredProperty) * DB)
        (update_property : PropertyRow -> DB -> db_reply (option StoredProperty) * DB)
        (insert_property : PropertyRow -> DB -> db_reply (option StoredProperty) * DB)
        (bulk_upsert_properties : list PropertyRow -> DB -> db_reply Z * DB)
        (bulk_upsert_metrics :
           list (Z * string * string * string) -> DB -> db_reply unit * DB)
        (select_metric_ids :
           Z -> list string -> DB -> db_reply (list (string * Z)) * DB).

Record Connection := MkConnection {
  db : DB;
  executed : list Statement
}.

(** [conn.execute(statement, params)]. *)
Definition execute {A} (statement : Statement) (run : DB -> db_reply A * DB)
    (conn : Connection) : db_reply A * Connection :=
  let r := run (db conn) in
  (r.1, MkConnection r.2 (executed conn ++ [statement])).

(** [with self.conn.transaction():] an exception rolls the database back. *)
Definition transaction {A} (body : Connection -> result A * Connection)
    (conn : Connection) : result A * Connection :=
  let r := body conn in
  match r.1 with
  | Ok _ => r
  | Raise e => (Raise e, MkConnection (db conn) (executed r.2))
  end.

Definition property_failed : exn := RepositoryError "metric property upsert failed".

Definition upsert_metric_property (payload : MetricPropertyPayload)
    (conn : Connection) : result UpsertResult * Connection :=
  match property_column_values payload with
  | Raise e => (Raise e, conn)
  | Ok columns =>
      let row := MkPropertyRow (metric_id payload) (key payload) (type payload)
                               columns in
      transaction
        (fun conn =>
           let r := execute (SelectProperty (metric_id payload) (key payload))
                            (select_property (metric_id payload) (key payload))
                            conn in
           match r.1 with
           | db_error => (Raise property_failed, r.2)
           | db_ok (Some existing) =>
               if property_rows_equal existing payload columns
               then (Ok (MkUpsertResult noop (Some existing)), r.2)
               else
                 let u := execute (UpdateProperty row) (update_property row) r.2 in
                 match u.1 with
                 | db_error => (Raise property_failed, u.2)
                 | db_ok stored => (Ok (MkUpsertResult updated stored), u.2)
                 end
           | db_ok None =>
               let i := execute (InsertProperty row) (insert_property row) r.2 in
               match i.1 with
               | db_error => (Raise property_failed, i.2)
               | db_ok stored => (Ok (MkUpsertResult inserted stored), i.2)
               end
           end)
        conn
  end.

(** [grouped.setdefault(payload.metric_id, {})[payload.key] = payload] for
    every payload, then the payloads left, group by group. *)
Definition group_payloads (items : list MetricPropertyPayload)
  : list (Z * list (string * MetricPropertyPayload)) :=
  foldl (fun grouped payload =>
           PyDict.set (metric_id payload)
             (PyDict.set (key payload) payload
                (default [] (PyDict.get (metric_id payload) grouped)))
             grouped)
        [] items.

Definition deduplicated (items : list MetricPropertyPayload)
  : list MetricPropertyPayload :=
  mjoin (PyDict.values <$> PyDict.values (group_payloads items)).

(** The natural key of a property, and the payloads of a batch that carry
    a given one. *)
Definition natural_key (payload : MetricPropertyPayload) : Z * string :=
  (metric_id payload, key payload).

Definition with_natural_key (nk : Z * string) (items : list MetricPropertyPayload)
  : list MetricPropertyPayload :=
  filter (fun payload => natural_key payload = nk) items.

(** What holds of [grouped] all along: no key twice, and every payload
    filed under its own metric and key. *)
Definition grouped_ok (grouped : list (Z * list (string * MetricPropertyPayload)))
  : Prop :=
  NoDup (PyDict.keys grouped)
  /\ Forall (fun item =>
               NoDup (PyDict.keys item.2)
               /\ Forall (fun kp => metric_id kp.2 = item.1 /\ key kp.2 = kp.1)
                         item.2)
            grouped.

(** The rows of the bulk statement, or the first error of
    [_property_column_values]. *)
Fixpoint property_rows (payloads : list MetricPropertyPayload)
  : result (list PropertyRow) :=
  match payloads with
  | [] => Ok []
  | payload :: rest =>
      match property_column_values payload with
      | Raise e => Raise e
      | Ok columns =>
          match property_rows rest with
          | Raise e => Raise e
          | Ok rows =>
              Ok (MkPropertyRow (metric_id payload) (key payload) (type payload)
                                columns :: rows)
          end
      end
  end.

Definition bulk_property_failed : exn :=
  RepositoryError "metric property bulk upsert failed".

(** One [INSERT ... ON CONFLICT DO UPDATE] for each batch, adding up
    [cur.rowcount]. *)
Fixpoint send_property_batches (batches : list (list PropertyRow)) (total : Z)
    (conn : Connection) : result Z * Connection :=
  match batches with
  | [] => (Ok total, conn)
  | batch :: rest =>
      let r := execute (BulkUpsertProperties batch) (bulk_upsert_properties batch)
                       conn in
      match r.1 with
      | db_error => (Raise bulk_property_failed, r.2)
      | db_ok rowcount => send_property_batches rest (total + rowcount) r.2
      end
  end.

Definition upsert_metric_properties_bulk (payloads : list MetricPropertyPayload)
    (batch_size : Z) (manage_transaction : bool) (conn : Connection)
  : result Z * Connection :=
  if batch_size <=? 0 then (Raise (ValueError "batch_size must be positive"), conn)
  else
    match payloads with
    | [] => (Ok 0, conn)
    | _ =>
        let body conn :=
          match property_rows (deduplicated payloads) with
          | Raise e => (Raise e, conn)
          | Ok [] => (Ok 0, conn)
          | Ok rows =>
              send_property_batches (batched (Z.to_nat batch_size) rows) 0 conn
          end in
        if manage_transaction then transaction body conn else body conn
    end.

Definition bulk_metric_failed : exn := RepositoryError "metric bulk upsert failed".

Fixpoint send_metric_batches (batches : list (list MetricPayload))
    (id_map : gmap string Z) (conn : Connection)
  : result (gmap string Z) * Connection :=
  match batches with
  | [] => (Ok id_map, conn)
  | batch_items :: rest =>
      let rows := metric_row <$> batch_items in
      let r := execute (BulkUpsertMetrics rows) (bulk_upsert_metrics rows) conn in
      match r.1 with
      | db_error => (Raise bulk_metric_failed, r.2)
      | db_ok _ =>
          let names := name <$> batch_items in
          let first_device := default 0 (device_id <$> head batch_items) in
          let q := execute (SelectMetricIds first_device names)
                           (select_metric_ids first_device names) r.2 in
          match q.1 with
          | db_error => (Raise bulk_metric_failed, q.2)
          | db_ok fetched =>
              send_metric_batches rest
                (foldl (fun m row => <[row.1 := row.2]> m) id_map fetched) q.2
          end
      end
  end.

Definition upsert_metrics_bulk (payloads : list MetricPayload) (batch_size : Z)
    (conn : Connection) : result (gmap string Z) * Connection :=
  if batch_size <=? 0 then (Raise (ValueError "batch_size must be positive"), conn)
  else
    match payloads with
    | [] => (Ok ∅, conn)
    | _ => send_metric_batches (batched (Z.to_nat batch_size) payloads) ∅ conn
    end.
End WithConnection.
End WithBuiltins.

Arguments MetricPropertyPayload : clear implicits.
Arguments Columns : clear implicits.
Arguments PropertyRow : clear implicits.
Arguments StoredProperty : clear implicits.
Arguments Statement : clear implicits.
Arguments Connection : clear implicits.

(** *** A concrete setting for examples

    Objects that are Python integers, floats with an integral value (as
    that value), and a connection that accepts every statement and stores
    nothing. *)
Definition int_of_int (o : Z) : result Z := Ok o.
Definition float_of_int (o : Z) : result Z := Ok o.
#[global] Instance integral_float_eq : FloatEq Z := Z.eqb.
Definition bool_of_int (o : Z) : bool := negb (o =? 0).

Definition no_property (metric_id : Z) (key : string) (d : unit)
  : db_reply (option (StoredProperty Z)) * unit := (db_ok None, d).
Definition store_property (row : PropertyRow Z) (d : unit)
  : db_reply (option (StoredProperty Z)) * unit :=
  (db_ok (Some (MkStoredProperty row 0)), d).
Definition store_properties (rows : list (PropertyRow Z)) (d : unit)
  : db_reply Z * unit := (db_ok (Z.of_nat (length rows)), d).
Definition store_metrics (rows : list (Z * string * string * string)) (d : unit)
  : db_reply unit * unit := (db_ok tt, d).
Definition no_metric_ids (device_id : Z) (names : list string) (d : unit)
  : db_reply (list (string * Z)) * unit := (db_ok [], d).

Definition fresh_connection : Connection Z unit := MkConnection tt [].

(** A property of type [int] without a value. *)
Definition null_int_property : MetricPropertyPayload Z :=
  MkMetricPropertyPayload 1 "precision" "int" None.

(** Two metric payloads with the same [(device_id, name)]. *)
Definition temperature_first : MetricPayload :=
  MkMetricPayload 1 "temperature" "EDGE-01/DEVICE-01/temperature" "float".
Definition temperature_second : MetricPayload :=
  MkMetricPayload 1 "temperature" "EDGE-01/DEVICE-01/temp" "double".

(** A stored property, a connection whose [SELECT] finds it, and
    payloads for it and for a second metric. *)
Definition precision_row : PropertyRow Z :=
  MkPropertyRow 1 "precision" "int" (MkColumns (Some 5) None None None None None).

Definition held_property (metric_id : Z) (key : string) (d : unit)
  : db_reply (option (StoredProperty Z)) * unit :=
  (db_ok (Some (MkStoredProperty precision_row 0)), d).

Definition precision_five : MetricPropertyPayload Z :=
  MkMetricPropertyPayload 1 "precision" "int" (Some 5).
Definition precision_six : MetricPropertyPayload Z :=
  MkMetricPropertyPayload 1 "precision" "int" (Some 6).
Definition unit_celsius : MetricPropertyPayload Z :=
  MkMetricPropertyPayload 2 "precision" "int" (Some 1).
End Repository.

(** ** service.py: the properties handed to the repository *)

Module Service.
Import Repository.
Section WithFloat.
Context {PyFloat : Type}.

(** The values a Sparkplug property can hold once decoded: [bool] is
    tested before [int], of which it is a subclass in Python; every
    other object (dictionaries, lists, bytes) is [PyObject]. *)
Inductive PyValue :=
  | PyBool (b : bool)
  | PyInt (n : Z)
  | PyFloatValue (x : PyFloat)
  | PyStr (s : string)
  | PyObject.

(** [SparkplugSubscriber._build_property_payload]; [strip] is
    [str.strip]. *)
Definition build_property_payload (strip : string -> string) (metric_id : Z)
    (key : string) (value : option PyValue)
  : option (MetricPropertyPayload PyValue) :=
  match value with
  | None => None
  | Some (PyBool b) =>
      Some (MkMetricPropertyPayload metric_id key "boolean" (Some (PyBool b)))
  | Some (PyInt n) =>
      let type_name :=
        if (-2147483648 <=? n) && (n <=? 2147483647) then "int"%string
        else "long"%string in
      Some (MkMetricPropertyPayload metric_id key type_name (Some (PyInt n)))
  | Some (PyFloatValue x) =>
      Some (MkMetricPropertyPayload metric_id key "double"
              (Some (PyFloatValue x)))
  | Some (PyStr s) =>
      let stripped := strip s in
      if bool_decide (stripped = ""%string) then None
      else Some (MkMetricPropertyPayload metric_id key "string"
                   (Some (PyStr stripped)))
  | Some PyObject => None
  end.
End WithFloat.
Arguments PyValue : clear implicits.

(** The builtins on the values of the examples, where floats are the
    integers: [int], [float], [str] and [bool]. *)
Definition int_of_value (v : PyValue Z) : result Z :=
  match v with
  | PyBool b => Ok (if b then 1 else 0)
  | PyInt n => Ok n
  | PyFloatValue x => Ok x
  | PyStr s => AliasCache.int_of_str s
  | PyObject => Raise TypeError
  end.

Definition str_of_value (v : PyValue Z) : string :=
  match v with
  | PyBool b => if b then "True" else "False"
  | PyInt n => AliasCache.str_of_int n
  | PyFloatValue x => AliasCache.str_of_int x ++ ".0"
  | PyStr s => s
  | PyObject => "<object>"
  end.

Definition bool_of_value (v : PyValue Z) : bool :=
  match v with
  | PyBool b => b
  | PyInt n => negb (n =? 0)
  | PyFloatValue x => negb (x =? 0)
  | PyStr s => negb (bool_decide (s = ""%string))
  | PyObject => true
  end.
End Service.


(** ** cdc/logical_replication.py *)

Module Replication.

(** *** ExponentialBackoff *)

(** What [next_delay] raises: [BackoffExhausted], or the
    [OverflowError] of [multiplier ** attempt] when the power is beyond
    the largest float. *)
Inductive backoff_error := BackoffExhausted | OverflowError.

(** The least real that rounds to no finite float. *)
Definition float_overflow : Q := inject_Z (2 ^ 1024 - 2 ^ 970).

Record ExponentialBackoff := MkBackoff {
  base_interval : Q;
  multiplier : Q;
  max_interval : Q;
  max_attempts : option Z;
  jitter : bool;
  attempt : Z
}.

Definition backoff_init (base mult max : Q) (attempts : option Z)
    (with_jitter : bool) : result ExponentialBackoff :=
  if Qle_bool base 0 then Raise (ValueError "base_interval must be positive")
  else if Qltb mult 1 then Raise (ValueError "multiplier must be at least 1.0")
  else if Qltb max base
  then Raise (ValueError "max_interval must be >= base_interval")
  else Ok (MkBackoff base mult max attempts with_jitter 0).

Definition attempts (self : ExponentialBackoff) : Z := attempt self.

Definition backoff_reset (self : ExponentialBackoff) : ExponentialBackoff :=
  MkBackoff (base_interval self) (multiplier self) (max_interval self)
            (max_attempts self) (jitter self) 0.

(** [random_value] is what [self.random_fn()] returns if it is called.
    The power and the two products are kept exact: [**] on floats
    follows no rounding rule, and what is proved of the delay are
    bounds by floats, which rounding to the nearest float keeps. *)
Definition next_delay (random_value : Q) (self : ExponentialBackoff)
  : (backoff_error + Q) * ExponentialBackoff :=
  if match max_attempts self with
     | Some limit => attempt self >=? limit
     | None => false
     end
  then (inl BackoffExhausted, self)
  else
    let power := (multiplier self ^ attempt self)%Q in
    if Qle_bool float_overflow power then (inl OverflowError, self)
    else
      let raw := Qmin (base_interval self * power) (max_interval self) in
      let self := MkBackoff (base_interval self) (multiplier self)
                            (max_interval self) (max_attempts self)
                            (jitter self) (attempt self + 1) in
      if negb (jitter self) then (inr raw, self)
      else (inr (random_value * raw)%Q, self).

(** *** LogicalReplicationClient *)

Record ReplicationStreamMessage := MkMessage {
  lsn : Z;
  data : list Byte.byte;
  commit_timestamp : Q
}.

(** What [process] raises.  [RaisedBeforeTry]: the exception of
    [checkpoint_store.load] or of the call of the stream factory, which
    come before the [try].  [Failed]: the exception of the stream, the
    decoder, the handler or [checkpoint_store.save], inside the [try].
    [BackoffFailed]: the one [backoff.next_delay()] raised while an
    exception of the [try] was being handled. *)
Inductive process_error :=
  | RaisedBeforeTry (e : exn)
  | Failed (e : exn)
  | BackoffFailed (e : backoff_error).

Section WithStore.
(** The checkpoint store, the decoder and the handler are injected.
    [stream_factory start_lsn] raises, or gives the messages the stream
    yields and then the exception that ends it, if one does (raised by
    [iter(stream)] or by a [next]); [handler] tells which exception a
    change makes the callback raise. *)
Context {Store Change : Type}.
Context (load : string -> Store -> result (option Z))
        (save : string -> Z -> Store -> result unit * Store)
        (stream_factory :
           option Z -> result (list ReplicationStreamMessage * option exn))
        (decode : ReplicationStreamMessage -> result (list Change))
        (handler : Change -> option exn).

Record LogicalReplicationClient := MkReplicationClient {
  slot_name : string;
  checkpoint_interval : Z;
  backoff : ExponentialBackoff;
  last_seen_lsn : option Z;
  last_persisted_lsn : option Z;
  last_error_delay : option Q;
  checkpoint_store : Store;
  handled : list Change
}.

Definition client_init (slot : string) (store : Store) (interval : Z)
    (b : ExponentialBackoff) : LogicalReplicationClient :=
  MkReplicationClient slot (Z.max 1 interval) b None None None store [].

(** [lsn > self._last_persisted_lsn], or nothing persisted yet. *)
Definition beyond_persisted (l : Z) (self : LogicalReplicationClient) : bool :=
  match last_persisted_lsn self with
  | None => true
  | Some p => p <? l
  end.

Definition persist_checkpoint (l : Z) (self : LogicalReplicationClient)
  : result unit * LogicalReplicationClient :=
  if beyond_persisted l self then
    let r := save (slot_name self) l (checkpoint_store self) in
    match r.1 with
    | Raise e =>
        (Raise e,
         MkReplicationClient (slot_name self) (checkpoint_interval self)
           (backoff self) (last_seen_lsn self) (last_persisted_lsn self)
           (last_error_delay self) r.2 (handled self))
    | Ok _ =>
        (Ok tt,
         MkReplicationClient (slot_name self) (checkpoint_interval self)
           (backoff self) (last_seen_lsn self) (Some l)
           (last_error_delay self) r.2 (handled self))
    end
  else (Ok tt, self).

Definition set_last_seen (l : Z) (self : LogicalReplicationClient)
  : LogicalReplicationClient :=
  MkReplicationClient (slot_name self) (checkpoint_interval self)
    (backoff self) (Some l) (last_persisted_lsn self) (last_error_delay self)
    (checkpoint_store self) (handled self).

Definition record_handled (change : Change) (self : LogicalReplicationClient)
  : LogicalReplicationClient :=
  MkReplicationClient (slot_name self) (checkpoint_interval self)
    (backoff self) (last_seen_lsn self) (last_persisted_lsn self)
    (last_error_delay self) (checkpoint_store self) (handled self ++ [change]).

(** [self._backoff.reset(); self._last_error_delay = None]. *)
Definition settle (self : LogicalReplicationClient) : LogicalReplicationClient :=
  MkReplicationClient (slot_name self) (checkpoint_interval self)
    (backoff_reset (backoff self)) (last_seen_lsn self)
    (last_persisted_lsn self) None (checkpoint_store self) (handled self).

(** How the loop over the changes of one message ends. *)
Inductive changes_outcome :=
  | Exhausted (processed : Z)
  | LimitReached (processed : Z)
  | Raised (e : exn).

(** [max_messages and processed >= max_messages]. *)
Definition limit_reached (max_messages : option Z) (processed : Z) : bool :=
  match max_messages with
  | None => false
  | Some limit => negb (limit =? 0) && (processed >=? limit)
  end.

Fixpoint handle_changes (max_messages : option Z) (changes : list Change)
    (processed : Z) (self : LogicalReplicationClient)
  : changes_outcome * LogicalReplicationClient :=
  match changes with
  | [] => (Exhausted processed, self)
  | change :: rest =>
      let processed := processed + 1 in
      match handler change with
      | Some e => (Raised e, self)
      | None =>
          let self := record_handled change self in
          if limit_reached max_messages processed
          then (LimitReached processed, self)
          else handle_changes max_messages rest processed self
      end
  end.

(** The body of the [try]. *)
Fixpoint process_messages (max_messages : option Z)
    (messages : list ReplicationStreamMessage) (stream_error : option exn)
    (processed : Z) (self : LogicalReplicationClient)
  : result Z * LogicalReplicationClient :=
  match messages with
  | [] =>
      match stream_error with
      | Some e => (Raise e, self)
      | None =>
          let r :=
            match last_seen_lsn self with
            | Some l => persist_checkpoint l self
            | None => (Ok tt, self)
            end in
          match r.1 with
          | Raise e => (Raise e, r.2)
          | Ok _ => (Ok processed, settle r.2)
          end
      end
  | message :: rest =>
      match decode message with
      | Raise e => (Raise e, self)
      | Ok decoded =>
          match handle_changes max_messages decoded processed self with
          | (Raised e, self) => (Raise e, self)
          | (LimitReached processed, self) =>
              let self := set_last_seen (lsn message) self in
              let r :=
                if beyond_persisted (lsn message) self
                then persist_checkpoint (lsn message) self
                else (Ok tt, self) in
              match r.1 with
              | Raise e => (Raise e, r.2)
              | Ok _ => (Ok processed, settle r.2)
              end
          | (Exhausted processed, self) =>
              let self := set_last_seen (lsn message) self in
              let r :=
                if processed `mod` checkpoint_interval self =? 0
                then persist_checkpoint (lsn message) self
                else (Ok tt, self) in
              match r.1 with
              | Raise e => (Raise e, r.2)
              | Ok _ =>
                  process_messages max_messages rest stream_error processed r.2
              end
          end
      end
  end.

(** [random_value] is what the backoff draws if it is called. *)
Definition process (max_messages : option Z) (random_value : Q)
    (self : LogicalReplicationClient)
  : (process_error + Z) * LogicalReplicationClient :=
  match load (slot_name self) (checkpoint_store self) with
  | Raise e => (inl (RaisedBeforeTry e), self)
  | Ok start_lsn =>
      match stream_factory start_lsn with
      | Raise e => (inl (RaisedBeforeTry e), self)
      | Ok stream =>
          let r := process_messages max_messages stream.1 stream.2 0 self in
          match r.1 with
          | Ok processed => (inr processed, r.2)
          | Raise e =>
              let d := next_delay random_value (backoff r.2) in
              let with_backoff delay :=
                MkReplicationClient (slot_name r.2) (checkpoint_interval r.2)
                  d.2 (last_seen_lsn r.2) (last_persisted_lsn r.2) delay
                  (checkpoint_store r.2) (handled r.2) in
              match d.1 with
              | inl b =>
                  (inl (BackoffFailed b), with_backoff (last_error_delay r.2))
              | inr delay => (inl (Failed e), with_backoff (Some delay))
              end
          end
      end
  end.

(** The fields [process] leaves alone until it returns or raises. *)
Definition same_settings (c c' : LogicalReplicationClient) : Prop :=
  slot_name c' = slot_name c
  /\ checkpoint_interval c' = checkpoint_interval c
  /\ backoff c' = backoff c
  /\ last_error_delay c' = last_error_delay c.

(** A message the decoder and the handler accept, and what the handler
    receives from a list of such messages. *)
Definition accepted (message : ReplicationStreamMessage) : Prop :=
  exists changes,
    decode message = Ok changes
    /\ Forall (fun change => handler change = None) changes.

Definition changes_of (messages : list ReplicationStreamMessage)
  : list Change :=
  mjoin ((fun message => match decode message with
                         | Ok changes => changes
                         | Raise _ => []
                         end) <$> messages).
End WithStore.
Arguments LogicalReplicationClient : clear implicits.

(** What the constructor guarantees of a backoff, and [next_delay]
    keeps. *)
Definition backoff_ok (b : ExponentialBackoff) : Prop :=
  (0 < base_interval b)%Q /\ (1 <= multiplier b)%Q
  /\ (base_interval b <= max_interval b)%Q /\ 0 <= attempt b.

(** [InMemoryCheckpointStore.load] and [save] as the client calls
    them: they never raise. *)
Definition im_store_load (slot : string)
    (store : Checkpoint.InMemoryCheckpointStore) : result (option Z) :=
  Ok (Checkpoint.im_load slot store).

Definition im_store_save (slot : string) (l : Z)
    (store : Checkpoint.InMemoryCheckpointStore)
  : result unit * Checkpoint.InMemoryCheckpointStore :=
  (Ok tt, Checkpoint.im_save slot l store).

(** A client over the in-memory store whose bookkeeping agrees with the
    store, and whose stored position lies before [next]: the state in
    which a stream that resumes at [next] finds it. *)
Definition resumes_before {Change} (next : Z)
    (c : LogicalReplicationClient Checkpoint.InMemoryCheckpointStore Change)
  : Prop :=
  0 < checkpoint_interval c
  /\ (forall p, last_persisted_lsn c = Some p ->
                Checkpoint.im_load (slot_name c) (checkpoint_store c) = Some p)
  /\ (forall p, Checkpoint.im_load (slot_name c) (checkpoint_store c) = Some p ->
                p < next).

(** The position the in-memory store holds for the client's slot. *)
Definition position {Change}
    (c : LogicalReplicationClient Checkpoint.InMemoryCheckpointStore Change)
  : option Z :=
  Checkpoint.im_load (slot_name c) (checkpoint_store c).

(** After the message at [l]: either nothing at or beyond [l] is
    stored, or [l] itself is, and the client knows. *)
Definition tracked {Change} (l : Z)
    (c : LogicalReplicationClient Checkpoint.InMemoryCheckpointStore Change)
  : Prop :=
  0 < checkpoint_interval c
  /\ last_seen_lsn c = Some l
  /\ ((forall p, last_persisted_lsn c = Some p -> position c = Some p)
      /\ (forall p, position c = Some p -> p < l)
      \/ position c = Some l /\ last_persisted_lsn c = Some l).

(** The stream, decoder and client of
    [test_checkpoint_persisted_across_reconnect], and a decoder that
    fails on the second message. *)
Definition two_messages : list ReplicationStreamMessage :=
  [MkMessage 100 [] 1; MkMessage 110 [] 2].

Definition stream_of_two (start_lsn : option Z)
  : result (list ReplicationStreamMessage * option exn) :=
  Ok (two_messages, None).

Definition decode_lsn (message : ReplicationStreamMessage) : result (list Z) :=
  Ok [lsn message].

Definition decode_first_only (message : ReplicationStreamMessage)
  : result (list Z) :=
  if lsn message =? 100 then Ok [lsn message] else Raise DecodeError.

Definition accept_all (change : Z) : option exn := None.

Definition test_client
  : LogicalReplicationClient Checkpoint.InMemoryCheckpointStore Z :=
  client_init "test_slot" Checkpoint.im_new 1
    (MkBackoff (1 # 2) 2 (32 # 5) (Some 6) false 0).
End Replication.

(** ** Proof automation *)

(** Case analysis on the boolean tests of the checkpoint guards. *)
Ltac reset_cases :=
  repeat first
    [ case_bool_decide
    | progress match goal with
               | |- context [?a <? ?b] => destruct (Z.ltb_spec a b)
               end ];
  simpl in *; try congruence; try lia; eauto.

(* ================================================================== *)
(** * Properties *)
(* ================================================================== *)

#[local] Set Warnings "-clear-no-such-hyp".

Module Float64Proofs.
Import Float64.
Local Open Scope Q_scope.

Lemma two_to_pos e : 0 < two_to e.
Proof. apply Qpower_0_lt. reflexivity. Qed.

Lemma two_to_add a b : two_to (a + b) == two_to a * two_to b.
Proof. apply Qpower_plus. discriminate. Qed.

Lemma two_to_le a b : (a <= b)%Z -> two_to a <= two_to b.
Proof. intros. apply Qpower_le_compat_l; [done|]. discriminate. Qed.

Lemma two_to_lt a b : (a < b)%Z -> two_to a < two_to b.
Proof. intros. apply Qpower_lt_compat_l; [done|]. reflexivity. Qed.

Lemma two_to_lt_inv a b : two_to a < two_to b -> (a < b)%Z.
Proof. intros. eapply Qpower_lt_compat_l_inv; [done|]. reflexivity. Qed.

Lemma two_to_Z n : (0 <= n)%Z -> two_to n == inject_Z (2 ^ n).
Proof. intros. unfold two_to. by rewrite Zpower_Qpower. Qed.

Lemma two_to_sub a b : two_to (a - b) * two_to b == two_to a.
Proof. rewrite <- two_to_add. by replace (a - b + b)%Z with a by lia. Qed.

Lemma Q_as_fraction x : x * inject_Z (Zpos (Qden x)) == inject_Z (Qnum x).
Proof.
  destruct x as [n d]. unfold Qeq, Qmult, inject_Z. simpl. lia.
Qed.

Lemma ilog2_spec x :
  0 < x -> two_to (ilog2 x) <= x /\ x < two_to (ilog2 x + 1).
Proof.
  intros Hx. unfold ilog2.
  set (n := Qnum x). set (d := Zpos (Qden x)).
  assert (0 < n)%Z as Hn by (destruct x as [n' d']; unfold Qlt in Hx; simpl in *; lia).
  assert (0 < d)%Z as Hd by done.
  pose proof (Z.log2_spec n Hn) as [Hn1 Hn2].
  pose proof (Z.log2_spec d Hd) as [Hd1 Hd2].
  pose proof (Z.log2_nonneg n) as Ha. pose proof (Z.log2_nonneg d) as Hb.
  set (a := Z.log2 n) in *. set (b := Z.log2 d) in *.
  pose proof (Q_as_fraction x) as Hfrac. fold n d in Hfrac.
  assert (two_to a <= inject_Z n) as Hqn1
    by (rewrite two_to_Z by done; by rewrite <- Zle_Qle).
  assert (inject_Z n < two_to (a + 1)) as Hqn2.
  { rewrite two_to_Z by lia. rewrite <- Zlt_Qlt. by replace (a + 1)%Z with (Z.succ a) by lia. }
  assert (two_to b <= inject_Z d) as Hqd1
    by (rewrite two_to_Z by done; by rewrite <- Zle_Qle).
  assert (inject_Z d < two_to (b + 1)) as Hqd2.
  { rewrite two_to_Z by lia. rewrite <- Zlt_Qlt. by replace (b + 1)%Z with (Z.succ b) by lia. }
  assert (0 < inject_Z d) as HD by (by rewrite Zlt_Qlt in Hd).
  pose proof (two_to_sub (a + 1) b) as E1.
  pose proof (two_to_sub a (b + 1)) as E2.
  replace (a + 1 - b)%Z with (a - b + 1)%Z in E1 by lia.
  replace (a - (b + 1))%Z with (a - b - 1)%Z in E2 by lia.
  pose proof (two_to_pos (a - b + 1)). pose proof (two_to_pos (a - b - 1)).
  pose proof (two_to_pos b). pose proof (two_to_pos (b + 1)).
  assert (x < two_to (a - b + 1)) as Hup by nra.
  assert (two_to (a - b - 1) < x) as Hlow by nra.
  destruct (Qle_bool (two_to (a - b)) x) eqn:Hcmp.
  - apply Qle_bool_iff in Hcmp. by split.
  - assert (x < two_to (a - b)) as Hlt.
    { apply Qnot_le_lt. intros Hle. apply Qle_bool_iff in Hle. congruence. }
    split; [by apply Qlt_le_weak|]. by replace (a - b - 1 + 1)%Z with (a - b)%Z by lia.
Qed.

Lemma ilog2_unique x e :
  two_to e <= x -> x < two_to (e + 1) -> ilog2 x = e.
Proof.
  intros Hlow Hup.
  assert (0 < x) as Hx by (pose proof (two_to_pos e); lra).
  destruct (ilog2_spec x Hx) as [Hl Hu].
  assert (e < ilog2 x + 1)%Z by (apply two_to_lt_inv; lra).
  assert (ilog2 x < e + 1)%Z by (apply two_to_lt_inv; lra).
  lia.
Qed.

Lemma ilog2_mono x y : 0 < x -> x <= y -> (ilog2 x <= ilog2 y)%Z.
Proof.
  intros Hx Hxy.
  destruct (ilog2_spec x Hx) as [Hl _].
  destruct (ilog2_spec y) as [_ Hu]; [lra|].
  assert (ilog2 x < ilog2 y + 1)%Z by (apply two_to_lt_inv; lra).
  lia.
Qed.

Lemma round_half_even_bounds x :
  (Qfloor x <= round_half_even x <= Qfloor x + 1)%Z.
Proof.
  unfold round_half_even.
  destruct (x - inject_Z (Qfloor x) ?= 1 # 2); [destruct (Z.even _)|..]; lia.
Qed.

Lemma round_half_even_mono x y :
  x <= y -> (round_half_even x <= round_half_even y)%Z.
Proof.
  intros Hxy. pose proof (Qfloor_resp_le _ _ Hxy) as Hf.
  pose proof (round_half_even_bounds x). pose proof (round_half_even_bounds y).
  destruct (decide (Qfloor x = Qfloor y)) as [Heq|Hne]; [|lia].
  unfold round_half_even in *. rewrite <- Heq in *.
  destruct (x - inject_Z (Qfloor x) ?= 1 # 2) eqn:Hx;
    destruct (y - inject_Z (Qfloor x) ?= 1 # 2) eqn:Hy;
    try (destruct (Z.even (Qfloor x)); lia); try lia.
  all: try rewrite <- Qeq_alt in *; try rewrite <- Qlt_alt in *;
       try rewrite <- Qgt_alt in *; lra.
Qed.

Lemma round_half_even_Z k : round_half_even (inject_Z k) = k.
Proof.
  unfold round_half_even. rewrite Qfloor_Z.
  assert ((inject_Z k - inject_Z k ?= 1 # 2) = Lt) as ->; [|done].
  rewrite <- Qlt_alt. lra.
Qed.

Lemma round_half_even_ge k x : inject_Z k <= x -> (k <= round_half_even x)%Z.
Proof.
  intros H. apply round_half_even_mono in H.
  by rewrite round_half_even_Z in H.
Qed.

Lemma round_half_even_le k x : x <= inject_Z k -> (round_half_even x <= k)%Z.
Proof.
  intros H. apply round_half_even_mono in H.
  by rewrite round_half_even_Z in H.
Qed.

Lemma round_half_even_eq x y : x == y -> round_half_even x = round_half_even y.
Proof.
  intros H. apply Z.le_antisymm; apply round_half_even_mono; lra.
Qed.

Lemma ulp_exponent_ge x : (emin <= ulp_exponent x)%Z.
Proof. unfold ulp_exponent. lia. Qed.

(** A positive [x] counts less than [2 ^ 53] spacings. *)
Lemma below_two_to_53 x :
  0 < x -> x / two_to (ulp_exponent x) < two_to 53.
Proof.
  intros Hx. destruct (ilog2_spec x Hx) as [_ Hu].
  pose proof (two_to_pos (ulp_exponent x)) as Hq.
  apply Qlt_shift_div_r; [done|]. rewrite <- two_to_add.
  eapply Qlt_le_trans; [exact Hu|]. apply two_to_le. unfold ulp_exponent. lia.
Qed.

Lemma round_positive_nonneg x : 0 <= x -> 0 <= round_positive x.
Proof.
  intros Hx. unfold round_positive.
  pose proof (two_to_pos (ulp_exponent x)) as Hq.
  apply Qmult_le_0_compat; [|lra].
  change 0 with (inject_Z 0). rewrite <- Zle_Qle. apply round_half_even_ge.
  change (inject_Z 0) with 0. apply Qle_shift_div_l; [done|]. lra.
Qed.

Lemma round_positive_mono x y :
  0 < x -> x <= y -> round_positive x <= round_positive y.
Proof.
  intros Hx Hxy. assert (0 < y) as Hy by lra.
  pose proof (ilog2_mono x y Hx Hxy) as Hlog.
  unfold round_positive.
  pose proof (two_to_pos (ulp_exponent x)) as Hqx.
  pose proof (two_to_pos (ulp_exponent y)) as Hqy.
  destruct (decide (ulp_exponent x = ulp_exponent y)) as [Heq|Hne].
  - rewrite <- Heq in *. apply Qmult_le_compat_r; [|lra].
    rewrite <- Zle_Qle. apply round_half_even_mono.
    unfold Qdiv. apply Qmult_le_compat_r; [done|].
    apply Qinv_le_0_compat. lra.
  - assert (ulp_exponent x < ulp_exponent y)%Z as Hlt
      by (unfold ulp_exponent in *; lia).
    assert (ulp_exponent y = ilog2 y - 52)%Z as Hny
      by (unfold ulp_exponent in *; lia).
    (* at most 2^53 spacings on the left, at least 2^52 on the right *)
    assert (round_half_even (x / two_to (ulp_exponent x)) <= 2 ^ 53)%Z as Hm.
    { apply round_half_even_le. rewrite <- two_to_Z by lia.
      apply Qlt_le_weak. by apply below_two_to_53. }
    assert (2 ^ 52 <= round_half_even (y / two_to (ulp_exponent y)))%Z as Hm'.
    { apply round_half_even_ge. rewrite <- two_to_Z by lia.
      apply Qle_shift_div_l; [done|]. rewrite <- two_to_add.
      destruct (ilog2_spec y Hy) as [Hl _].
      by replace (52 + ulp_exponent y)%Z with (ilog2 y) by lia. }
    rewrite Zle_Qle in Hm, Hm'.
    rewrite <- two_to_Z in Hm, Hm' by lia.
    pose proof (two_to_add 53 (ulp_exponent x)) as E1.
    pose proof (two_to_add 52 (ulp_exponent y)) as E2.
    assert (two_to (53 + ulp_exponent x) <= two_to (52 + ulp_exponent y))
      by (apply two_to_le; lia).
    set (mx := inject_Z (round_half_even (x / two_to (ulp_exponent x)))) in *.
    set (my := inject_Z (round_half_even (y / two_to (ulp_exponent y)))) in *.
    nra.
Qed.

Lemma round64_0 : round64 0 = 0.
Proof. reflexivity. Qed.

Lemma round64_nonneg x : 0 <= x -> 0 <= round64 x.
Proof.
  intros Hx. unfold round64. destruct (0 ?= x) eqn:Hc.
  - lra.
  - apply round_positive_nonneg. lra.
  - rewrite <- Qgt_alt in Hc. lra.
Qed.

Lemma round64_nonpos x : x <= 0 -> round64 x <= 0.
Proof.
  intros Hx. unfold round64. destruct (0 ?= x) eqn:Hc.
  - lra.
  - rewrite <- Qlt_alt in Hc. lra.
  - rewrite <- Qgt_alt in Hc.
    pose proof (round_positive_nonneg (- x)). lra.
Qed.

(** Rounding keeps the order. *)
Lemma round64_mono x y : x <= y -> round64 x <= round64 y.
Proof.
  intros Hxy. destruct (Qlt_le_dec 0 x) as [Hx|Hx].
  - unfold round64.
    assert ((0 ?= x) = Lt) as -> by (by rewrite <- Qlt_alt).
    assert ((0 ?= y) = Lt) as -> by (rewrite <- Qlt_alt; lra).
    by apply round_positive_mono.
  - destruct (Qlt_le_dec y 0) as [Hy|Hy].
    + unfold round64.
      assert ((0 ?= x) = Gt) as -> by (rewrite <- Qgt_alt; lra).
      assert ((0 ?= y) = Gt) as -> by (by rewrite <- Qgt_alt).
      pose proof (round_positive_mono (- y) (- x)). lra.
    + pose proof (round64_nonpos x Hx). pose proof (round64_nonneg y Hy). lra.
Qed.

Lemma round64_eq x y : x == y -> round64 x == round64 y.
Proof. intros H. apply Qle_antisym; apply round64_mono; lra. Qed.

(** Every float is a multiple of the smallest positive one. *)
Lemma round_positive_grid x :
  exists k, round_positive x == inject_Z k * two_to emin.
Proof.
  unfold round_positive. set (q := ulp_exponent x).
  set (m := round_half_even _).
  exists (m * 2 ^ (q - emin))%Z.
  pose proof (ulp_exponent_ge x). fold q in H.
  rewrite inject_Z_mult, <- two_to_Z by lia.
  rewrite <- (two_to_sub q emin). ring.
Qed.

Lemma round64_grid x : exists k, round64 x == inject_Z k * two_to emin.
Proof.
  unfold round64. destruct (0 ?= x).
  - exists 0%Z. ring.
  - apply round_positive_grid.
  - destruct (round_positive_grid (- x)) as [k Hk]. exists (- k)%Z.
    rewrite Hk, inject_Z_opp. ring.
Qed.

Lemma is_float_grid x : is_float x -> exists k, x == inject_Z k * two_to emin.
Proof.
  intros Hx. destruct (round64_grid x) as [k Hk]. exists k.
  eapply Qeq_trans; [symmetry; exact Hx | exact Hk].
Qed.

Lemma smallest_is_float : is_float (two_to emin).
Proof. unfold is_float. vm_compute. reflexivity. Qed.

(** The difference of two floats is never rounded to zero. *)
Lemma sub_pos x y : is_float x -> is_float y -> y < x -> 0 < sub x y.
Proof.
  intros [kx Hx]%is_float_grid [ky Hy]%is_float_grid Hlt.
  pose proof (two_to_pos emin) as Hpos.
  assert (ky < kx)%Z as Hk.
  { apply Z.lt_nge. intros Hle. rewrite Zle_Qle in Hle. nra. }
  assert (two_to emin <= x - y) as Hstep.
  { assert (inject_Z ky + 1 <= inject_Z kx) as Hk'.
    { change 1 with (inject_Z 1). rewrite <- inject_Z_plus, <- Zle_Qle. lia. }
    nra. }
  unfold sub. apply round64_mono in Hstep.
  pose proof smallest_is_float as Hsmall. unfold is_float in Hsmall. lra.
Qed.

Lemma sub_nonpos x y : x <= y -> sub x y <= 0.
Proof. intros. unfold sub. apply round64_nonpos. lra. Qed.

Lemma sub_nonneg x y : y <= x -> 0 <= sub x y.
Proof. intros. unfold sub. apply round64_nonneg. lra. Qed.

(** A float of [m] spacings, [m] below [2 ^ 53], is not rounded. *)
Lemma round_positive_exact m q :
  (0 < m <= 2 ^ 53)%Z -> (emin <= q)%Z -> (emin < q -> 2 ^ 52 <= m)%Z ->
  round_positive (inject_Z m * two_to q) == inject_Z m * two_to q.
Proof.
  intros Hm Hq Hnormal.
  pose proof (Z.log2_spec m) as Hlog. pose proof (Z.log2_nonneg m) as Hl0.
  set (l := Z.log2 m) in *.
  assert (ilog2 (inject_Z m * two_to q) = l + q)%Z as Hilog.
  { apply ilog2_unique.
    - rewrite two_to_add. apply Qmult_le_compat_r; [|pose proof (two_to_pos q); lra].
      rewrite two_to_Z by done. rewrite <- Zle_Qle. lia.
    - replace (l + q + 1)%Z with (l + 1 + q)%Z by lia. rewrite two_to_add.
      apply Qmult_lt_r; [apply two_to_pos|].
      rewrite two_to_Z by lia. rewrite <- Zlt_Qlt.
      replace (l + 1)%Z with (Z.succ l) by lia. lia. }
  destruct (decide (m = 2 ^ 53)%Z) as [->|Hne].
  - (* the next binade *)
    assert (l = 53)%Z as Hl by (subst l; reflexivity).
    unfold round_positive, ulp_exponent. rewrite Hilog, Hl.
    replace (Z.max emin (53 + q - 52)) with (q + 1)%Z by lia.
    assert (inject_Z (2 ^ 53) == inject_Z (2 ^ 52) * 2) as Hdouble
      by reflexivity.
    pose proof (two_to_pos q) as Hq0.
    rewrite (round_half_even_eq _ (inject_Z (2 ^ 52))).
    2: { rewrite two_to_add, Hdouble. change (two_to 1) with 2. field. lra. }
    rewrite round_half_even_Z, two_to_add, Hdouble. change (two_to 1) with 2.
    ring.
  - assert (l <= 52)%Z as Hl.
    { assert (m < 2 ^ 53)%Z as Hlt by lia.
      apply Z.log2_lt_pow2 in Hlt; [fold l in Hlt; lia | lia]. }
    assert (Z.max emin (l + q - 52) = q) as Hulp.
    { destruct (decide (q = emin)) as [->|Hqne]; [lia|].
      assert (2 ^ 52 <= m)%Z as H52 by (apply Hnormal; lia).
      apply Z.log2_le_pow2 in H52; [fold l in H52; lia | lia]. }
    unfold round_positive, ulp_exponent. rewrite Hilog, Hulp.
    rewrite (round_half_even_eq _ (inject_Z m))
      by (pose proof (two_to_pos q); field; lra).
    by rewrite round_half_even_Z.
Qed.

Lemma round_positive_eq x y :
  0 < x -> x == y -> round_positive x == round_positive y.
Proof.
  intros Hx Hxy. apply Qle_antisym; apply round_positive_mono; lra.
Qed.

Lemma round_positive_fixed y :
  0 < y -> 0 < round_positive y ->
  round_positive (round_positive y) == round_positive y.
Proof.
  intros Hy Hpos. unfold round_positive at 1 3.
  set (q := ulp_exponent y). set (m := round_half_even (y / two_to q)).
  change (round_positive y) with (inject_Z m * two_to q) in *.
  pose proof (two_to_pos q) as Hq.
  apply round_positive_exact.
  - split.
    + apply Z.lt_nge. intros Hle. rewrite Zle_Qle in Hle.
      change (inject_Z 0) with 0 in Hle. nra.
    + apply round_half_even_le. rewrite <- two_to_Z by lia.
      apply Qlt_le_weak. by apply below_two_to_53.
  - apply ulp_exponent_ge.
  - intros Hnormal. apply round_half_even_ge. rewrite <- two_to_Z by lia.
    apply Qle_shift_div_l; [done|]. rewrite <- two_to_add.
    destruct (ilog2_spec y Hy) as [Hl _].
    replace (52 + q)%Z with (ilog2 y); [done|].
    subst q. unfold ulp_exponent in *. lia.
Qed.

(** Rounding a float gives the float itself. *)
Lemma round64_idempotent x : is_float (round64 x).
Proof.
  unfold is_float.
  assert (forall y, 0 < y -> round64 (round_positive y) == round_positive y)
    as Hpos.
  { intros y Hy. pose proof (round_positive_nonneg y (Qlt_le_weak _ _ Hy)) as H0.
    unfold round64. destruct (0 ?= round_positive y) eqn:Hc.
    - by rewrite <- Qeq_alt in Hc.
    - rewrite <- Qlt_alt in Hc. by apply round_positive_fixed.
    - rewrite <- Qgt_alt in Hc. lra. }
  destruct (0 ?= x) eqn:Hc.
  - assert (round64 x = 0) as -> by (unfold round64; by rewrite Hc).
    reflexivity.
  - assert (round64 x = round_positive x) as ->
      by (unfold round64; by rewrite Hc).
    rewrite <- Qlt_alt in Hc. by apply Hpos.
  - assert (round64 x = - round_positive (- x)) as ->
      by (unfold round64; by rewrite Hc).
    rewrite <- Qgt_alt in Hc.
    assert (0 < - x) as Hx by lra.
    pose proof (round_positive_nonneg (- x) (Qlt_le_weak _ _ Hx)) as H0.
    specialize (Hpos (- x) Hx).
    unfold round64 in *.
    destruct (0 ?= round_positive (- x)) eqn:Hr.
    + rewrite <- Qeq_alt in Hr.
      assert ((0 ?= - round_positive (- x)) = Eq) as ->; [|lra].
      rewrite <- Qeq_alt. lra.
    + rewrite <- Qlt_alt in Hr.
      assert ((0 ?= - round_positive (- x)) = Gt) as ->
        by (rewrite <- Qgt_alt; lra).
      rewrite (round_positive_eq (- - round_positive (- x))
                 (round_positive (- x))) by lra.
      lra.
    + rewrite <- Qgt_alt in Hr. lra.
Qed.

Lemma is_float_0 : is_float 0.
Proof. reflexivity. Qed.

Lemma is_float_1 : is_float 1.
Proof. unfold is_float. vm_compute. reflexivity. Qed.

Lemma round64_opp x : round64 (- x) == - round64 x.
Proof.
  unfold round64. destruct (0 ?= x) eqn:Hc.
  - rewrite <- Qeq_alt in Hc.
    assert ((0 ?= - x) = Eq) as -> by (rewrite <- Qeq_alt; lra). lra.
  - rewrite <- Qlt_alt in Hc.
    assert ((0 ?= - x) = Gt) as -> by (rewrite <- Qgt_alt; lra).
    rewrite (round_positive_eq (- - x) x) by lra. lra.
  - rewrite <- Qgt_alt in Hc.
    assert ((0 ?= - x) = Lt) as -> by (rewrite <- Qlt_alt; lra). lra.
Qed.

(** Rounding never crosses a float. *)
Lemma round64_le_float x y : is_float y -> x <= y -> round64 x <= y.
Proof. intros Hy Hxy. apply round64_mono in Hxy. unfold is_float in Hy. lra. Qed.

Lemma round64_ge_float x y : is_float x -> x <= y -> x <= round64 y.
Proof. intros Hx Hxy. apply round64_mono in Hxy. unfold is_float in Hx. lra. Qed.

(** [round64] against the binary64 arithmetic of the machine, on
    inexact quotients, sums, differences and products, a subnormal
    included. *)
Example round64_agrees_with_binary64 :
  of_binary64 (3 / 10)%float == div 3 10
  /\ of_binary64 (603 / 10 - 3 / 10)%float == sub (div 603 10) (div 3 10)
  /\ of_binary64 (1 / 10 + 2 / 10)%float == add (div 1 10) (div 2 10)
  /\ of_binary64 (1 / 49 * 49)%float == mul (div 1 49) 49
  /\ of_binary64 (1 - 1 / 10)%float == sub 1 (div 1 10)
  /\ of_binary64 (1 / 3 / 0x1p1000 / 0x1p70)%float
     == div (div (div 1 3) (two_to 1000)) (two_to 70).
Proof. repeat split; vm_compute; reflexivity. Qed.

Lemma is_float_eq x y : is_float x -> x == y -> is_float y.
Proof.
  unfold is_float. intros Hx Hxy. rewrite <- (round64_eq x y Hxy). lra.
Qed.

Lemma is_float_Qmin x y : is_float x -> is_float y -> is_float (Qmin x y).
Proof.
  intros Hx Hy. destruct (Q.min_spec x y) as [[_ Heq]|[_ Heq]].
  - apply (is_float_eq x); [done|]. symmetry. exact Heq.
  - apply (is_float_eq y); [done|]. symmetry. exact Heq.
Qed.

End Float64Proofs.

Module CheckpointProofs.
Import Checkpoint.

Lemma highest_snoc (l : list Z) (x : Z) :
  highest (l ++ [x]) =
  Some (match highest l with Some m => Z.max m x | None => x end).
Proof.
  destruct l as [|a l]; [done|].
  simpl. by rewrite foldl_app.
Qed.

Lemma lsns_for_snoc slot calls c :
  lsns_for slot (calls ++ [c]) =
  lsns_for slot calls ++ (if decide (c.1 = slot) then [c.2] else []).
Proof.
  unfold lsns_for. rewrite filter_app, fmap_app. f_equal.
  rewrite filter_cons, filter_nil. by case_decide.
Qed.

Lemma highest_option_list_nil (o : option Z) : highest (option_list o ++ []) = o.
Proof. by destruct o. Qed.

(** One [save] on the in-memory store, seen through [load]. *)
Lemma im_load_save slot slot' lsn s :
  im_load slot (im_save slot' lsn s) =
  if decide (slot' = slot)
  then Some (match im_load slot s with Some c => Z.max c lsn | None => lsn end)
  else im_load slot s.
Proof.
  unfold im_load, im_save.
  case_decide as Hs.
  - subst slot'. destruct (im_positions s !! slot) as [c|] eqn:E; simpl.
    + destruct (Z.ltb_spec c lsn); simpl.
      * rewrite lookup_insert_eq. f_equal. lia.
      * rewrite E. f_equal. lia.
    + by rewrite lookup_insert_eq.
  - destruct (is_none (im_positions s !! slot') || _); simpl; [|done].
    by rewrite lookup_insert_ne.
Qed.

Lemma ps_load_save slot slot' lsn io s :
  ps_load slot (ps_save slot' lsn io s).2 =
  if decide (slot' = slot)
  then Some (match ps_load slot s with Some c => Z.max c lsn | None => lsn end)
  else ps_load slot s.
Proof.
  unfold ps_load, ps_save, ps_write_locked.
  case_decide as Hs.
  - subst slot'. destruct (ps_positions s !! slot) as [c|] eqn:E; simpl.
    + destruct (Z.leb_spec lsn c); simpl.
      * rewrite E. f_equal. lia.
      * destruct io; simpl; rewrite lookup_insert_eq; f_equal; lia.
    + destruct io; simpl; by rewrite lookup_insert_eq.
  - destruct (negb (is_none (ps_positions s !! slot')) && _); simpl; [done|].
    destruct io; simpl; by rewrite lookup_insert_ne.
Qed.

Lemma im_save_all_load slot calls s :
  im_load slot (im_save_all calls s) =
  highest (option_list (im_load slot s) ++ lsns_for slot calls).
Proof.
  induction calls as [|c calls IH] using rev_ind.
  - simpl. by rewrite highest_option_list_nil.
  - unfold im_save_all in *. rewrite foldl_app. simpl.
    rewrite im_load_save, lsns_for_snoc, IH.
    case_decide.
    + by rewrite app_assoc, highest_snoc.
    + by rewrite app_nil_r.
Qed.

Lemma ps_save_all_load slot calls s :
  ps_load slot (ps_save_all calls s) =
  highest (option_list (ps_load slot s) ++ lsns_for slot calls.*1).
Proof.
  induction calls as [|c calls IH] using rev_ind.
  - simpl. by rewrite highest_option_list_nil.
  - unfold ps_save_all in *. rewrite foldl_app. simpl.
    rewrite ps_load_save, fmap_app, IH.
    change ([c].*1) with [c.1]. rewrite lsns_for_snoc. simpl.
    case_decide.
    + by rewrite app_assoc, highest_snoc.
    + by rewrite app_nil_r.
Qed.

(** C1. Checkpoint monotonicity, for both stores: after any sequence of
    [save] calls with no reset in between, [load slot] is the maximum of
    the positions saved on [slot], the position the store held for the
    slot beforehand counting as the earliest save; and a [save] whose
    position does not exceed the stored one changes nothing (the
    persistent store does not even touch its file). *)
Theorem checkpoint_save_monotone :
  (forall slot calls s,
      im_load slot (im_save_all calls s) =
      highest (option_list (im_load slot s) ++ lsns_for slot calls))
  /\ (forall slot calls s,
      ps_load slot (ps_save_all calls s) =
      highest (option_list (ps_load slot s) ++ lsns_for slot calls.*1))
  /\ (forall slot lsn c s,
      im_load slot s = Some c -> lsn <= c -> im_save slot lsn s = s)
  /\ (forall slot lsn c io s,
      ps_load slot s = Some c -> lsn <= c ->
      ps_save slot lsn io s = (Ok tt, s)).
Proof.
  split; [exact im_save_all_load|].
  split; [exact ps_save_all_load|].
  split.
  - intros slot lsn c s Hc Hle. unfold im_load in Hc. unfold im_save.
    rewrite Hc. simpl. destruct (Z.ltb_spec c lsn); [lia|done].
  - intros slot lsn c io s Hc Hle. unfold ps_load in Hc. unfold ps_save.
    rewrite Hc. simpl. destruct (Z.leb_spec lsn c); [done|lia].
Qed.

Lemma checkpoint_save_monotone_witness :
  im_load "slot" (im_save_all [("slot", 100); ("other", 7); ("slot", 110);
                               ("slot", 90)]%string im_new) = Some 110
  /\ im_save "slot" 90 (MkInMemory {["slot"%string := 110]})
     = MkInMemory {["slot"%string := 110]}
  /\ ps_save "slot" 110 failed_before_replace (MkPersistent {["slot"%string := 110]} None)
     = (Ok tt, MkPersistent {["slot"%string := 110]} None).
Proof.
  destruct checkpoint_save_monotone as (Him & _ & Hsame & Hps).
  split; [|split].
  - rewrite Him. reflexivity.
  - apply (Hsame "slot"%string 90 110); [reflexivity | lia].
  - apply (Hps "slot"%string 110 110); [reflexivity | lia].
Defined.

(** [test_manual_reset_can_override_to_lower_lsn]. *)
Example reset_then_save_again :
  let s0 := (ps_save "uns_meta_slot" 500 written (MkPersistent ∅ None)).2 in
  let s1 := (ps_reset "uns_meta_slot" (Some 500) (Some 120) false written s0).2 in
  let s2 := (ps_save "uns_meta_slot" 130 written s1).2 in
  ps_load "uns_meta_slot" s1 = Some 120
  /\ ps_load "uns_meta_slot" s2 = Some 130
  /\ ps_file s2 = Some {["uns_meta_slot"%string := 130]}.
Proof. repeat split; vm_compute; reflexivity. Qed.

(** *** Manual reset *)

Lemma reset_guard_mismatch msg current expected new :
  expected <> current ->
  (is_none current && is_none new) = false ->
  exists m, reset_guard msg current expected new = Some m.
Proof.
  intros Hne _. unfold reset_guard, not_in_none_or.
  destruct current as [c|], expected as [e|]; reset_cases.
Qed.

Lemma reset_guard_exceeds msg c expected n :
  c < n -> exists m, reset_guard msg (Some c) expected (Some n) = Some m.
Proof.
  intros Hlt. unfold reset_guard. destruct expected as [e|]; reset_cases.
Qed.

Lemma reset_guard_pass msg current new :
  match current, new with Some c, Some n => n <= c | _, _ => True end ->
  reset_guard msg current current new = None.
Proof.
  intros Hle. unfold reset_guard, not_in_none_or.
  destruct current as [c|], new as [n|]; reset_cases.
Qed.

(** C8. Manual reset without [force], for both stores: a reset whose
    expected position differs from the stored one raises [ValueError]; so
    does a reset to a new position strictly above the stored one; every
    [ValueError] leaves the store as it was; and a reset whose expected
    position is the stored one and whose new position does not exceed it
    goes through (the slot is set to the new position, or removed when
    none is supplied). *)
Theorem checkpoint_reset_preconditions :
  (forall slot expected new s,
      expected <> im_load slot s ->
      exists msg, im_reset slot expected new false s = (Raise (ValueError msg), s))
  /\ (forall slot expected c n s,
      im_load slot s = Some c -> c < n ->
      exists msg,
        im_reset slot expected (Some n) false s = (Raise (ValueError msg), s))
  /\ (forall slot expected new force s msg,
      (im_reset slot expected new force s).1 = Raise (ValueError msg) ->
      (im_reset slot expected new force s).2 = s)
  /\ (forall slot new s,
      match im_load slot s, new with Some c, Some n => n <= c | _, _ => True end ->
      im_reset slot (im_load slot s) new false s =
      (Ok tt, MkInMemory (match new with
                          | Some n => <[slot := n]> (im_positions s)
                          | None => delete slot (im_positions s)
                          end)))
  /\ (forall slot expected new io s,
      expected <> ps_load slot s ->
      exists msg,
        ps_reset slot expected new false io s = (Raise (ValueError msg), s))
  /\ (forall slot expected c n io s,
      ps_load slot s = Some c -> c < n ->
      exists msg,
        ps_reset slot expected (Some n) false io s = (Raise (ValueError msg), s))
  /\ (forall slot expected new force io s msg,
      (ps_reset slot expected new force io s).1 = Raise (ValueError msg) ->
      (ps_reset slot expected new force io s).2 = s)
  /\ (forall slot new s,
      match ps_load slot s, new with Some c, Some n => n <= c | _, _ => True end ->
      (ps_reset slot (ps_load slot s) new false written s).1 = Ok tt
      /\ ps_positions (ps_reset slot (ps_load slot s) new false written s).2 =
         match new with
         | Some n => <[slot := n]> (ps_positions s)
         | None => delete slot (ps_positions s)
         end).
Proof.
  repeat split.
  - intros slot expected new s Hne. unfold im_load in Hne. unfold im_reset.
    destruct (is_none (im_positions s !! slot) && is_none new) eqn:Hnn.
    + apply andb_true_iff in Hnn as [Hc _].
      destruct (im_positions s !! slot); [done|].
      unfold not_in_none_or. destruct expected; reset_cases.
    + destruct (reset_guard_mismatch im_missing_msg _ _ new Hne Hnn) as [m ->].
      eauto.
  - intros slot expected c n s Hc Hlt. unfold im_load in Hc. unfold im_reset.
    rewrite Hc. cbn [is_none andb].
    destruct (reset_guard_exceeds im_missing_msg c expected n Hlt) as [m ->].
    eauto.
  - intros slot expected new force s msg. unfold im_reset.
    repeat (case_match; simpl; try done).
  - intros slot new s Hle. unfold im_load in *. unfold im_reset.
    destruct (is_none (im_positions s !! slot) && is_none new) eqn:Hnn.
    + apply andb_true_iff in Hnn as [Hc Hn].
      destruct (im_positions s !! slot) eqn:E; [done|].
      destruct new; [done|]. simpl.
      unfold not_in_none_or. simpl. rewrite delete_id by done.
      by destruct s.
    + simpl. rewrite reset_guard_pass by done. by destruct new.
  - intros slot expected new io s Hne. unfold ps_load in Hne. unfold ps_reset.
    destruct (is_none (ps_positions s !! slot) && is_none new) eqn:Hnn.
    + apply andb_true_iff in Hnn as [Hc _].
      destruct (ps_positions s !! slot); [done|].
      unfold not_in_none_or. destruct expected; reset_cases.
    + destruct (reset_guard_mismatch ps_missing_msg _ _ new Hne Hnn) as [m ->].
      eauto.
  - intros slot expected c n io s Hc Hlt. unfold ps_load in Hc. unfold ps_reset.
    rewrite Hc. cbn [is_none andb].
    destruct (reset_guard_exceeds ps_missing_msg c expected n Hlt) as [m ->].
    eauto.
  - intros slot expected new force io s msg. unfold ps_reset, ps_write_locked.
    repeat (case_match; simpl; try done).
  - unfold ps_load in *. unfold ps_reset, ps_write_locked.
    destruct (is_none (ps_positions s !! slot) && is_none new) eqn:Hnn.
    + by destruct (ps_positions s !! slot), new.
    + simpl. rewrite reset_guard_pass by done.
      destruct new; [done|]. by destruct (ps_positions s !! slot).
  - unfold ps_load in *. unfold ps_reset, ps_write_locked.
    destruct (is_none (ps_positions s !! slot) && is_none new) eqn:Hnn.
    + apply andb_true_iff in Hnn as [Hc Hn].
      destruct (ps_positions s !! slot) eqn:E; [done|].
      destruct new; [done|]. simpl. by rewrite delete_id.
    + simpl. rewrite reset_guard_pass by done.
      destruct new; [done|]. by destruct (ps_positions s !! slot).
Qed.

Lemma checkpoint_reset_preconditions_witness :
  (exists msg,
      ps_reset "uns_meta_slot" (Some 150) None false written
        (MkPersistent {["uns_meta_slot"%string := 200]} None)
      = (Raise (ValueError msg),
         MkPersistent {["uns_meta_slot"%string := 200]} None))
  /\ (exists msg,
      im_reset "uns_meta_slot" (Some 200) (Some 300) false
        (MkInMemory {["uns_meta_slot"%string := 200]})
      = (Raise (ValueError msg), MkInMemory {["uns_meta_slot"%string := 200]}))
  /\ im_reset "uns_meta_slot" (Some 500) (Some 120) false
        (MkInMemory {["uns_meta_slot"%string := 500]})
     = (Ok tt, MkInMemory (<["uns_meta_slot"%string := 120]>
                             {["uns_meta_slot"%string := 500]})).
Proof.
  destruct checkpoint_reset_preconditions
    as (_ & Hexc & _ & Hok & Hps & _).
  split; [|split].
  - apply Hps. vm_compute. congruence.
  - apply (Hexc "uns_meta_slot"%string (Some 200) 200 300); [reflexivity | lia].
  - generalize (Hok "uns_meta_slot"%string (Some 120)
                    (MkInMemory {["uns_meta_slot"%string := 500]})).
    vm_compute. intros H. apply H. discriminate.
Defined.


(** *** Restarting from the file *)

Lemma omap_int_of_json (positions : gmap string Z) :
  omap int_of_json (json_int <$> positions) = positions.
Proof.
  apply map_eq. intros slot. rewrite lookup_omap, lookup_fmap.
  by destruct (positions !! slot).
Qed.

Lemma ps_reopen_written s :
  ps_reopen s = Ok (MkPersistent (default ∅ (ps_file s)) (ps_file s)).
Proof.
  unfold ps_reopen. destruct (ps_file s) as [positions|]; [|done]. simpl.
  by rewrite omap_int_of_json.
Qed.

Lemma file_behind_alt s :
  file_behind s <->
  forall slot p,
    default ∅ (ps_file s) !! slot = Some p ->
    exists q, ps_load slot s = Some q /\ p <= q.
Proof.
  unfold file_behind. rewrite ps_reopen_written. split.
  - intros (r & [= <-] & H). exact H.
  - intros H. eexists. split; [done|]. exact H.
Qed.

(** What a [save] that writes leaves: the new position in memory, and
    on disk either the file as it was or the positions in memory. *)
Lemma ps_save_cases slot lsn outcome s :
  let r := ps_save slot lsn outcome s in
  r = (Ok tt, s) /\ (exists c, ps_positions s !! slot = Some c /\ lsn <= c)
  \/ (forall c, ps_positions s !! slot = Some c -> c < lsn)
     /\ ps_positions r.2 = <[slot := lsn]> (ps_positions s)
     /\ (ps_file r.2 = ps_file s \/ ps_file r.2 = Some (ps_positions r.2)).
Proof.
  unfold ps_save. destruct (ps_positions s !! slot) as [c|] eqn:Hc; simpl.
  - destruct (Z.leb_spec lsn c); simpl.
    + left. split; [done|]. exists c. by split.
    + right. split; [intros ? [= <-]; lia|].
      destruct outcome; simpl; auto.
  - right. split; [done|]. destruct outcome; simpl; auto.
Qed.

Lemma ps_save_file_behind slot lsn outcome s :
  file_behind s -> file_behind (ps_save slot lsn outcome s).2.
Proof.
  rewrite !file_behind_alt. intros Hbehind.
  destruct (ps_save_cases slot lsn outcome s)
    as [[-> _]|(Hnew & Hpos & [Hfile|Hfile])]; [done|..];
    unfold ps_load in *; rewrite Hfile, Hpos; simpl.
  - intros slot' p Hp. destruct (Hbehind slot' p Hp) as (q & Hq & Hle).
    destruct (decide (slot' = slot)) as [->|Hne].
    + rewrite lookup_insert_eq. exists lsn. split; [done|].
      specialize (Hnew q Hq). lia.
    + rewrite lookup_insert_ne by done. by exists q.
  - intros slot' p Hp. exists p. split; [done | lia].
Qed.

Lemma ps_save_never_back slot lsn outcome s slot' q :
  ps_load slot' s = Some q ->
  exists q', ps_load slot' (ps_save slot lsn outcome s).2 = Some q' /\ q <= q'.
Proof.
  intros Hq.
  destruct (ps_save_cases slot lsn outcome s) as [[-> _]|(Hnew & Hpos & _)].
  - exists q. split; [done | lia].
  - unfold ps_load in *. rewrite Hpos.
    destruct (decide (slot' = slot)) as [->|Hne].
    + rewrite lookup_insert_eq. exists lsn. split; [done|].
      specialize (Hnew q Hq). lia.
    + rewrite lookup_insert_ne by done. exists q. split; [done | lia].
Qed.

(** X1. Whatever positions are saved and whichever of the file writes
    fail, before or after the file is replaced, the file never holds a
    position beyond the one in memory, and the position in memory never
    goes back: a store opened again on the file resumes at or before
    the point the running one had reached, never past it. *)
Theorem restart_never_resumes_ahead calls s :
  file_behind s ->
  file_behind (ps_save_all calls s)
  /\ forall slot q,
       ps_load slot s = Some q ->
       exists q', ps_load slot (ps_save_all calls s) = Some q' /\ q <= q'.
Proof.
  intros Hbehind.
  induction calls as [|[[slot lsn] outcome] calls IH] using rev_ind.
  - split; [done|]. intros slot q Hq. exists q. split; [done | lia].
  - unfold ps_save_all in *. rewrite foldl_app. simpl.
    destruct IH as [IHb IHm]. split; [by apply ps_save_file_behind|].
    intros slot' q Hq. destruct (IHm slot' q Hq) as (q1 & Hq1 & Hle).
    destruct (ps_save_never_back slot lsn outcome _ slot' q1 Hq1)
      as (q' & Hq' & Hle').
    exists q'. split; [done | lia].
Qed.

(** X2. A [save] whose file write fails raises [OSError] but keeps the
    new position in memory.  The file is as it was when the failure
    came before the replacement, and holds the new position when it
    came after.  Saving the same position again returns without
    writing, so a file left behind stays behind until a higher
    position is saved, which writes it. *)
Theorem failed_write_is_not_retried slot lsn outcome s :
  outcome <> written ->
  (forall c, ps_load slot s = Some c -> c < lsn) ->
  let failed := ps_save slot lsn outcome s in
  failed.1 = Raise OSError
  /\ ps_load slot failed.2 = Some lsn
  /\ ps_file failed.2 =
     match outcome with
     | failed_after_replace => Some (ps_positions failed.2)
     | _ => ps_file s
     end
  /\ (forall again, ps_save slot lsn again failed.2 = (Ok tt, failed.2))
  /\ forall higher,
       lsn < higher ->
       let saved := ps_save slot higher written failed.2 in
       saved.1 = Ok tt
       /\ ps_load slot <$> ps_reopen saved.2 = Ok (Some higher).
Proof.
  intros Hfails Hnew failed.
  assert (failed = ps_write_locked outcome
                     (MkPersistent (<[slot := lsn]> (ps_positions s))
                                   (ps_file s))) as Hfailed.
  { subst failed. unfold ps_save, ps_load in *.
    destruct (ps_positions s !! slot) as [c|] eqn:Hc; [|done]. simpl.
    specialize (Hnew c eq_refl). by destruct (Z.leb_spec lsn c); [lia|]. }
  assert (ps_positions failed.2 = <[slot := lsn]> (ps_positions s)) as Hpos
    by (rewrite Hfailed; by destruct outcome).
  assert (ps_positions failed.2 !! slot = Some lsn) as Hslot
    by (by rewrite Hpos, lookup_insert_eq).
  split; [rewrite Hfailed; by destruct outcome|].
  split; [done|].
  split; [rewrite Hfailed; by destruct outcome|].
  split.
  - intros again. unfold ps_save. rewrite Hslot. simpl.
    by rewrite Z.leb_refl.
  - intros higher Hhigher saved. subst saved. unfold ps_save.
    rewrite Hslot. cbn [is_none negb andb].
    destruct (Z.leb_spec higher lsn); [lia|].
    split; [done|]. rewrite ps_reopen_written. simpl.
    unfold ps_load. simpl. by rewrite lookup_insert_eq.
Qed.

Lemma restart_never_resumes_ahead_witness :
  ps_load "slot" (ps_save_all flaky_saves ps_new) = Some 9
  /\ ps_load "slot" <$> ps_reopen (ps_save_all flaky_saves ps_new)
     = Ok (Some 7)
  /\ file_behind (ps_save_all flaky_saves ps_new).
Proof.
  split; [reflexivity|]. split; [reflexivity|].
  apply (restart_never_resumes_ahead flaky_saves ps_new).
  exists ps_new. split; [reflexivity|].
  intros slot p Hp. vm_compute in Hp. discriminate.
Defined.

Lemma failed_write_is_not_retried_witness :
  (ps_save "slot" 5 failed_after_replace ps_new).1 = Raise OSError
  /\ ps_file (ps_save "slot" 5 failed_after_replace ps_new).2
     = Some {["slot"%string := 5]}
  /\ ps_save "slot" 5 written (ps_save "slot" 5 failed_before_replace ps_new).2
     = (Ok tt, MkPersistent {["slot"%string := 5]} None).
Proof.
  assert (forall c, ps_load "slot" ps_new = Some c -> c < 5) as Hnew
    by (intros c Hc; vm_compute in Hc; discriminate).
  split; [|split].
  - by apply (failed_write_is_not_retried "slot" 5 failed_after_replace ps_new).
  - by apply (failed_write_is_not_retried "slot" 5 failed_after_replace ps_new).
  - by apply (failed_write_is_not_retried "slot" 5 failed_before_replace ps_new).
Defined.
End CheckpointProofs.

Module PyDictFacts.
Section Dict.
Context {K V : Type} `{EqDecision K}.
Implicit Types (d : list (K * V)) (k : K) (v : V).

Lemma get_set_eq d k v : PyDict.get k (PyDict.set k v d) = Some v.
Proof.
  induction d as [|[k' v'] d IH]; simpl.
  - by rewrite decide_True.
  - destruct (decide (k' = k)) as [->|Hne]; simpl.
    + by rewrite decide_True.
    + by rewrite decide_False.
Qed.

Lemma get_set_ne d k k' v :
  k <> k' -> PyDict.get k' (PyDict.set k v d) = PyDict.get k' d.
Proof.
  intros Hne. induction d as [|[k0 v0] d IH]; simpl.
  - by rewrite decide_False.
  - destruct (decide (k0 = k)) as [->|Hk]; simpl.
    + by rewrite !decide_False.
    + destruct (decide (k0 = k')); [done | apply IH].
Qed.

Lemma get_Some_elem d k v : PyDict.get k d = Some v -> (k, v) ∈ d.
Proof.
  induction d as [|[k0 v0] d IH]; simpl; [done|].
  destruct (decide (k0 = k)) as [->|Hk]; intros Hg.
  - injection Hg as ->. apply list_elem_of_here.
  - apply list_elem_of_further. auto.
Qed.

Lemma get_None_keys d k : PyDict.get k d = None <-> k ∉ PyDict.keys d.
Proof.
  unfold PyDict.keys. induction d as [|[k0 v0] d IH]; simpl.
  - split; [intros _; apply not_elem_of_nil | done].
  - rewrite not_elem_of_cons. destruct (decide (k0 = k)) as [->|Hk].
    + split; [done | intros [? _]; done].
    + rewrite IH. split; [intros ?; split; [congruence | done] | by intros [_ ?]].
Qed.

Lemma set_length_present d k v :
  is_Some (PyDict.get k d) -> length (PyDict.set k v d) = length d.
Proof.
  induction d as [|[k0 v0] d IH]; simpl.
  - by intros [? ?].
  - destruct (decide (k0 = k)); simpl; [done|]. intros. f_equal. auto.
Qed.

Lemma set_absent d k v :
  PyDict.get k d = None -> PyDict.set k v d = d ++ [(k, v)].
Proof.
  induction d as [|[k0 v0] d IH]; simpl; [done|].
  destruct (decide (k0 = k)); [done|]. intros. f_equal. auto.
Qed.

Lemma Forall_set (P : K * V -> Prop) d k v :
  Forall P d -> (forall k0, P (k0, v) \/ k0 <> k) -> P (k, v) ->
  Forall P (PyDict.set k v d).
Proof.
  intros Hd Hk Hnew. induction Hd as [|[k0 v0] d Hx Hd IH]; simpl.
  - by constructor.
  - destruct (decide (k0 = k)) as [->|Hne].
    + constructor; [|done]. destruct (Hk k); done.
    + constructor; done.
Qed.

Lemma keys_set d k v :
  PyDict.keys (PyDict.set k v d) =
  if PyDict.get k d is Some _ then PyDict.keys d else PyDict.keys d ++ [k].
Proof.
  unfold PyDict.keys. induction d as [|[k0 v0] d IH]; csimpl; [done|].
  destruct (decide (k0 = k)); csimpl; [done|].
  rewrite IH. by destruct (PyDict.get k d).
Qed.

Lemma NoDup_keys_set d k v :
  NoDup (PyDict.keys d) -> NoDup (PyDict.keys (PyDict.set k v d)).
Proof.
  intros Hnd. rewrite keys_set.
  destruct (PyDict.get k d) eqn:Hget; [done|].
  apply NoDup_app. split; [done|]. split; [|apply NoDup_singleton].
  intros x Hx ->%list_elem_of_singleton. by apply get_None_keys in Hget.
Qed.

Lemma elem_get d k v :
  NoDup (PyDict.keys d) -> (k, v) ∈ d -> PyDict.get k d = Some v.
Proof.
  unfold PyDict.keys. induction d as [|[k0 v0] d IH]; simpl.
  - intros _ Hin. by apply elem_of_nil in Hin.
  - intros [Hnotin Hnd]%NoDup_cons [Heq|Hin]%elem_of_cons.
    + injection Heq as -> ->. by rewrite decide_True.
    + rewrite decide_False; [by apply IH|].
      intros ->. apply Hnotin. apply list_elem_of_fmap. by exists (k, v).
Qed.

Lemma keys_unique d k v1 v2 :
  NoDup (PyDict.keys d) -> (k, v1) ∈ d -> (k, v2) ∈ d -> v1 = v2.
Proof.
  unfold PyDict.keys. induction d as [|[k0 v0] d IH]; simpl.
  - intros _ Hin. by apply elem_of_nil in Hin.
  - intros [Hnotin Hnd]%NoDup_cons [H1|H1]%elem_of_cons [H2|H2]%elem_of_cons.
    + congruence.
    + injection H1 as -> ->. exfalso. apply Hnotin.
      apply list_elem_of_fmap. by exists (k0, v2).
    + injection H2 as -> ->. exfalso. apply Hnotin.
      apply list_elem_of_fmap. by exists (k0, v1).
    + by apply IH.
Qed.

Lemma get_pop_ne d k k' :
  k' <> k -> PyDict.get k' (PyDict.pop k d) = PyDict.get k' d.
Proof.
  intros Hne. induction d as [|[k0 v0] d IH]; simpl; [done|].
  destruct (decide (k0 = k)) as [->|Hk]; simpl.
  - by rewrite decide_False.
  - by rewrite IH.
Qed.

Lemma get_pop_eq d k :
  NoDup (PyDict.keys d) -> PyDict.get k (PyDict.pop k d) = None.
Proof.
  unfold PyDict.keys. induction d as [|[k0 v0] d IH]; csimpl; [done|].
  intros [Hnotin Hnd]%NoDup_cons.
  destruct (decide (k0 = k)) as [->|Hk]; simpl.
  - by apply get_None_keys.
  - rewrite decide_False by done. by apply IH.
Qed.
End Dict.
End PyDictFacts.

Module DiffingProofs.
Import Diffing.
Section WithValue.
Context {Value : Type}.
Implicit Types (event : DiffEvent Value) (ad : AggregatedDiff Value)
  (acc : DiffAccumulator Value) (value : Value)
  (merged : gmap string (Z * Value)).

Lemma merge_change_lookup ver key value merged k :
  merge_change ver key value merged !! k =
  if decide (key = k) then merged_after ver (Some value) (merged !! k)
  else merged !! k.
Proof.
  unfold merge_change. case_decide as Hk.
  - subst key. destruct (merged !! k) as [c|] eqn:E; simpl.
    + destruct (ver >=? c.1); simpl; [by rewrite lookup_insert_eq | done].
    + by rewrite lookup_insert_eq.
  - destruct (is_none (merged !! key) || _); [|done].
    by rewrite lookup_insert_ne.
Qed.

Lemma append_merged_lookup event ad k :
  merged_changes (append event ad) !! k =
  merged_after (version event) (changes event !! k) (merged_changes ad !! k).
Proof.
  simpl.
  apply (map_fold_weak_ind
           (fun r m => r !! k =
              merged_after (version event) (m !! k) (merged_changes ad !! k))).
  - by rewrite lookup_empty.
  - intros i x m r Hi IH. rewrite merge_change_lookup.
    case_decide as Hk.
    + subst i. rewrite lookup_insert_eq, IH, Hi. done.
    + by rewrite lookup_insert_ne.
Qed.

Lemma insert_by_version_length event l :
  length (insert_by_version event l) = S (length l).
Proof.
  induction l as [|x l IH]; simpl; [done|].
  destruct (version event <? version x); simpl; [done | by rewrite IH].
Qed.

Lemma sorted_by_version_length (l : list (DiffEvent Value)) :
  length (sorted_by_version l) = length l.
Proof.
  unfold sorted_by_version.
  induction l as [|x l IH] using rev_ind; [done|].
  rewrite foldl_app. simpl.
  rewrite insert_by_version_length, IH, length_app. simpl. lia.
Qed.

(** [to_snapshot] succeeds on an entry that holds an event, and shows
    the merged values. *)
Lemma to_snapshot_ok ad :
  events ad <> [] ->
  exists s, to_snapshot ad = Ok s
            /\ snap_uns_path s = ad_uns_path ad
            /\ snap_changes s = snd <$> merged_changes ad.
Proof.
  intros Hne. unfold to_snapshot.
  destruct (last (sorted_by_version (events ad))) as [latest|] eqn:E.
  - eexists. split; [done|]. by split.
  - apply last_None in E. apply (f_equal length) in E.
    rewrite sorted_by_version_length in E.
    destruct (events ad); done.
Qed.

Lemma snapshot_value_get acc path key :
  accumulator_wf acc ->
  snapshot_value path key acc =
  match PyDict.get path (entries acc) with
  | Some ad => snd <$> merged_changes ad !! key
  | None => None
  end.
Proof.
  unfold accumulator_wf, snapshot_value, snapshot, PyDict.values.
  generalize (entries acc) as es. intros es Hwf.
  assert (exists snaps,
             snapshot_entries es.*2 = Ok snaps /\
             match List.find (fun s => bool_decide (snap_uns_path s = path)) snaps with
             | Some s => snap_changes s !! key
             | None => None
             end =
             match PyDict.get path es with
             | Some ad => snd <$> merged_changes ad !! key
             | None => None
             end) as (snaps & Hs & Hfind); [|by rewrite Hs].
  induction Hwf as [|[p ad] es [Hp Hev] Hwf (snaps & Hsnaps & IH)].
  - by exists [].
  - rewrite fmap_cons. cbn [snapshot_entries snd].
    destruct (to_snapshot_ok ad Hev) as (s & Hs & Hpath & Hch).
    rewrite Hs, Hsnaps. eexists. split; [done|]. simpl in *.
    rewrite Hpath, Hp.
    destruct (decide (p = path)) as [->|Hne].
    + rewrite bool_decide_eq_true_2 by done.
      by rewrite Hch, lookup_fmap.
    + by rewrite bool_decide_eq_false_2.
Qed.

Lemma apply_fresh event acc :
  event_id event ∉ seen_event_ids acc ->
  apply event acc =
  (true,
   MkDiffAccumulator
     (PyDict.set (uns_path event)
        (append event
           (default (MkAggregatedDiff (uns_path event) [] ∅)
                    (PyDict.get (uns_path event) (entries acc))))
        (entries acc))
     ({[event_id event]} ∪ seen_event_ids acc)).
Proof.
  intros Hnew. unfold apply. rewrite bool_decide_eq_false_2 by done.
  by destruct (PyDict.get (uns_path event) (entries acc)).
Qed.

Lemma apply_wf event acc :
  accumulator_wf acc -> accumulator_wf (apply event acc).2.
Proof.
  intros Hwf. unfold apply. case_bool_decide; [done|].
  unfold accumulator_wf in *. simpl.
  assert (ad_uns_path
            match PyDict.get (uns_path event) (entries acc) with
            | Some entry => entry
            | None => MkAggregatedDiff (uns_path event) [] ∅
            end = uns_path event) as Hpath.
  { destruct (PyDict.get _ _) as [ad|] eqn:E; [|done].
    apply PyDictFacts.get_Some_elem in E.
    rewrite Forall_forall in Hwf. by destruct (Hwf _ E). }
  apply PyDictFacts.Forall_set; [done| |].
  - intros k0. destruct (decide (k0 = uns_path event)) as [->|]; [left|by right].
    simpl. split; [done|]. by destruct (events _).
  - simpl. split; [done|]. by destruct (events _).
Qed.

(** The accumulator after one fresh event, read at [path], [key]. *)
Lemma apply_snapshot_value event acc key :
  accumulator_wf acc ->
  event_id event ∉ seen_event_ids acc ->
  snapshot_value (uns_path event) key (apply event acc).2 =
  snd <$> merged_after (version event) (changes event !! key)
            (PyDict.get (uns_path event) (entries acc)
               ≫= fun ad => merged_changes ad !! key).
Proof.
  intros Hwf Hnew.
  rewrite snapshot_value_get by by apply apply_wf.
  rewrite apply_fresh by done. simpl.
  rewrite PyDictFacts.get_set_eq, append_merged_lookup.
  by destruct (PyDict.get (uns_path event) (entries acc)).
Qed.

(** C2 (amended). Two events with distinct ids on the same path that
    both carry [key], applied in this order to an accumulator that has
    seen neither and holds no merged value for [key] under that path:
    the snapshot then shows the value of the event with the higher
    version, and on equal versions the value of the event applied
    last. *)
Theorem diff_merge_last_highest_version_wins acc e1 e2 key (v1 v2 : Value) :
  accumulator_wf acc ->
  event_id e1 ∉ seen_event_ids acc ->
  event_id e2 ∉ seen_event_ids acc ->
  event_id e1 <> event_id e2 ->
  uns_path e2 = uns_path e1 ->
  changes e1 !! key = Some v1 ->
  changes e2 !! key = Some v2 ->
  (PyDict.get (uns_path e1) (entries acc)
     ≫= fun ad => merged_changes ad !! key) = None ->
  snapshot_value (uns_path e1) key (apply e2 (apply e1 acc).2).2 =
  Some (if version e2 >=? version e1 then v2 else v1).
Proof.
  intros Hwf Hnew1 Hnew2 Hids Hpath Hv1 Hv2 Hnone.
  rewrite <- Hpath at 1.
  rewrite apply_snapshot_value.
  - rewrite Hpath, Hv2. rewrite apply_fresh by done. cbn [snd entries].
    rewrite PyDictFacts.get_set_eq. cbn [mbind option_bind].
    rewrite append_merged_lookup, Hv1.
    destruct (PyDict.get (uns_path e1) (entries acc)) as [ad|]; simpl in *.
    + rewrite Hnone. simpl. by destruct (version e2 >=? version e1).
    + rewrite lookup_empty. simpl. by destruct (version e2 >=? version e1).
  - by apply apply_wf.
  - rewrite apply_fresh by done. simpl.
    intros [Heq%elem_of_singleton|Hseen]%elem_of_union; [congruence|done].
Qed.
End WithValue.

Lemma diff_merge_last_highest_version_wins_witness :
  snapshot_value "Kiln/T3" "displayHigh"
    (apply evt_low (apply evt_high accumulator_new).2).2 = Some 2000.
Proof.
  apply (diff_merge_last_highest_version_wins accumulator_new evt_high evt_low
           "displayHigh" 2000 1950).
  - constructor.
  - apply not_elem_of_empty.
  - apply not_elem_of_empty.
  - discriminate.
  - reflexivity.
  - reflexivity.
  - reflexivity.
  - reflexivity.
Defined.

(** [test_version_ordering_preserved_for_out_of_order_events]. *)
Example out_of_order_snapshot :
  match snapshot (apply evt_low (apply evt_high accumulator_new).2).2 with
  | Ok [s] =>
      snap_versions s = [6; 7]
      /\ latest_version s = 7
      /\ previous_version s = Some 6
      /\ snap_changes s !! "displayHigh"%string = Some 2000
      /\ snap_changes s !! "comment"%string = Some 0
  | _ => False
  end.
Proof. vm_compute. repeat split. Qed.

(** [test_duplicate_events_are_idempotent]. *)
Example duplicate_event_is_dropped :
  let once := (apply evt_high accumulator_new).2 in
  apply evt_high once = (false, once).
Proof. vm_compute. reflexivity. Qed.

(** C2 as stated fails on a tie: both events have version 3, the first
    applied carries 10, and the snapshot shows the 20 of the second. *)
Lemma diff_merge_tie_keeps_last :
  version tie_first = version tie_second
  /\ changes tie_first !! "displayHigh"%string = Some 10
  /\ snapshot_value "Kiln/T1" "displayHigh"
       (apply tie_second (apply tie_first accumulator_new).2).2 = Some 20.
Proof. split; [|split]; vm_compute; reflexivity. Qed.

(** *** Duplicates, ordering of versions, [pop] and [drain] *)

Section Accumulator.
Context {Value : Type}.
Implicit Types (event : DiffEvent Value) (ad : AggregatedDiff Value)
  (acc : DiffAccumulator Value).

Lemma apply_seen event acc :
  seen_event_ids (apply event acc).2 = {[event_id event]} ∪ seen_event_ids acc.
Proof.
  unfold apply. case_bool_decide as Hin; simpl; [|done].
  apply set_eq. intros x. rewrite elem_of_union, elem_of_singleton.
  split; [by right | intros [->|?]; done].
Qed.

(** An event applied a second time is refused: [apply] returns
    [False] and the accumulator stays as the first call left it,
    whatever it held before. *)
Lemma apply_twice_is_dropped event acc :
  apply event (apply event acc).2 = (false, (apply event acc).2).
Proof.
  unfold apply at 1.
  rewrite bool_decide_eq_true_2; [done|].
  rewrite apply_seen. apply elem_of_union_l, elem_of_singleton. done.
Qed.

Lemma extend_snoc evs event acc :
  extend (evs ++ [event]) acc =
  let st := extend evs acc in
  let r := apply event st.2 in
  (if r.1 then st.1 + 1 else st.1, r.2).
Proof. unfold extend. by rewrite foldl_app. Qed.

(** X3. [extend] returns the number of event ids it has newly recorded:
    the seen ids afterwards are those before together with the ids of
    the events, and the count is the growth of that set, so events
    repeated in the batch or seen earlier are not counted. *)
Theorem extend_counts_new_ids evs acc :
  let r := extend evs acc in
  seen_event_ids r.2 = list_to_set (event_id <$> evs) ∪ seen_event_ids acc
  /\ r.1 = Z.of_nat (size (seen_event_ids r.2))
           - Z.of_nat (size (seen_event_ids acc))
  /\ 0 <= r.1 <= Z.of_nat (length evs).
Proof.
  induction evs as [|event evs IH] using rev_ind.
  - simpl. split; [|lia]. apply set_eq. intros x. set_solver.
  - rewrite extend_snoc. destruct IH as (Hseen & Hcount & Hle).
    cbv zeta. cbn [fst snd]. rewrite apply_seen.
    split; [|].
    + rewrite Hseen, fmap_app, list_to_set_app_L. simpl. set_solver.
    + rewrite length_app. simpl.
      unfold apply. case_bool_decide as Hin; cbn [fst snd].
      * replace ({[event_id event]} ∪ seen_event_ids (extend evs acc).2)
          with (seen_event_ids (extend evs acc).2) by set_solver.
        lia.
      * rewrite size_union by set_solver. rewrite size_singleton. lia.
Qed.

Lemma extend_wf evs acc :
  accumulator_wf acc -> accumulator_wf (extend evs acc).2.
Proof.
  intros Hwf. induction evs as [|event evs IH] using rev_ind; [done|].
  rewrite extend_snoc. by apply apply_wf.
Qed.

Lemma insert_by_version_perm event (l : list (DiffEvent Value)) :
  insert_by_version event l ≡ₚ event :: l.
Proof.
  induction l as [|x l IH]; simpl; [done|].
  destruct (version event <? version x); [done|].
  rewrite IH. apply Permutation_swap.
Qed.

Lemma sorted_by_version_perm (l : list (DiffEvent Value)) :
  sorted_by_version l ≡ₚ l.
Proof.
  unfold sorted_by_version.
  induction l as [|x l IH] using rev_ind; [done|].
  rewrite foldl_app. simpl. rewrite insert_by_version_perm, IH.
  by rewrite Permutation_app_comm.
Qed.

Lemma insert_by_version_sorted event (l : list (DiffEvent Value)) :
  StronglySorted Z.le (version <$> l) ->
  StronglySorted Z.le (version <$> insert_by_version event l).
Proof.
  induction l as [|x l IH]; csimpl; intros Hs.
  - repeat constructor.
  - apply StronglySorted_inv in Hs as [Hl Hx].
    destruct (Z.ltb_spec (version event) (version x)) as [Hlt|Hge]; csimpl.
    + constructor; [by constructor|].
      constructor; [lia|]. eapply Forall_impl; [exact Hx|]. simpl. lia.
    + constructor; [by apply IH|].
      rewrite insert_by_version_perm. csimpl. by constructor.
Qed.

Lemma sorted_by_version_sorted (l : list (DiffEvent Value)) :
  StronglySorted Z.le (version <$> sorted_by_version l).
Proof.
  unfold sorted_by_version.
  induction l as [|x l IH] using rev_ind; [constructor|].
  rewrite foldl_app. simpl. by apply insert_by_version_sorted.
Qed.

(** X4. The [versions] of a snapshot are the versions of the entry's
    events in ascending order, in whatever order the events were
    appended, and [latest_version] is the greatest of them. *)
Theorem snapshot_versions_ascending ad s :
  to_snapshot ad = Ok s ->
  StronglySorted Z.le (snap_versions s)
  /\ snap_versions s ≡ₚ version <$> events ad
  /\ latest_version s ∈ version <$> events ad
  /\ Forall (fun v => v <= latest_version s) (version <$> events ad).
Proof.
  unfold to_snapshot.
  destruct (last (sorted_by_version (events ad))) as [latest|] eqn:Hlast;
    [|done].
  intros [= <-]. cbn [snap_versions latest_version].
  pose proof (sorted_by_version_sorted (events ad)) as Hsorted.
  pose proof (sorted_by_version_perm (events ad)) as Hperm.
  split; [done|]. split; [by rewrite Hperm|].
  apply last_Some in Hlast as [front Hfront].
  split.
  - rewrite <- Hperm, Hfront, fmap_app. apply elem_of_app. right.
    apply list_elem_of_here.
  - rewrite <- Hperm. rewrite Hfront in Hsorted |- *.
    rewrite fmap_app in Hsorted |- *. csimpl in *.
    apply Forall_app. split; [|by repeat constructor].
    clear -Hsorted. induction front as [|x front IH]; csimpl in *; [done|].
    apply StronglySorted_inv in Hsorted as [Hs Hx].
    constructor; [|by apply IH].
    rewrite Forall_app in Hx. destruct Hx as [_ Hx].
    by inversion Hx.
Qed.

(** X5. [pop] forgets the entry of its path and nothing else: the other
    paths keep their entries and the seen event ids stay, so an event
    that was applied before the pop is still refused after it.  A path
    that is not held gives [None] and changes nothing. *)
Theorem pop_removes_only_its_path acc path path' :
  NoDup (PyDict.keys (entries acc)) ->
  let r := pop path acc in
  seen_event_ids r.2 = seen_event_ids acc
  /\ PyDict.get path' (entries r.2) =
     (if decide (path' = path) then None
      else PyDict.get path' (entries acc))
  /\ (PyDict.get path (entries acc) = None -> r = (Ok None, acc)).
Proof.
  intros Hnd. unfold pop.
  destruct (PyDict.get path (entries acc)) as [ad|] eqn:Hget; cbn [fst snd].
  - split; [done|]. split; [|done]. cbn [entries].
    case_decide as Hp;
      [subst; by apply PyDictFacts.get_pop_eq
      | by apply PyDictFacts.get_pop_ne].
  - split; [done|]. split; [|done]. case_decide; by subst.
Qed.

Lemma drain_loop_all (es : list (string * AggregatedDiff Value)) seen snaps0 :
  Forall (fun e => ad_uns_path e.2 = e.1 /\ events e.2 <> []) es ->
  exists snaps,
    snapshot_entries es.*2 = Ok snaps
    /\ length snaps = length es
    /\ drain_loop es.*1 snaps0 (MkDiffAccumulator es seen) =
       (Ok (snaps0 ++ snaps), MkDiffAccumulator [] seen).
Proof.
  intros Hwf. revert snaps0.
  induction Hwf as [|[p ad] es [Hp Hev] Hwf IH]; intros snaps0.
  - exists []. by rewrite app_nil_r.
  - destruct (to_snapshot_ok ad Hev) as (s & Hs & _).
    destruct (IH (snaps0 ++ [s])) as (snaps & Hsnaps & Hlen & Hloop).
    exists (s :: snaps). csimpl. rewrite Hs, Hsnaps.
    split; [done|]. split; [by rewrite Hlen|].
    unfold pop. cbn [entries PyDict.get]. rewrite decide_True by done.
    rewrite Hs. csimpl. rewrite decide_True by done.
    rewrite Hloop. by rewrite <- app_assoc.
Qed.

(** X6. [drain] returns exactly the list [snapshot] returns, one
    snapshot per entry in insertion order, and leaves the accumulator
    without entries but with its seen event ids, so drained events are
    not accepted again. *)
Theorem drain_returns_snapshot_and_empties acc :
  accumulator_wf acc ->
  exists snaps,
    snapshot acc = Ok snaps
    /\ length snaps = length (entries acc)
    /\ drain acc = (Ok snaps, MkDiffAccumulator [] (seen_event_ids acc)).
Proof.
  intros Hwf. destruct acc as [es seen].
  destruct (drain_loop_all es seen [] Hwf) as (snaps & Hs & Hlen & Hloop).
  exists snaps. by repeat split.
Qed.
End Accumulator.

Lemma snapshot_versions_ascending_witness :
  exists s,
    to_snapshot (MkAggregatedDiff "Kiln/T3" [evt_high; evt_low] ∅) = Ok s
    /\ StronglySorted Z.le (snap_versions s)
    /\ latest_version s = 7.
Proof.
  eexists. split; [reflexivity|].
  split;
    [apply (snapshot_versions_ascending
              (MkAggregatedDiff "Kiln/T3" [evt_high; evt_low] ∅));
     reflexivity | reflexivity].
Defined.

Lemma pop_removes_only_its_path_witness :
  PyDict.get "Kiln/T3" (entries (pop "Kiln/T3" two_events).2) = None.
Proof.
  apply (pop_removes_only_its_path two_events "Kiln/T3" "Kiln/T3").
  vm_compute. repeat constructor; apply not_elem_of_nil.
Defined.

Lemma drain_returns_snapshot_and_empties_witness :
  exists snaps,
    snapshot two_events = Ok snaps
    /\ length snaps = 1%nat
    /\ drain two_events
       = (Ok snaps, MkDiffAccumulator [] {["evt-low"; "evt-high"]}).
Proof.
  destruct (drain_returns_snapshot_and_empties two_events)
    as (snaps & Hs & Hlen & Hdrain).
  - vm_compute. repeat constructor; discriminate.
  - exists snaps. split; [exact Hs|]. split; [exact Hlen|].
    rewrite Hdrain. f_equal.
Defined.
End DiffingProofs.

Module DebounceProofs.
Import Debounce.
Section WithValue.
Context {Value : Type}.
Implicit Types (entry : DebounceEntry Value) (buffer : DebounceBuffer Value)
  (diff : gmap string Value).

(** The payload loop of [merge] is a last-write-wins update. *)
Lemma merge_payload_lookup diff (p : gmap string Value) k :
  map_fold (fun key value p => <[key := value]> p) p diff !! k =
  match diff !! k with Some v => Some v | None => p !! k end.
Proof.
  apply (map_fold_weak_ind
           (fun r m => r !! k = match m !! k with Some v => Some v | None => p !! k end)).
  - by rewrite lookup_empty.
  - intros i x m r Hi IH. destruct (decide (i = k)) as [->|Hne].
    + by rewrite !lookup_insert_eq.
    + by rewrite !lookup_insert_ne.
Qed.

Lemma enforce_cap_within buffer :
  Z.of_nat (length (entries buffer)) <= max_entries buffer ->
  enforce_cap buffer = Some (Ok buffer).
Proof.
  intros Hle. unfold enforce_cap. simpl.
  destruct (Z.ltb_spec (max_entries buffer)
                       (Z.of_nat (length (entries buffer)))); [lia | done].
Qed.

Lemma list_remove_length x l l' :
  list_remove x l = Ok l' -> length l = S (length l').
Proof.
  revert l'. induction l as [|y l IH]; simpl; intros l'; [done|].
  destruct (decide (y = x)); [by intros [= ->]|].
  destruct (list_remove x l) as [r|]; [|done].
  intros [= <-]. simpl. f_equal. by apply IH.
Qed.

Lemma pop_length_present (d : list (string * DebounceEntry Value)) k :
  is_Some (PyDict.get k d) -> length d = S (length (PyDict.pop k d)).
Proof.
  induction d as [|[k0 v0] d IH]; simpl.
  - by intros [? ?].
  - destruct (decide (k0 = k)); simpl; [done|]. intros. f_equal. auto.
Qed.

(** The loop of [_enforce_cap] ends within the fuel [enforce_cap] gives it. *)
Lemma enforce_cap_loop_total fuel buffer :
  (length (entries buffer) < fuel)%nat ->
  enforce_cap_loop fuel buffer <> None.
Proof.
  revert buffer. induction fuel as [|fuel IH]; intros buffer Hlt; [lia|].
  simpl. destruct (max_entries buffer <? _); [|done].
  destruct (min_by_last_update _) as [oldest|]; [|done].
  destruct (PyDict.get _ _) as [dropped|] eqn:Hget; [|done].
  destruct (list_remove _ _) as [seq'|]; [|done].
  apply IH. simpl.
  rewrite (pop_length_present (entries buffer) (metric_key oldest)) in Hlt
    by by rewrite Hget.
  lia.
Qed.

Lemma enforce_cap_total buffer : is_Some (enforce_cap buffer).
Proof.
  unfold enforce_cap.
  destruct (enforce_cap_loop _ buffer) eqn:E; [done|].
  by apply enforce_cap_loop_total in E; [|lia].
Qed.

(** Every buffer [add] returns is within its cap. *)
Lemma enforce_cap_loop_within fuel buffer buffer' :
  enforce_cap_loop fuel buffer = Some (Ok buffer') ->
  Z.of_nat (length (entries buffer')) <= max_entries buffer'.
Proof.
  revert buffer. induction fuel as [|fuel IH]; intros buffer; simpl.
  - destruct (Z.ltb_spec (max_entries buffer) (Z.of_nat (length (entries buffer))));
      [done|]. by intros [= <-].
  - destruct (Z.ltb_spec (max_entries buffer) (Z.of_nat (length (entries buffer))));
      [|by intros [= <-]].
    destruct (min_by_last_update _) as [oldest|]; [|done].
    destruct (PyDict.get _ _) as [dropped|]; [|done].
    destruct (list_remove _ _) as [seq'|]; [|done].
    apply IH.
Qed.

Lemma add_within_cap buffer key diff new_version new_actor event_id timestamp
    new_extras clock_now buffer' :
  add key diff new_version new_actor event_id timestamp new_extras clock_now buffer
  = Some (Ok buffer') ->
  Z.of_nat (length (entries buffer')) <= max_entries buffer'.
Proof.
  unfold add, enforce_cap.
  destruct (PyDict.get key (entries buffer)) as [entry|];
    (destruct (enforce_cap_loop _ _) as [[capped|]|] eqn:Hcap; [|done|done];
     intros [= <-]; simpl; by apply enforce_cap_loop_within in Hcap).
Qed.

(** C3 (amended). [add] on a key that has an entry, with an explicit
    timestamp and version, in a buffer within its cap: the call returns,
    the entry stays filed under the key, its [last_update] is the
    timestamp supplied (whether or not it is later than the previous
    one), its version is the larger of the previous and the supplied
    one, the diff is merged last-write-wins into the payload, and the
    event id joins the entry's set when it is a non-empty string. *)
Theorem debounce_add_merges buffer key diff new_version new_actor event_id
    timestamp new_extras clock_now entry :
  PyDict.get key (entries buffer) = Some entry ->
  Z.of_nat (length (entries buffer)) <= max_entries buffer ->
  exists entry',
    entry_after (add key diff (Some new_version) new_actor event_id
                     (Some timestamp) new_extras clock_now buffer) key
    = Some entry'
    /\ last_update entry' = timestamp
    /\ first_seen entry' = first_seen entry
    /\ version entry' =
       Some (match version entry with
             | Some v0 => Z.max v0 new_version
             | None => new_version
             end)
    /\ (forall k, payload entry' !! k =
                  match diff !! k with
                  | Some v => Some v
                  | None => payload entry !! k
                  end)
    /\ event_ids entry' =
       match event_id with
       | Some id => if truthy event_id then {[id]} ∪ event_ids entry
                    else event_ids entry
       | None => event_ids entry
       end.
Proof.
  intros Hget Hcap. unfold add. rewrite Hget.
  rewrite enforce_cap_within.
  2:{ cbn [entries max_entries].
      rewrite PyDictFacts.set_length_present by by rewrite Hget. done. }
  cbn [entry_after entries]. rewrite PyDictFacts.get_set_eq.
  eexists. split; [done|]. cbn [merge last_update first_seen version payload event_ids].
  repeat split.
  - destruct (version entry) as [v0|]; simpl; [|done].
    destruct (Z.geb_spec new_version v0); f_equal; lia.
  - intros k. apply merge_payload_lookup.
Qed.
End WithValue.

Lemma debounce_add_merges_witness :
  exists entry',
    entry_after (add "metric-1" {["displayLow"%string := 10]} (Some 2)
                     (Some "cdc-listener"%string) (Some "evt-2"%string)
                     (Some 70%Q) None 0%Q one_entry_buffer) "metric-1"
    = Some entry'
    /\ last_update entry' = 70%Q
    /\ version entry' = Some 2.
Proof.
  destruct (debounce_add_merges one_entry_buffer "metric-1"
              {["displayLow"%string := 10]} 2 (Some "cdc-listener"%string)
              (Some "evt-2"%string) 70%Q None 0%Q
              (MkDebounceEntry "metric-1" 10 10 {["displayHigh"%string := 1800]}
                               (Some 1) (Some "ingest"%string) ∅ ∅))
    as (entry' & Hafter & Hlast & _ & Hver & _).
  - reflexivity.
  - vm_compute. discriminate.
  - exists entry'. repeat split; assumption.
Defined.

(** [test_buffer_cap_triggers_drops_and_logs]: the entry updated longest
    ago is dropped when a third key comes in. *)
Example cap_drops_oldest :
  let empty : DebounceBuffer Z :=
    MkDebounceBuffer 300 2 (MkDebounceMetrics ∅ ∅) [] [] in
  let run :=
    b1 ← add "metric-1" {["a"%string := 1]} None None None (Some 0%Q) None 0%Q empty;
    match b1 with
    | Raise e => Some (Raise e)
    | Ok b1 =>
        b2 ← add "metric-2" {["b"%string := 2]} None None None (Some 1%Q) None 0%Q b1;
        match b2 with
        | Raise e => Some (Raise e)
        | Ok b2 =>
            add "metric-3" {["c"%string := 3]} None None None (Some 2%Q) None 0%Q b2
        end
    end in
  match run with
  | Some (Ok b) =>
      sequence b = ["metric-2"; "metric-3"]%string
      /\ counters (metrics b) !! "dropped"%string = Some 1
      /\ gauges (metrics b) !! "buffer_depth"%string = Some 2%Q
  | _ => False
  end.
Proof. vm_compute. repeat split. Qed.

(** C3 as stated fails when the timestamp supplied is earlier than the
    entry's [last_update]: the entry was last updated at 10, the add is
    stamped 5, and [last_update] becomes 5 although the maximum is 10. *)
Lemma debounce_add_overwrites_last_update :
  last_update <$> PyDict.get "metric-1"%string (entries one_entry_buffer)
  = Some 10%Q
  /\ last_update <$>
       entry_after (add "metric-1" {["displayLow"%string := 10]} (Some 2) None
                        (Some "evt-2"%string) (Some 5%Q) None 0%Q
                        one_entry_buffer) "metric-1"
     = Some 5%Q
  /\ Qmax 10 5 = 10%Q.
Proof. split; [|split]; vm_compute; reflexivity. Qed.

(** *** Consistency of the buffer, [flush_due] and the cap *)

Section Buffer.
Context {Value : Type}.
Implicit Types (entry : DebounceEntry Value) (buffer : DebounceBuffer Value)
  (diff : gmap string Value) (es : list (string * DebounceEntry Value)).

Lemma min_by_last_update_elem (l : list (DebounceEntry Value)) oldest :
  min_by_last_update l = Some oldest -> oldest ∈ l.
Proof.
  destruct l as [|e rest]; simpl; [done|]. intros [= <-].
  revert e. induction rest as [|c rest IH]; intros e; simpl.
  - apply list_elem_of_here.
  - destruct (Qltb (last_update c) (last_update e)).
    + specialize (IH c). apply elem_of_cons in IH as [->|Hin].
      * apply list_elem_of_further, list_elem_of_here.
      * by do 2 apply list_elem_of_further.
    + specialize (IH e). apply elem_of_cons in IH as [->|Hin].
      * apply list_elem_of_here.
      * by do 2 apply list_elem_of_further.
Qed.

Lemma list_remove_keys es k :
  is_Some (PyDict.get k es) ->
  list_remove k (PyDict.keys es) = Ok (PyDict.keys (PyDict.pop k es)).
Proof.
  unfold PyDict.keys. induction es as [|[k0 v0] es IH]; csimpl.
  - by intros [? ?].
  - destruct (decide (k0 = k)); [done|]. intros Hs. by rewrite IH.
Qed.

Lemma pop_sublist es k : PyDict.pop k es `sublist_of` es.
Proof.
  induction es as [|[k0 v0] es IH]; simpl; [done|].
  destruct (decide (k0 = k)); [by apply sublist_cons | by apply sublist_skip].
Qed.

Lemma buffer_wf_pop buffer k m :
  buffer_wf buffer -> is_Some (PyDict.get k (entries buffer)) ->
  exists seq',
    list_remove k (sequence buffer) = Ok seq'
    /\ buffer_wf (MkDebounceBuffer (window_seconds buffer) (max_entries buffer)
                    m (PyDict.pop k (entries buffer)) seq').
Proof.
  intros (Hseq & Hnd & Hown) Hget. rewrite Hseq.
  rewrite list_remove_keys by done. eexists. split; [done|].
  pose proof (pop_sublist (entries buffer) k) as Hsub.
  split; [done|]. split; cbn [entries].
  - eapply sublist_NoDup; [exact Hnd|]. by apply fmap_sublist.
  - rewrite !Forall_forall in *. intros x Hx. apply Hown.
    eapply elem_of_sublist; [exact Hx | exact Hsub].
Qed.

Lemma enforce_cap_loop_wf fuel buffer :
  buffer_wf buffer -> 0 <= max_entries buffer ->
  (length (entries buffer) < fuel)%nat ->
  exists buffer',
    enforce_cap_loop fuel buffer = Some (Ok buffer')
    /\ buffer_wf buffer'
    /\ max_entries buffer' = max_entries buffer
    /\ window_seconds buffer' = window_seconds buffer
    /\ entries buffer' `sublist_of` entries buffer.
Proof.
  revert buffer. induction fuel as [|fuel IH]; intros buffer Hwf Hmax Hlt; [lia|].
  simpl.
  destruct (Z.ltb_spec (max_entries buffer) (Z.of_nat (length (entries buffer))))
    as [Hover|Hfits]; [|by exists buffer].
  destruct (min_by_last_update _) as [oldest|] eqn:Hmin.
  2:{ destruct (entries buffer); [simpl in *; lia | done]. }
  apply min_by_last_update_elem in Hmin.
  apply list_elem_of_fmap in Hmin as ([k e] & -> & Hin). simpl.
  pose proof Hwf as (Hseq & Hnd & Hown).
  rewrite Forall_forall in Hown. pose proof (Hown _ Hin) as Hk. simpl in Hk.
  rewrite Hk. rewrite (PyDictFacts.elem_get _ _ _ Hnd Hin).
  destruct (buffer_wf_pop buffer k (inc "dropped" 1 (metrics buffer)) Hwf)
    as (seq' & Hrem & Hwf'); [by rewrite (PyDictFacts.elem_get _ _ _ Hnd Hin)|].
  rewrite Hrem.
  destruct (IH _ Hwf') as (buffer' & Hrun & Hwf'' & Hm & Hw & Hsub).
  - done.
  - cbn [entries].
    rewrite (pop_length_present (entries buffer) k) in Hlt
      by by rewrite (PyDictFacts.elem_get _ _ _ Hnd Hin).
    lia.
  - exists buffer'. split; [done|]. split; [done|]. split; [done|].
    split; [done|]. etrans; [exact Hsub|]. apply pop_sublist.
Qed.

Lemma buffer_wf_set buffer key entry m :
  buffer_wf buffer -> metric_key entry = key ->
  buffer_wf
    (MkDebounceBuffer (window_seconds buffer) (max_entries buffer) m
       (PyDict.set key entry (entries buffer))
       (if PyDict.get key (entries buffer) is Some _ then sequence buffer
        else sequence buffer ++ [key])).
Proof.
  intros (Hseq & Hnd & Hown) Hkey. split; [|split]; cbn [entries sequence].
  - rewrite PyDictFacts.keys_set, Hseq. by destruct (PyDict.get _ _).
  - by apply PyDictFacts.NoDup_keys_set.
  - apply PyDictFacts.Forall_set; [done| |done].
    intros k0. destruct (decide (k0 = key)) as [->|]; [by left | by right].
Qed.

Lemma add_unfold buffer key diff new_version new_actor event_id timestamp
    new_extras clock_now :
  add key diff new_version new_actor event_id timestamp new_extras clock_now
      buffer =
  let now := match timestamp with Some t => t | None => clock_now end in
  let merged :=
    merge diff new_version new_actor event_id (Some now) new_extras
      (default (MkDebounceEntry key now now ∅ None None ∅ ∅)
               (PyDict.get key (entries buffer))) in
  match enforce_cap
          (MkDebounceBuffer (window_seconds buffer) (max_entries buffer)
             (metrics buffer) (PyDict.set key merged (entries buffer))
             (if PyDict.get key (entries buffer) is Some _ then sequence buffer
              else sequence buffer ++ [key]))
  with
  | Some (Ok capped) =>
      Some (Ok (MkDebounceBuffer
                  (window_seconds capped) (max_entries capped)
                  (set_gauge "buffer_depth"
                     (inject_Z (Z.of_nat (length (entries capped))))
                     (metrics capped))
                  (entries capped) (sequence capped)))
  | other => other
  end.
Proof. unfold add. by destruct (PyDict.get key (entries buffer)). Qed.

(** X7. On a buffer whose [_sequence] lists the keys of [_entries] and
    whose cap is positive, [add] never raises: the lookups of
    [_enforce_cap] always find their key.  The buffer it leaves is again
    consistent and within its cap, and its pending keys are pending keys
    of before, in their order, with at most the added key at the end. *)
Theorem add_keeps_buffer_consistent buffer key diff new_version new_actor
    event_id timestamp new_extras clock_now :
  buffer_wf buffer -> 0 < max_entries buffer ->
  exists buffer',
    add key diff new_version new_actor event_id timestamp new_extras clock_now
        buffer = Some (Ok buffer')
    /\ buffer_wf buffer'
    /\ Z.of_nat (length (entries buffer')) <= max_entries buffer'
    /\ max_entries buffer' = max_entries buffer
    /\ pending_keys buffer' `sublist_of` pending_keys buffer ++ [key].
Proof.
  intros Hwf Hmax. rewrite add_unfold. cbv zeta.
  set (now := match timestamp with Some t => t | None => clock_now end).
  set (merged := merge _ _ _ _ _ _ _).
  assert (metric_key merged = key) as Hkey.
  { subst merged. cbn [merge metric_key].
    destruct (PyDict.get key (entries buffer)) as [e|] eqn:Hget; [|done].
    destruct Hwf as (_ & _ & Hown). rewrite Forall_forall in Hown.
    apply PyDictFacts.get_Some_elem in Hget. by apply Hown in Hget. }
  pose proof (buffer_wf_set buffer key merged (metrics buffer) Hwf Hkey) as Hset.
  destruct (enforce_cap_loop_wf
              (S (length (PyDict.set key merged (entries buffer)))) _ Hset)
    as (capped & Hrun & Hwf' & Hm & Hw & Hsub);
    [cbn [max_entries]; lia | cbn [entries]; lia |].
  unfold enforce_cap. cbn [entries] in *. rewrite Hrun.
  eexists. split; [done|].
  pose proof (enforce_cap_loop_within _ _ _ Hrun) as Hcap.
  destruct Hwf' as (Hseq' & Hnd' & Hown').
  split; [by split|]. cbn [entries max_entries sequence].
  split; [done|]. split; [done|].
  unfold pending_keys. cbn [sequence]. rewrite Hseq'.
  destruct Hwf as (Hseq & _ & _). rewrite Hseq.
  apply (fmap_sublist fst) in Hsub.
  etrans; [exact Hsub|].
  fold (PyDict.keys (PyDict.set key merged (entries buffer))).
  rewrite PyDictFacts.keys_set.
  destruct (PyDict.get key (entries buffer)); [by apply sublist_inserts_r | done].
Qed.

Lemma filter_ext_elem {A} (P Q : A -> Prop) `{!∀ x, Decision (P x)}
    `{!∀ x, Decision (Q x)} (l : list A) :
  (forall x, x ∈ l -> P x <-> Q x) -> filter P l = filter Q l.
Proof.
  induction l as [|x l IH]; intros Hext; [done|].
  rewrite !filter_cons.
  rewrite IH by (intros y Hy; apply Hext; by apply list_elem_of_further).
  pose proof (Hext x (list_elem_of_here _ _)) as Hx.
  destruct (decide (P x)), (decide (Q x)); tauto.
Qed.

Lemma index_skip x (l seq : list string) (dec : list (nat * string)) :
  x ∉ l ->
  Forall2 (fun k ik => (fun i => (i, k)) <$> index k seq = Some ik) l dec ->
  Forall2 (fun k ik => (fun i => (i, k)) <$> index k (x :: seq) = Some ik)
          l (prod_map S id <$> dec).
Proof.
  intros Hx Hdec. induction Hdec as [|k ik l dec Hk Hdec IH]; csimpl; [done|].
  apply not_elem_of_cons in Hx as [Hne Hx].
  constructor; [|by apply IH].
  rewrite decide_False by done.
  destruct (index k seq) as [i|]; [|done]. simpl in *. by injection Hk as <-.
Qed.

Lemma index_sublist (l seq : list string) :
  NoDup seq -> l `sublist_of` seq ->
  exists dec,
    mapM (fun k => (fun i => (i, k)) <$> index k seq) l = Some dec
    /\ dec.*2 = l
    /\ StronglySorted lt dec.*1.
Proof.
  intros Hnd Hsub.
  enough (exists dec,
             Forall2 (fun k ik => (fun i => (i, k)) <$> index k seq = Some ik)
                     l dec
             /\ dec.*2 = l /\ StronglySorted lt dec.*1)
    as (dec & Hdec & ? & ?).
  { exists dec. split; [by apply mapM_Some_2 | done]. }
  induction Hsub as [|x l seq Hsub IH|x l seq Hsub IH].
  - exists []. repeat split; constructor.
  - apply NoDup_cons in Hnd as [Hx Hnd].
    destruct (IH Hnd) as (dec & Hdec & Hkeys & Hsorted).
    assert (x ∉ l) as Hxl.
    { intros Hin. apply Hx. eapply elem_of_sublist; [exact Hin | exact Hsub]. }
    exists ((O, x) :: (prod_map S id <$> dec)). split; [|split].
    + constructor; [simpl; by rewrite decide_True|]. by apply index_skip.
    + csimpl. f_equal. rewrite <- Hkeys, <- !list_fmap_compose.
      apply list_fmap_ext. by intros ? [??].
    + csimpl. rewrite <- list_fmap_compose. constructor.
      * rewrite (list_fmap_ext _ (S ∘ fst) dec) by by intros ? [??].
        rewrite list_fmap_compose.
        eapply (StronglySorted_fmap S lt lt); [|exact Hsorted]. lia.
      * apply Forall_fmap, Forall_forall. intros [i k] _. simpl. lia.
  - apply NoDup_cons in Hnd as [Hx Hnd].
    destruct (IH Hnd) as (dec & Hdec & Hkeys & Hsorted).
    assert (x ∉ l) as Hxl.
    { intros Hin. apply Hx. eapply elem_of_sublist; [exact Hin | exact Hsub]. }
    exists (prod_map S id <$> dec). split; [|split].
    + by apply index_skip.
    + rewrite <- Hkeys, <- !list_fmap_compose.
      apply list_fmap_ext. by intros ? [??].
    + rewrite <- list_fmap_compose.
      rewrite (list_fmap_ext _ (S ∘ fst) dec) by by intros ? [??].
      rewrite list_fmap_compose.
      eapply (StronglySorted_fmap S lt lt); [|exact Hsorted]. lia.
Qed.

Lemma insert_by_index_last (ix : nat * string) (l : list (nat * string)) :
  Forall (fun y => (y.1 <= ix.1)%nat) l -> insert_by_index ix l = l ++ [ix].
Proof.
  induction 1 as [|y l Hy Hl IH]; simpl; [done|].
  destruct (Nat.ltb_spec ix.1 y.1); [lia|]. by rewrite IH.
Qed.

Lemma insertion_sort_sorted (acc dec : list (nat * string)) :
  StronglySorted lt (acc ++ dec).*1 ->
  foldl (fun acc ix => insert_by_index ix acc) acc dec = acc ++ dec.
Proof.
  revert acc. induction dec as [|ix dec IH]; intros acc Hs; simpl.
  - by rewrite app_nil_r.
  - rewrite insert_by_index_last.
    + rewrite IH; rewrite <- app_assoc; done.
    + apply Forall_forall. intros y Hy.
      rewrite fmap_app in Hs.
      assert (y.1 < ix.1)%nat; [|lia].
      eapply (StronglySorted_app_1_elem_of lt); [exact Hs| |].
      * apply list_elem_of_fmap. by exists y.
      * csimpl. apply list_elem_of_here.
Qed.

Lemma sort_by_index_sublist (l seq : list string) :
  NoDup seq -> l `sublist_of` seq -> sort_by_index seq l = Ok l.
Proof.
  intros Hnd Hsub. unfold sort_by_index.
  destruct (index_sublist l seq Hnd Hsub) as (dec & -> & Hkeys & Hsorted).
  rewrite (insertion_sort_sorted [] dec) by done. by rewrite app_nil_l, Hkeys.
Qed.

Lemma filter_all {A} (P : A -> Prop) `{!∀ x, Decision (P x)} (l : list A) :
  (forall x, x ∈ l -> P x) -> filter P l = l.
Proof.
  induction l as [|x l IH]; intros Hall; [done|].
  rewrite filter_cons_True by apply Hall, list_elem_of_here.
  rewrite IH; [done|]. intros y Hy. by apply Hall, list_elem_of_further.
Qed.

Lemma pop_filter es k :
  NoDup (PyDict.keys es) ->
  PyDict.pop k es = filter (fun kv => kv.1 <> k) es.
Proof.
  unfold PyDict.keys. induction es as [|[k0 v0] es IH]; csimpl; [done|].
  intros [Hnotin Hnd]%NoDup_cons. rewrite filter_cons. simpl.
  destruct (decide (k0 = k)) as [->|Hne].
  - rewrite decide_False by (intros ?; done).
    symmetry. apply filter_all. intros [k1 v1] Hin. simpl. intros ->.
    apply Hnotin.
    apply list_elem_of_fmap. by exists (k, v1).
  - rewrite decide_True by done. by rewrite IH.
Qed.

Lemma flush_loop_all (ready es : list (string * DebounceEntry Value)) acc :
  NoDup (PyDict.keys es) -> NoDup ready.*1 ->
  (forall kv, kv ∈ ready -> kv ∈ es) ->
  flush_loop ready.*1 acc es (PyDict.keys es) =
  Ok (acc ++ ((fun kv => flushed_payload kv.1 kv.2) <$> ready),
      filter (fun kv => kv.1 ∉ ready.*1) es,
      PyDict.keys (filter (fun kv => kv.1 ∉ ready.*1) es)).
Proof.
  revert acc es. induction ready as [|[k e] ready IH]; intros acc es Hnd Hr Hin.
  - simpl. rewrite app_nil_r.
    rewrite filter_all by (intros; apply not_elem_of_nil). done.
  - csimpl. apply NoDup_cons in Hr as [Hk Hr].
    assert (PyDict.get k es = Some e) as Hget.
    { apply PyDictFacts.elem_get; [done|]. apply Hin, list_elem_of_here. }
    rewrite Hget, list_remove_keys by by rewrite Hget.
    assert (NoDup (PyDict.keys (PyDict.pop k es))) as Hnd'.
    { eapply sublist_NoDup; [exact Hnd|]. apply fmap_sublist, pop_sublist. }
    rewrite IH; [|done|done|].
    + rewrite <- app_assoc. cbn [app fst snd].
      rewrite pop_filter by done. rewrite list_filter_filter.
      rewrite (filter_ext_elem _ (fun kv => kv.1 ∉ k :: ready.*1)); [done|].
      intros kv _. rewrite not_elem_of_cons. tauto.
    + intros kv Hkv. rewrite pop_filter by done.
      apply list_elem_of_filter. split; [|by apply Hin, list_elem_of_further].
      intros Heq. apply Hk. rewrite <- Heq. apply list_elem_of_fmap. by exists kv.
Qed.

Lemma buffer_wf_filter buffer (P : string * DebounceEntry Value -> Prop)
    `{!∀ x, Decision (P x)} m :
  buffer_wf buffer ->
  buffer_wf (MkDebounceBuffer (window_seconds buffer) (max_entries buffer) m
               (filter P (entries buffer))
               (PyDict.keys (filter P (entries buffer)))).
Proof.
  intros (Hseq & Hnd & Hown). split; [done|]. cbn [entries]. split.
  - eapply sublist_NoDup; [exact Hnd|]. apply fmap_sublist, sublist_filter.
  - rewrite !Forall_forall in *. intros x [_ Hx]%list_elem_of_filter. by apply Hown.
Qed.

Lemma flush_due_spec buffer now clock_now :
  buffer_wf buffer ->
  let current := match now with Some t => t | None => clock_now end in
  let is_due := due (window_seconds buffer) current in
  exists buffer',
    flush_due now clock_now buffer =
    Ok ((fun kv => flushed_payload kv.1 kv.2) <$> filter is_due (entries buffer),
        buffer')
    /\ entries buffer' = filter (fun kv => ¬ is_due kv) (entries buffer)
    /\ buffer_wf buffer'
    /\ window_seconds buffer' = window_seconds buffer
    /\ max_entries buffer' = max_entries buffer.
Proof.
  intros Hwf current is_due. pose proof Hwf as (Hseq & Hnd & Hown).
  unfold flush_due. fold current. fold is_due.
  rewrite Hseq.
  rewrite sort_by_index_sublist;
    [|done|apply fmap_sublist, sublist_filter].
  rewrite flush_loop_all; [|done| |].
  - assert (filter (fun kv => kv.1 ∉ (filter is_due (entries buffer)).*1)
                   (entries buffer)
            = filter (fun kv => ¬ is_due kv) (entries buffer)) as Hrest.
    { apply filter_ext_elem. intros kv Hkv. split.
      - intros Hnot Hdue. apply Hnot. apply list_elem_of_fmap. exists kv.
        split; [done|]. by apply list_elem_of_filter.
      - intros Hnot ([k' e'] & Hk & [Hdue Hin]%list_elem_of_filter)%list_elem_of_fmap.
        destruct kv as [k e]. simpl in Hk. subst k'.
        rewrite (PyDictFacts.keys_unique _ _ _ _ Hnd Hkv Hin) in Hnot. done. }
    rewrite Hrest. eexists. split; [done|]. split; [done|].
    split; [|done]. by apply buffer_wf_filter.
  - eapply sublist_NoDup; [exact Hnd|]. apply fmap_sublist, sublist_filter.
  - intros kv [_ ?]%list_elem_of_filter. done.
Qed.

(** X8. [flush_due] returns one payload for each entry that is due, in
    insertion order, and keeps exactly the other entries; sorting the
    ready keys by their position in [_sequence] changes nothing.  An
    entry is due when its age, the float [current - last_update], is at
    least [window_seconds].  With a window that is a float, an entry
    whose exact age has reached the window is always due, so nothing
    that old is left behind; an entry whose exact age is short of the
    window is due only if the subtraction rounds its age up to the
    window. *)
Theorem flush_due_emits_exactly_the_due buffer now clock_now :
  buffer_wf buffer ->
  let current := match now with Some t => t | None => clock_now end in
  let is_due := due (window_seconds buffer) current in
  (exists buffer',
    flush_due now clock_now buffer =
    Ok ((fun kv => flushed_payload kv.1 kv.2) <$> filter is_due (entries buffer),
        buffer')
    /\ entries buffer' = filter (fun kv => ¬ is_due kv) (entries buffer)
    /\ buffer_wf buffer'
    /\ window_seconds buffer' = window_seconds buffer
    /\ max_entries buffer' = max_entries buffer)
  /\ (Float64.is_float (window_seconds buffer) ->
      forall kv,
        ((window_seconds buffer <= current - last_update kv.2)%Q -> is_due kv)
        /\ (is_due kv ->
            (current - last_update kv.2 < window_seconds buffer)%Q ->
            (Float64.sub current (last_update kv.2) == window_seconds buffer)%Q)).
Proof.
  intros Hwf current is_due. split; [by apply flush_due_spec|].
  intros Hwindow kv. unfold is_due, due. split.
  - intros Hold. apply Is_true_true, Qle_bool_iff.
    by apply Float64Proofs.round64_ge_float.
  - intros Hdue%Is_true_true%Qle_bool_iff Hyoung.
    apply Qle_antisym; [|done].
    apply Float64Proofs.round64_le_float; [done|]. by apply Qlt_le_weak.
Qed.

(** With a window of 1 at clock reading 1, an entry whose age is
    [2 ^ -54] short of the window is flushed: the subtraction gives 1. *)
Example flush_due_rounds_the_age :
  let entry := MkDebounceEntry "m" 0 (Float64.two_to (-54)) (∅ : gmap string Z)
                               None None ∅ ∅ in
  (1 - last_update entry < 1)%Q /\ due 1 1 ("m"%string, entry) = true.
Proof. split; vm_compute; reflexivity. Qed.

Lemma filter_none {A} (P : A -> Prop) `{!∀ x, Decision (P x)} (l : list A) :
  (forall x, x ∈ l -> ¬ P x) -> filter P l = [].
Proof.
  induction l as [|x l IH]; intros Hall; [done|].
  rewrite filter_cons, decide_False by apply Hall, list_elem_of_here.
  apply IH. intros y Hy. by apply Hall, list_elem_of_further.
Qed.

(** X9. Flushing a second time at the same instant returns no payload
    and leaves the buffer, its metrics included, as the first flush
    left it. *)
Theorem flush_due_again_emits_nothing buffer now clock_now payloads buffer' :
  buffer_wf buffer ->
  flush_due now clock_now buffer = Ok (payloads, buffer') ->
  flush_due now clock_now buffer' = Ok ([], buffer').
Proof.
  intros Hwf Hflush.
  destruct (flush_due_spec buffer now clock_now Hwf)
    as (b & Hb & Hes & Hwf' & Hw & _).
  rewrite Hb in Hflush. injection Hflush as _ <-.
  unfold flush_due. rewrite Hw, Hes.
  rewrite (filter_none _ (filter _ _))
    by (intros x [Hnot _]%list_elem_of_filter; exact Hnot).
  rewrite <- Hes, <- Hw. simpl. by destruct b.
Qed.

Lemma insert_string_perm x l : insert_string x l ≡ₚ x :: l.
Proof.
  induction l as [|y l IH]; simpl; [done|].
  destruct (String.ltb x y); [done|]. rewrite IH. apply Permutation_swap.
Qed.

Lemma insert_string_sorted x l :
  Sorted (fun a b => String.leb a b = true) l ->
  Sorted (fun a b => String.leb a b = true) (insert_string x l).
Proof.
  assert (forall a b, String.ltb a b = false -> String.leb b a = true) as Hge.
  { intros a b. unfold String.ltb, String.leb.
    rewrite (String.compare_antisym a b).
    by destruct (String.compare b a). }
  assert (forall a b, String.ltb a b = true -> String.leb a b = true) as Hlt.
  { intros a b. unfold String.ltb, String.leb. by destruct (String.compare a b). }
  induction l as [|y l IH]; simpl; intros Hs.
  - repeat constructor.
  - destruct (String.ltb x y) eqn:Hxy.
    + constructor; [done|]. constructor. by apply Hlt.
    + apply Sorted_inv in Hs as [Hs Hhd]. constructor; [by apply IH|].
      destruct l as [|z l]; simpl.
      * constructor. by apply Hge.
      * destruct (String.ltb x z); constructor; [by apply Hge|].
        by inversion Hhd.
Qed.

(** X10. The [event_ids] of a flushed payload list every event id of the
    entry once, in ascending order. *)
Theorem flushed_event_ids_sorted key entry :
  let ids := out_event_ids (flushed_payload key entry) in
  Sorted (fun a b => String.leb a b = true) ids
  /\ NoDup ids
  /\ forall id, id ∈ ids <-> id ∈ event_ids entry.
Proof.
  cbn [flushed_payload out_event_ids]. unfold sorted_strings.
  assert (forall l : list string,
             Sorted (fun a b => String.leb a b = true)
                    (foldl (fun acc x => insert_string x acc) [] l)
             /\ foldl (fun acc x => insert_string x acc) [] l ≡ₚ l) as Hfold.
  { induction l as [|x l [IHs IHp]] using rev_ind; [by split; constructor|].
    rewrite foldl_app. simpl. split; [by apply insert_string_sorted|].
    by rewrite insert_string_perm, IHp, Permutation_app_comm. }
  destruct (Hfold (elements (event_ids entry))) as [Hs Hp].
  split; [done|]. split.
  - rewrite Hp. apply NoDup_elements.
  - intros id. rewrite Hp. apply elem_of_elements.
Qed.

Lemma min_by_last_update_least (l : list (DebounceEntry Value)) oldest :
  min_by_last_update l = Some oldest ->
  Forall (fun e => (last_update oldest <= last_update e)%Q) l.
Proof.
  destruct l as [|e rest]; simpl; [done|]. intros [= <-].
  enough (forall best seen,
             Forall (fun x => (last_update best <= last_update x)%Q) seen ->
             Forall (fun x =>
                       (last_update
                          (foldl (fun best c =>
                                    if Qltb (last_update c) (last_update best)
                                    then c else best) best rest)
                        <= last_update x)%Q) (seen ++ rest)) as Hgen.
  { apply (Hgen e [e]). constructor; [apply Qle_refl | constructor]. }
  induction rest as [|c rest IH]; intros best seen Hseen; simpl.
  - by rewrite app_nil_r.
  - rewrite (assoc_L (++) seen [c] rest : seen ++ c :: rest = (seen ++ [c]) ++ rest).
    apply IH. unfold Qltb.
    destruct (Qle_bool (last_update best) (last_update c)) eqn:Hle; simpl.
    + apply Qle_bool_iff in Hle. apply Forall_app. split; [done|].
      by repeat constructor.
    + assert (last_update c < last_update best)%Q as Hlt.
      { apply Qnot_le_lt. intros H%Qle_bool_iff. congruence. }
      apply Forall_app. split; [|repeat constructor; apply Qle_refl].
      eapply Forall_impl; [exact Hseen|]. simpl. intros x Hx.
      eapply Qle_trans; [apply Qlt_le_weak, Hlt | exact Hx].
Qed.

(** X11. [add] of a new key to a buffer that is exactly at its cap drops
    one entry, counted under "dropped": an entry whose [last_update] is
    least among the entries held and the one just added, which is the
    new entry itself when its timestamp is the oldest. *)
Theorem add_at_cap_drops_the_stalest buffer key diff new_version new_actor
    event_id timestamp new_extras clock_now :
  buffer_wf buffer -> 0 < max_entries buffer ->
  Z.of_nat (length (entries buffer)) = max_entries buffer ->
  PyDict.get key (entries buffer) = None ->
  let now := match timestamp with Some t => t | None => clock_now end in
  let held :=
    entries buffer ++
    [(key, merge diff new_version new_actor event_id (Some now) new_extras
             (MkDebounceEntry key now now ∅ None None ∅ ∅))] in
  exists buffer' victim,
    add key diff new_version new_actor event_id timestamp new_extras clock_now
        buffer = Some (Ok buffer')
    /\ victim ∈ held
    /\ Forall (fun kv => (last_update victim.2 <= last_update kv.2)%Q) held
    /\ entries buffer' = PyDict.pop victim.1 held
    /\ counters (metrics buffer') !! "dropped"%string =
       Some (default 0 (counters (metrics buffer) !! "dropped"%string) + 1).
Proof.
  intros Hwf Hmax Hfull Hnew now held.
  rewrite add_unfold. cbv zeta. fold now. rewrite Hnew. cbn [default].
  set (merged := merge _ _ _ _ _ _ _).
  assert (metric_key merged = key) as Hkey by done.
  pose proof (buffer_wf_set buffer key merged (metrics buffer) Hwf Hkey) as Hset.
  rewrite Hnew in Hset.
  rewrite PyDictFacts.set_absent in Hset |- * by done.
  change (entries buffer ++ [(key, merged)]) with held in Hset |- *.
  assert (length held = S (length (entries buffer))) as Hlen.
  { unfold held. rewrite length_app. simpl. lia. }
  unfold enforce_cap. cbn [entries]. rewrite Hlen.
  cbn [enforce_cap_loop entries max_entries].
  destruct (Z.ltb_spec (max_entries buffer) (Z.of_nat (length held)));
    [|lia].
  destruct (min_by_last_update (PyDict.values held)) as [oldest|] eqn:Hmin.
  2:{ unfold held in Hmin. by destruct (entries buffer). }
  pose proof (min_by_last_update_least _ _ Hmin) as Hleast.
  apply min_by_last_update_elem in Hmin.
  apply list_elem_of_fmap in Hmin as ([k e] & -> & Hin). simpl in Hleast |- *.
  pose proof Hset as (Hseq & Hnd & Hown). cbn [entries sequence] in *.
  rewrite Forall_forall in Hown. pose proof (Hown _ Hin) as Hk. simpl in Hk.
  rewrite Hk, (PyDictFacts.elem_get _ _ _ Hnd Hin).
  rewrite Hseq, list_remove_keys
    by by rewrite (PyDictFacts.elem_get _ _ _ Hnd Hin).
  assert (length held = S (length (PyDict.pop k held))) as Hpop.
  { apply pop_length_present. by rewrite (PyDictFacts.elem_get _ _ _ Hnd Hin). }
  destruct (length (entries buffer)) as [|n] eqn:Hn; [lia|].
  cbn [enforce_cap_loop entries max_entries].
  destruct (Z.ltb_spec (max_entries buffer)
              (Z.of_nat (length (PyDict.pop k held)))); [lia|].
  exists (MkDebounceBuffer (window_seconds buffer) (max_entries buffer)
            (set_gauge "buffer_depth"
               (inject_Z (Z.of_nat (length (PyDict.pop k held))))
               (inc "dropped" 1 (metrics buffer)))
            (PyDict.pop k held) (PyDict.keys (PyDict.pop k held))), (k, e).
  split; [done|]. split; [done|]. split.
  - unfold PyDict.values in Hleast. by rewrite Forall_fmap in Hleast.
  - split; [done|]. simpl. by rewrite lookup_insert_eq.
Qed.
End Buffer.

Lemma one_entry_buffer_wf : buffer_wf one_entry_buffer.
Proof.
  split; [reflexivity|]. split; [apply NoDup_singleton | by repeat constructor].
Qed.

Lemma full_buffer_wf : buffer_wf full_buffer.
Proof.
  split; [reflexivity|]. split; [apply NoDup_singleton | by repeat constructor].
Qed.

Lemma add_keeps_buffer_consistent_witness :
  exists buffer',
    add "metric-2" {["displayLow"%string := 5]} None None None (Some 20%Q) None
        0%Q one_entry_buffer = Some (Ok buffer')
    /\ buffer_wf buffer'
    /\ Z.of_nat (length (entries buffer')) <= max_entries buffer'.
Proof.
  destruct (add_keeps_buffer_consistent one_entry_buffer "metric-2"
              {["displayLow"%string := 5]} None None None (Some 20%Q) None 0%Q)
    as (buffer' & Hadd & Hwf & Hcap & _).
  - exact one_entry_buffer_wf.
  - reflexivity.
  - exists buffer'. split; [exact Hadd | split; [exact Hwf | exact Hcap]].
Defined.

Lemma flush_due_emits_exactly_the_due_witness :
  exists buffer',
    flush_due (Some 200%Q) 0%Q one_entry_buffer =
    Ok ((fun kv => flushed_payload kv.1 kv.2) <$> entries one_entry_buffer,
        buffer')
    /\ entries buffer' = [].
Proof.
  destruct (flush_due_emits_exactly_the_due one_entry_buffer (Some 200%Q) 0%Q)
    as [(buffer' & Hflush & Hes & _) _].
  - exact one_entry_buffer_wf.
  - exists buffer'. split; [exact Hflush | exact Hes].
Defined.

Lemma flush_due_again_emits_nothing_witness :
  exists buffer' : DebounceBuffer Z,
    flush_due (Some 200%Q) 0%Q buffer' = Ok ([], buffer')
    /\ pending_keys buffer' = [].
Proof.
  eexists. split.
  - eapply (flush_due_again_emits_nothing one_entry_buffer (Some 200%Q) 0%Q).
    + exact one_entry_buffer_wf.
    + reflexivity.
  - reflexivity.
Defined.

Lemma add_at_cap_drops_the_stalest_witness :
  exists buffer',
    add "metric-2" {["displayLow"%string := 5]} None None None (Some 20%Q) None
        0%Q full_buffer = Some (Ok buffer')
    /\ pending_keys buffer' = ["metric-2"%string]
    /\ counters (metrics buffer') !! "dropped"%string = Some 1.
Proof.
  destruct (add_at_cap_drops_the_stalest full_buffer "metric-2"
              {["displayLow"%string := 5]} None None None (Some 20%Q) None 0%Q)
    as (buffer' & victim & Hadd & _ & _ & _ & Hdropped).
  - exact full_buffer_wf.
  - reflexivity.
  - reflexivity.
  - reflexivity.
  - exists buffer'. split; [exact Hadd|]. split; [|exact Hdropped].
    vm_compute in Hadd. injection Hadd as <-. reflexivity.
Defined.
End DebounceProofs.

Module CanaryProofs.
Import Canary.

Lemma Qltb_lt x y : Qltb x y = true <-> (x < y)%Q.
Proof.
  unfold Qltb. rewrite negb_true_iff, <- not_true_iff_false, Qle_bool_iff.
  split; [apply Qnot_le_lt | apply Qlt_not_le].
Qed.

Lemma Qltb_ge x y : Qltb x y = false <-> (y <= x)%Q.
Proof. unfold Qltb. by rewrite negb_false_iff, Qle_bool_iff. Qed.

Lemma Qmax_0_pos r : Qltb 0 (Qmax 0 r) = Qltb 0 r.
Proof.
  unfold Qmax, GenericMinMax.gmax.
  destruct (Qcompare_spec 0 r) as [Heq|Hlt|Hgt]; [| done |].
  - symmetry. apply Qltb_ge. rewrite Heq. apply Qle_refl.
  - symmetry. transitivity false; [|done]. apply Qltb_ge. by apply Qlt_le_weak.
Qed.

(** *** The circuit breaker *)

Lemma record_failures_snoc times now cb :
  record_failures (times ++ [now]) cb = record_failure now (record_failures times cb).
Proof. unfold record_failures. by rewrite foldl_app. Qed.

Lemma record_failures_frame times cb :
  threshold (record_failures times cb) = threshold cb
  /\ reset_timeout (record_failures times cb) = reset_timeout cb
  /\ failures (record_failures times cb) = failures cb + Z.of_nat (length times).
Proof.
  induction times as [|now times (Ht & Hr & Hf)] using rev_ind.
  - simpl. repeat split; lia.
  - rewrite record_failures_snoc, length_app. simpl.
    unfold record_failure. destruct (_ || _); simpl; repeat split; try done; lia.
Qed.

Lemma record_failures_opens times now cb :
  threshold cb <= failures cb + Z.of_nat (length times) + 1 ->
  state (record_failures (times ++ [now]) cb) = st_open
  /\ opened_at (record_failures (times ++ [now]) cb) = now.
Proof.
  intros Hreach. rewrite record_failures_snoc.
  destruct (record_failures_frame times cb) as (Ht & _ & Hf).
  unfold record_failure. rewrite Ht, Hf.
  destruct (Z.geb_spec (failures cb + Z.of_nat (length times) + 1) (threshold cb));
    [|lia].
  by rewrite orb_true_r.
Qed.

Lemma allow_open now cb :
  state cb = st_open ->
  allow now cb =
  if Qltb 0 (Float64.sub (reset_timeout cb) (Float64.sub now (opened_at cb)))
  then (false, cb)
  else (true, MkCircuitBreaker (threshold cb) (reset_timeout cb) st_half_open 0
                               (opened_at cb)).
Proof.
  intros Hopen. unfold allow, time_until_allow. rewrite Hopen.
  by rewrite Qmax_0_pos.
Qed.

(** An open breaker refuses while the elapsed time it computes is short
    of the timeout. *)
Lemma allow_refuses now cb :
  state cb = st_open -> Float64.is_float (reset_timeout cb) ->
  (Float64.sub now (opened_at cb) < reset_timeout cb)%Q ->
  allow now cb = (false, cb).
Proof.
  intros Hopen Hfloat Hshort. rewrite allow_open by done.
  assert (Qltb 0 (Float64.sub (reset_timeout cb)
                    (Float64.sub now (opened_at cb))) = true) as ->; [|done].
  apply Qltb_lt. apply Float64Proofs.sub_pos; [done| |done].
  apply Float64Proofs.round64_idempotent.
Qed.

Lemma allow_trial now cb :
  state cb = st_open ->
  (reset_timeout cb <= Float64.sub now (opened_at cb))%Q ->
  allow now cb =
  (true, MkCircuitBreaker (threshold cb) (reset_timeout cb) st_half_open 0
                          (opened_at cb)).
Proof.
  intros Hopen Hreached. rewrite allow_open by done.
  assert (Qltb 0 (Float64.sub (reset_timeout cb)
                    (Float64.sub now (opened_at cb))) = false) as ->; [|done].
  apply Qltb_ge. by apply Float64Proofs.sub_nonpos.
Qed.

(** C7 (amended). A closed breaker on which [record_failure] is called
    [threshold] times in a row is open, opened at the last of these
    calls.  The breaker measures the time since then as the float
    [clock() - opened_at].  Every [allow] for which this is less than
    [reset_timeout] returns false and changes nothing; an [allow] for
    which it has reached [reset_timeout], and so every [allow] made
    [reset_timeout] or more after the opening, returns true and leaves
    the breaker half-open with the failure counter at zero; from there
    one [record_success] closes it with the counter at zero, and one
    [record_failure] opens it again at once. *)
Theorem circuit_breaker_cycle cb times :
  state cb = st_closed ->
  0 <= failures cb ->
  0 < threshold cb ->
  length times = Z.to_nat (threshold cb) ->
  Float64.is_float (reset_timeout cb) ->
  let opened := record_failures times cb in
  state opened = st_open
  /\ last times = Some (opened_at opened)
  /\ (forall now,
        (Float64.sub now (opened_at opened) < reset_timeout cb)%Q ->
        allow now opened = (false, opened))
  /\ (forall now,
        (reset_timeout cb <= Float64.sub now (opened_at opened))%Q ->
        let trial := (allow now opened).2 in
        (allow now opened).1 = true
        /\ state trial = st_half_open
        /\ failures trial = 0
        /\ state (record_success trial) = st_closed
        /\ failures (record_success trial) = 0
        /\ (forall again,
              state (record_failure again trial) = st_open
              /\ opened_at (record_failure again trial) = again))
  /\ (forall now,
        (reset_timeout cb <= now - opened_at opened)%Q ->
        (allow now opened).1 = true
        /\ state (allow now opened).2 = st_half_open).
Proof.
  intros Hclosed Hfail Hthr Hlen Hfloat opened.
  destruct times as [|t0 times] using rev_ind; [simpl in Hlen; lia|].
  clear IHtimes. rewrite length_app in Hlen. simpl in Hlen.
  destruct (record_failures_opens times t0 cb) as [Hopen Hat]; [lia|].
  destruct (record_failures_frame (times ++ [t0]) cb) as (_ & Hreset & _).
  fold opened in Hopen, Hat, Hreset.
  split; [done|]. split; [by rewrite last_snoc, Hat|]. split; [|split].
  - intros now Hshort. apply allow_refuses; [done|by rewrite Hreset..].
  - intros now Hreached trial. subst trial.
    rewrite allow_trial by (by rewrite ?Hreset). simpl. repeat split.
  - intros now Hreached. rewrite allow_trial; [done|done|].
    rewrite Hreset. by apply Float64Proofs.round64_ge_float.
Qed.

Lemma circuit_breaker_cycle_witness :
  let opened :=
    record_failures [1; 2]%Q (MkCircuitBreaker 2 5 st_closed 0 0) in
  state opened = st_open
  /\ allow 6%Q opened = (false, opened)
  /\ (allow 7%Q opened).1 = true
  /\ state (allow 7%Q opened).2 = st_half_open.
Proof.
  destruct (circuit_breaker_cycle (MkCircuitBreaker 2 5 st_closed 0 0) [1; 2]%Q)
    as (Hopen & _ & Hblocked & Htrial & _).
  - reflexivity.
  - simpl. lia.
  - simpl. lia.
  - reflexivity.
  - vm_compute. reflexivity.
  - split; [exact Hopen|]. split.
    + apply Hblocked. vm_compute. reflexivity.
    + destruct (Htrial 7%Q) as (Hallow & Hhalf & _).
      * vm_compute. discriminate.
      * split; assumption.
Defined.

(** C7 as stated fails by a rounding: a breaker with a timeout of 60
    that one failure opens at clock reading 0.3 is asked at clock
    reading 60.3, less than 60 seconds after the opening; the
    subtraction gives exactly 60.0, and [allow] returns true and leaves
    the breaker half-open. *)
Theorem circuit_breaker_allows_before_timeout :
  let opened := record_failures [clock_03] breaker_of_one in
  state opened = st_open
  /\ opened_at opened = clock_03
  /\ (clock_603 - clock_03 < reset_timeout breaker_of_one)%Q
  /\ (Float64.sub clock_603 clock_03 == reset_timeout breaker_of_one)%Q
  /\ (allow clock_603 opened).1 = true
  /\ state (allow clock_603 opened).2 = st_half_open.
Proof. repeat split; vm_compute; reflexivity. Qed.

(** *** Retries and backoff *)

Lemma build_limits_length n delay max_delay :
  length (build_limits n delay max_delay) = n.
Proof. revert delay. induction n; intros; simpl; [done | by rewrite IHn]. Qed.

Lemma pow2_succ k :
  (inject_Z (2 ^ Z.of_nat (S k)) == 2 * inject_Z (2 ^ Z.of_nat k))%Q.
Proof.
  rewrite Nat2Z.inj_succ, Z.pow_succ_r by lia.
  by rewrite inject_Z_mult.
Qed.

Lemma pow2_ge_1 k : (1 <= inject_Z (2 ^ Z.of_nat k))%Q.
Proof.
  change 1%Q with (inject_Z 1). rewrite <- Zle_Qle.
  pose proof (Z.pow_pos_nonneg 2 (Z.of_nat k)). lia.
Qed.

Lemma Qmin_cases x y :
  ((x <= y)%Q /\ Qmin x y = x) \/ ((y < x)%Q /\ Qmin x y = y).
Proof.
  unfold Qmin, GenericMinMax.gmin.
  destruct (Qcompare_spec x y) as [Heq|Hlt|Hgt]; [left|left|right]; split;
    try done.
  - rewrite Heq. apply Qle_refl.
  - by apply Qlt_le_weak.
Qed.

(** The stored limits against the closed form. *)
Lemma build_limits_closed_form n delay max_delay k limit :
  (0 < delay)%Q -> (0 < max_delay)%Q ->
  build_limits n delay max_delay !! k = Some limit ->
  (limit == Qmin (delay * inject_Z (2 ^ Z.of_nat k)) max_delay)%Q.
Proof.
  revert delay k. induction n as [|n IH]; intros delay k Hd Hm; simpl; [done|].
  destruct k as [|k]; simpl.
  - intros [= <-]. apply Q.min_compat; [|reflexivity].
    change (inject_Z (2 ^ Z.of_nat 0)) with 1%Q. ring.
  - intros Hk. pose proof (pow2_ge_1 k) as Hp.
    pose proof (pow2_succ k) as Hs.
    assert (0 < Qmin (delay * 2) max_delay)%Q as Hd'.
    { destruct (Qmin_cases (delay * 2) max_delay) as [[_ ->]|[_ ->]]; lra. }
    rewrite (IH _ _ Hd' Hm Hk). rewrite Hs.
    set (p := inject_Z (2 ^ Z.of_nat k)) in *.
    destruct (Qmin_cases (delay * 2) max_delay) as [[Hle ->]|[Hlt ->]].
    + apply Q.min_compat; [ring | reflexivity].
    + rewrite Q.min_r by nra. rewrite Q.min_r by nra. reflexivity.
Qed.

Lemma retry_policy_init_ok attempts base_delay max_delay jitter policy :
  retry_policy_init attempts base_delay max_delay jitter = Ok policy ->
  0 <= attempts /\ (0 < base_delay)%Q /\ (0 < max_delay)%Q
  /\ policy = MkRetryPolicy attempts jitter
                (build_limits (Z.to_nat attempts) base_delay max_delay).
Proof.
  unfold retry_policy_init.
  destruct (Z.ltb_spec attempts 0); [done|].
  destruct (Qle_bool base_delay 0) eqn:Hb; [done|].
  destruct (Qle_bool max_delay 0) eqn:Hm; [done|]. simpl.
  intros [= <-]. rewrite Z.max_l by lia.
  repeat split; [done | | ]; apply Qltb_lt; unfold Qltb;
    by rewrite ?Hb, ?Hm.
Qed.

Section WithDiff.
Context {Diff : Type}.
Implicit Types (c : Client Diff) (batch : list Diff).

Lemma wait_frame duration c :
  retry_policy (wait duration c) = retry_policy c
  /\ sent (wait duration c) = sent c
  /\ slept (wait duration c) =
     slept c ++ filter (fun d => Qltb 0 d = true) [duration].
Proof.
  unfold wait. rewrite filter_cons, filter_nil.
  destruct (Qle_bool duration 0) eqn:Hle.
  - rewrite decide_False; [by rewrite app_nil_r|].
    rewrite not_true_iff_false. by apply Qltb_ge, Qle_bool_iff.
  - rewrite decide_True; [done|]. unfold Qltb. by rewrite Hle.
Qed.

(** One round of the loop when the sender fails retriably. *)
Lemma dispatch_loop_retry sender batch fuel attempt c e :
  sender (sent c) = Some e ->
  is_retriable e = true ->
  dispatch_loop sender batch (S fuel) attempt c =
  let session := (handle_session_error e (session_manager c)).2 in
  if attempt >=? max_attempts (retry_policy c)
  then Some (emit_dead_letter batch e
               (with_circuit (record_failure (clock c) (circuit c))
                             (inc_failure (metrics c)) session (count_send c)))
  else dispatch_loop sender batch fuel (attempt + 1)
         (wait (next_delay (attempt + 1) (retry_policy c))
            (with_circuit (record_failure (clock c) (circuit c))
                          (inc_retry (metrics c)) session (count_send c))).
Proof.
  intros Hsend Hre. cbn [dispatch_loop]. rewrite Hsend.
  cbn [count_send session_manager retry_policy circuit clock metrics].
  destruct (handle_session_error e (session_manager c)) as [inv session].
  rewrite Hre. cbn [orb negb snd]. rewrite orb_false_r.
  by destruct (attempt >=? max_attempts (retry_policy c)).
Qed.

Lemma next_delay_at policy n limit :
  limits policy !! n = Some limit ->
  next_delay (Z.of_nat n + 1 + 1) policy = jittered policy limit.
Proof.
  intros Hlimit. pose proof (lookup_lt_Some _ _ _ Hlimit) as Hlt.
  unfold next_delay.
  destruct (Z.leb_spec (Z.of_nat n + 1 + 1) 1); [lia|].
  rewrite Z.min_l by lia.
  destruct (Z.ltb_spec (Z.of_nat n + 1 + 1 - 2) 0); [lia|].
  replace (Z.to_nat (Z.of_nat n + 1 + 1 - 2)) with n by lia.
  by rewrite Hlimit.
Qed.

(** The loop from the attempt that leaves [j] retries, when every call
    of the sender fails with a retriable error. *)
Lemma dispatch_loop_all_fail sender batch policy :
  retries policy = Z.of_nat (length (limits policy)) ->
  (forall i, exists e, sender i = Some e /\ is_retriable e = true) ->
  forall j c,
    (j <= length (limits policy))%nat ->
    retry_policy c = policy ->
    exists c',
      dispatch_loop sender batch (S j)
        (Z.of_nat (length (limits policy) - j) + 1) c = Some c'
      /\ sent c' = (sent c + S j)%nat
      /\ slept c' =
         slept c ++
         filter (fun d => Qltb 0 d = true)
                (jittered policy <$> drop (length (limits policy) - j)
                                          (limits policy)).
Proof.
  intros Hretries Hfail. induction j as [|j IH]; intros c Hj Hpol.
  - destruct (Hfail (sent c)) as (e & Hsend & Hre).
    rewrite (dispatch_loop_retry _ _ _ _ _ e Hsend Hre). cbv zeta.
    unfold max_attempts. rewrite Hpol, Hretries.
    destruct (Z.geb_spec (Z.of_nat (length (limits policy) - 0) + 1)
                         (Z.of_nat (length (limits policy)) + 1)); [|lia].
    eexists. split; [done|]. simpl. split; [lia|].
    rewrite Nat.sub_0_r, drop_all. simpl. by rewrite app_nil_r.
  - destruct (Hfail (sent c)) as (e & Hsend & Hre).
    rewrite (dispatch_loop_retry _ _ _ _ _ e Hsend Hre). cbv zeta.
    unfold max_attempts. rewrite Hpol, Hretries.
    destruct (Z.geb_spec (Z.of_nat (length (limits policy) - S j) + 1)
                         (Z.of_nat (length (limits policy)) + 1)); [lia|].
    destruct (lookup_lt_is_Some_2 (limits policy) (length (limits policy) - S j))
      as [limit Hlimit]; [lia|].
    rewrite (next_delay_at _ _ _ Hlimit).
    match goal with
    | |- context [wait ?d ?c0] =>
        destruct (wait_frame d c0) as (Hwp & Hws & Hwsl);
        destruct (IH (wait d c0)) as (c' & Hrun & Hsent & Hslept);
        [lia | by rewrite Hwp |]
    end.
    replace (Z.of_nat (length (limits policy) - S j) + 1 + 1)
      with (Z.of_nat (length (limits policy) - j) + 1) by lia.
    rewrite Hrun. exists c'. split; [done|].
    rewrite Hsent, Hslept, Hws, Hwsl. simpl. split; [lia|].
    rewrite <- app_assoc. f_equal.
    rewrite (drop_S (limits policy) limit (length (limits policy) - S j))
      by done.
    replace (S (length (limits policy) - S j)) with (length (limits policy) - j)%nat
      by lia.
    rewrite fmap_cons. rewrite (filter_cons _ (jittered policy limit)).
    rewrite filter_cons, filter_nil.
    by destruct (decide (Qltb 0 (jittered policy limit) = true)).
Qed.

(** The loop of [_dispatch] ends within the fuel [dispatch] gives it,
    whatever the sender does. *)
Lemma dispatch_loop_total sender batch fuel attempt c :
  max_attempts (retry_policy c) < attempt + Z.of_nat fuel ->
  (0 < fuel)%nat ->
  is_Some (dispatch_loop sender batch fuel attempt c).
Proof.
  revert attempt c. induction fuel as [|fuel IH]; intros attempt c Hfuel Hpos; [lia|].
  cbn [dispatch_loop]. destruct (sender (sent c)) as [exc|]; [|done].
  cbn [count_send session_manager retry_policy circuit clock metrics].
  destruct (handle_session_error exc (session_manager c)) as [inv session].
  destruct (Z.geb_spec attempt (max_attempts (retry_policy c))); simpl; [done|].
  destruct (negb (is_retriable exc || inv)); [done|].
  apply IH.
  - match goal with
    | |- context [wait ?d ?c0] => destruct (wait_frame d c0) as (-> & _ & _)
    end.
    simpl. lia.
  - lia.
Qed.

Lemma dispatch_total sender batch c :
  0 <= retries (retry_policy c) -> is_Some (dispatch sender batch c).
Proof.
  intros Hretries. unfold dispatch. apply dispatch_loop_total; simpl.
  - unfold max_attempts in *. lia.
  - unfold max_attempts. lia.
Qed.

(** C6 (amended). With a retry policy built from [retry_attempts],
    [base_delay] and [max_delay], and a sender that fails with a
    retriable error on every call, a dispatch makes exactly
    [1 + retry_attempts] attempts.  The delay before the [n]-th retry
    is [max(0, jitter(limit_n))], where [limit_n] is the stored limit
    and equals [min(base_delay * 2^(n-1), max_delay)]; the client sleeps
    for it only when it is positive, so the sleeps observed are the
    positive ones among these delays, in order. *)
Theorem dispatch_retries_with_backoff attempts base_delay max_delay jitter
    policy sender batch c :
  retry_policy_init attempts base_delay max_delay jitter = Ok policy ->
  retry_policy c = policy ->
  (forall i, exists e, sender i = Some e /\ is_retriable e = true) ->
  (exists c',
      dispatch sender batch c = Some c'
      /\ sent c' = (sent c + Z.to_nat (1 + attempts))%nat
      /\ slept c' = slept c ++ backoff_sleeps policy)
  /\ length (limits policy) = Z.to_nat attempts
  /\ (forall n limit,
        limits policy !! n = Some limit ->
        (limit == backoff_limit base_delay max_delay (S n))%Q).
Proof.
  intros Hinit Hpol Hfail.
  destruct (retry_policy_init_ok _ _ _ _ _ Hinit) as (Hatt & Hb & Hm & Heq).
  assert (length (limits policy) = Z.to_nat attempts) as Hlen.
  { rewrite Heq. simpl. apply build_limits_length. }
  assert (retries policy = Z.of_nat (length (limits policy))) as Hretries.
  { rewrite Hlen, Heq. simpl. lia. }
  split; [|split; [done|]].
  - unfold dispatch.
    match goal with
    | |- context [dispatch_loop _ _ _ _ ?c0] =>
        destruct (dispatch_loop_all_fail sender batch policy Hretries Hfail
                    (length (limits policy)) c0)
          as (c' & Hrun & Hsent & Hslept); [lia | by simpl |]
    end.
    rewrite Nat.sub_diag in Hrun, Hslept. rewrite drop_0 in Hslept.
    change (Z.of_nat 0 + 1) with 1 in Hrun. cbn [sent slept] in Hsent, Hslept.
    exists c'. unfold max_attempts. rewrite Hpol, Hretries.
    replace (Z.to_nat (Z.of_nat (length (limits policy)) + 1))
      with (S (length (limits policy))) by lia.
    rewrite Hpol in Hrun.
    split; [exact Hrun|]. split; [lia | exact Hslept].
  - intros n limit Hn. unfold backoff_limit. rewrite Heq in Hn. simpl in Hn.
    replace (S n - 1)%nat with n by lia.
    by apply (build_limits_closed_form _ _ _ _ _ Hb Hm Hn).
Qed.
End WithDiff.

(** The retry test of the repository: base 0.2, max 0.8, two retries and a
    jitter that returns its limit give three attempts and the sleeps 0.2
    and 0.4. *)
Lemma dispatch_retries_with_backoff_witness :
  exists c',
    dispatch always_unreachable [tt]
             (client_for (MkRetryPolicy 2 (fun limit => limit)
                            [(1 # 5)%Q; (2 # 5)%Q]))
    = Some c'
    /\ sent c' = 3%nat
    /\ slept c' = [(1 # 5)%Q; (2 # 5)%Q].
Proof.
  destruct (dispatch_retries_with_backoff (Diff := unit) 2 (1 # 5) (4 # 5)
              (fun limit => limit)
              (MkRetryPolicy 2 (fun limit => limit) [(1 # 5)%Q; (2 # 5)%Q])
              always_unreachable [tt]
              (client_for (MkRetryPolicy 2 (fun limit => limit)
                             [(1 # 5)%Q; (2 # 5)%Q])))
    as ((c' & Hrun & Hsent & Hslept) & _).
  - reflexivity.
  - reflexivity.
  - intros i. exists RequestError. split; reflexivity.
  - exists c'. split; [exact Hrun|]. split; [exact Hsent | exact Hslept].
Defined.

(** [test_retry_policy_applies_exponential_backoff_with_jitter]: two
    retries counted, one permanent failure, the circuit still closed. *)
Example retry_test_metrics :
  (fun c => (retry_total (metrics c), failure_total (metrics c),
             circuit_state (metrics c), dead_letter_total (metrics c)))
    <$> dispatch always_unreachable [tt]
          (client_for (MkRetryPolicy 2 (fun limit => limit) [(1 # 5)%Q; (2 # 5)%Q]))
  = Some (2, 1, st_closed, 1).
Proof. vm_compute. reflexivity. Qed.

(** C6 as stated fails for a jitter that returns nothing positive: with
    base 0.2, max 0.8, two retries and a jitter that returns -1, the
    jitter applied to the two limits is -1 and -1, and the dispatch makes
    its three attempts without sleeping at all. *)
Lemma dispatch_skips_nonpositive_delays :
  retry_policy_init 2 (1 # 5) (4 # 5) (fun _ => (-1)%Q)
  = Ok (MkRetryPolicy 2 (fun _ => (-1)%Q) [(1 # 5)%Q; (2 # 5)%Q])
  /\ (fun limit : Q => (-1)%Q) <$> [(1 # 5)%Q; (2 # 5)%Q] = [(-1)%Q; (-1)%Q]
  /\ slept <$> dispatch always_unreachable [tt]
                 (client_for (MkRetryPolicy 2 (fun _ => (-1)%Q)
                                [(1 # 5)%Q; (2 # 5)%Q]))
     = Some []
  /\ sent <$> dispatch always_unreachable [tt]
                (client_for (MkRetryPolicy 2 (fun _ => (-1)%Q)
                               [(1 # 5)%Q; (2 # 5)%Q]))
     = Some 3%nat.
Proof. repeat split; vm_compute; reflexivity. Qed.

(** *** The token bucket *)

Lemma Qle_bool_false x y : Qle_bool x y = false <-> (y < x)%Q.
Proof.
  rewrite <- not_true_iff_false, Qle_bool_iff.
  split; [apply Qnot_le_lt | apply Qlt_not_le].
Qed.

Lemma token_bucket_init_ok rate_per_second cap now b :
  Float64.is_float rate_per_second -> Float64.is_float cap ->
  token_bucket_init rate_per_second cap now = Ok b -> bucket_ok b.
Proof.
  unfold token_bucket_init, Float64.is_float. intros Hrate Hcap.
  destruct (Qle_bool rate_per_second 0) eqn:Hr; [done|].
  destruct (Qle_bool cap 0) eqn:Hc; [done|].
  apply Qle_bool_false in Hr, Hc. intros [= <-].
  pose proof (Float64Proofs.round64_idempotent cap).
  unfold bucket_ok. simpl. repeat split; try done; lra.
Qed.

(** [_refill] returns at once, or adds the tokens of the time elapsed. *)
Lemma refill_cases now b :
  (Float64.sub now (updated_at b) <= 0)%Q /\ refill now b = b
  \/ (0 < Float64.sub now (updated_at b))%Q
     /\ refill now b =
        MkTokenBucket (rate b) (capacity b)
          (Qmin (capacity b)
             (Float64.add (tokens b)
                (Float64.mul (Float64.sub now (updated_at b)) (rate b))))
          now.
Proof.
  unfold refill. destruct (Qle_bool _ 0) eqn:He.
  - left. by apply Qle_bool_iff in He.
  - right. by apply Qle_bool_false in He.
Qed.

Lemma refill_ok now b :
  bucket_ok b ->
  bucket_ok (refill now b)
  /\ (tokens b <= tokens (refill now b))%Q
  /\ rate (refill now b) = rate b
  /\ capacity (refill now b) = capacity b.
Proof.
  intros (Hr & Hc & [Ht0 Ht1] & Hfc & Hft).
  destruct (refill_cases now b) as [[_ ->]|[Hpos ->]].
  - repeat split; try done. lra.
  - set (elapsed := Float64.sub now (updated_at b)) in *.
    assert (0 <= Float64.mul elapsed (rate b))%Q as Hgain.
    { apply Float64Proofs.round64_nonneg. apply Qmult_le_0_compat; lra. }
    assert (tokens b <= Float64.add (tokens b) (Float64.mul elapsed (rate b)))%Q
      as Hmore by (apply Float64Proofs.round64_ge_float; [done | lra]).
    pose proof (Q.le_min_l (capacity b)
                  (Float64.add (tokens b) (Float64.mul elapsed (rate b)))).
    assert (tokens b
            <= Qmin (capacity b)
                 (Float64.add (tokens b) (Float64.mul elapsed (rate b))))%Q
      by (by apply Q.min_glb).
    unfold bucket_ok. simpl. repeat split; try done; try lra.
    apply Float64Proofs.is_float_Qmin; [done|].
    apply Float64Proofs.round64_idempotent.
Qed.

(** A second [_refill] at the same clock reading changes nothing. *)
Lemma refill_twice now b : refill now (refill now b) = refill now b.
Proof.
  destruct (refill_cases now b) as [[Hle ->]|[_ ->]].
  - unfold refill. apply Qle_bool_iff in Hle. by rewrite Hle.
  - unfold refill at 1. cbn [updated_at].
    assert (Qle_bool (Float64.sub now now) 0 = true) as ->; [|done].
    apply Qle_bool_iff, Float64Proofs.sub_nonpos. lra.
Qed.

(** X12. [consume] of a non-negative amount, given as a float, keeps
    the tokens between 0 and the capacity, whatever the clock reads
    (also when it runs backwards) and however the sums and products are
    rounded.  The refill never takes tokens away; [consume] succeeds
    exactly when the refilled bucket holds the amount, and then the
    tokens are the float nearest to what is left. *)
Theorem consume_keeps_tokens_within_capacity now n b :
  bucket_ok b -> Float64.is_float n -> (0 <= n)%Q ->
  let r := consume now n b in
  bucket_ok r.2
  /\ (tokens b <= tokens (refill now b))%Q
  /\ (r.1 = true <-> (n <= tokens (refill now b))%Q)
  /\ (tokens r.2 ==
      if r.1 then Float64.sub (tokens (refill now b)) n
      else tokens (refill now b))%Q
  /\ (tokens r.2 <= tokens (refill now b))%Q.
Proof.
  intros Hok _ Hn. destruct (refill_ok now b Hok) as (Hok1 & Hmore & _).
  unfold consume. cbv zeta.
  destruct Hok1 as (Hr & Hc & [Ht0 Ht1] & Hfc & Hft).
  destruct (Qle_bool n (tokens (refill now b))) eqn:Hle; cbn [fst snd].
  - apply Qle_bool_iff in Hle.
    assert (0 <= Float64.sub (tokens (refill now b)) n)%Q as Hleft0
      by (by apply Float64Proofs.sub_nonneg).
    assert (Float64.sub (tokens (refill now b)) n <= tokens (refill now b))%Q
      as Hleft1 by (apply Float64Proofs.round64_le_float; [done | lra]).
    split; [|split; [done|split; [done|split; [done|simpl; lra]]]].
    unfold bucket_ok. simpl. repeat split; try done; try lra.
    apply Float64Proofs.round64_idempotent.
  - split; [done|]. split; [done|]. split; [|split; [done|lra]].
    split; [done|]. intros H%Qle_bool_iff. congruence.
Qed.

(** A bucket that holds a token gives it. *)
Lemma consume_ready now b :
  bucket_ok b -> (1 <= tokens b)%Q -> exists b', consume now 1 b = (true, b').
Proof.
  intros Hok Htoken. destruct (refill_ok now b Hok) as (_ & Hmore & _).
  unfold consume. cbv zeta.
  assert (Qle_bool 1 (tokens (refill now b)) = true) as ->
    by (apply Qle_bool_iff; lra).
  by eexists.
Qed.

(** X13. [time_until_ready] refills the bucket and does nothing else
    to it, so asking does not change what a [consume] at the same clock
    reading does, and asking again gives the same answer.  The wait it
    returns for an amount given as a float is never negative, and is
    zero when the bucket holds the amount. *)
Theorem time_until_ready_only_refills now n b :
  bucket_ok b -> Float64.is_float n ->
  let r := time_until_ready now n b in
  (0 <= r.1)%Q
  /\ r.2 = refill now b
  /\ ((consume now n b).1 = true -> r.1 = 0%Q)
  /\ consume now n r.2 = consume now n b
  /\ time_until_ready now n r.2 = r.
Proof.
  intros Hok _ r. destruct (refill_ok now b Hok) as ((Hr & _) & _).
  assert (r.2 = refill now b) as Hrefilled
    by (subst r; unfold time_until_ready; by destruct (Qle_bool _ _)).
  split; [|split; [done|split; [|split]]].
  - subst r. unfold time_until_ready. cbv zeta.
    destruct (Qle_bool n (tokens (refill now b))) eqn:Hle; cbn [fst].
    + lra.
    + apply Qle_bool_false in Hle.
      apply Float64Proofs.round64_nonneg. apply Qle_shift_div_l; [done|].
      pose proof (Float64Proofs.sub_nonneg n (tokens (refill now b))). lra.
  - subst r. unfold time_until_ready, consume. cbv zeta.
    by destruct (Qle_bool n (tokens (refill now b))).
  - rewrite Hrefilled. unfold consume. cbv zeta. by rewrite refill_twice.
  - rewrite Hrefilled. subst r. unfold time_until_ready. cbv zeta.
    by rewrite refill_twice.
Qed.

(** The wait is not always enough.  A bucket filled at 49 tokens per
    second is told to wait the float nearest to 1/49; the refill after
    that wait gives the float below 1, and [consume] fails again. *)
Example advised_wait_can_fall_short :
  let r := time_until_ready 0 1 bucket_of_49 in
  (0 < r.1)%Q
  /\ (tokens (refill (0 + r.1) r.2) < 1)%Q
  /\ (consume (0 + r.1) 1 r.2).1 = false.
Proof. repeat split; vm_compute; reflexivity. Qed.

(** *** What a dispatch counts *)

Section Accounting.
Context {Diff : Type}.
Implicit Types (c : Client Diff) (batch : list Diff).

Lemma wait_keeps duration c :
  metrics (wait duration c) = metrics c
  /\ dead_lettered (wait duration c) = dead_lettered c
  /\ dead_letter_handler (wait duration c) = dead_letter_handler c
  /\ session_manager (wait duration c) = session_manager c
  /\ circuit (wait duration c) = circuit c.
Proof. unfold wait. by destruct (Qle_bool duration 0). Qed.

(** What one run of the loop adds to the counters. *)
Lemma dispatch_loop_accounts sender batch fuel attempt c c' :
  dispatch_loop sender batch fuel attempt c = Some c' ->
  let m := metrics c in
  let m' := metrics c' in
  requests_total m' = requests_total m
  /\ success_total m' + dead_letter_total m'
     = success_total m + dead_letter_total m + Z.of_nat (length batch)
  /\ Z.of_nat (sent c') = Z.of_nat (sent c) + (retry_total m' - retry_total m) + 1
  /\ 0 <= retry_total m' - retry_total m
     <= Z.max 0 (max_attempts (retry_policy c) - attempt)
  /\ (failure_total m' = failure_total m + 1 /\ success_total m' = success_total m
      \/ failure_total m' = failure_total m
         /\ dead_letter_total m' = dead_letter_total m).
Proof.
  revert attempt c. induction fuel as [|fuel IH]; intros attempt c; [done|].
  cbn [dispatch_loop]. destruct (sender (sent c)) as [exc|].
  - cbn [count_send session_manager retry_policy circuit clock metrics].
    destruct (handle_session_error exc (session_manager c)) as [inv session].
    destruct (Z.geb_spec attempt (max_attempts (retry_policy c))) as [Hlast|Hmore];
      cbn [orb].
    + intros [= <-]. simpl. unfold inc_dead_letters.
      destruct (Z.leb_spec (Z.of_nat (length batch)) 0); simpl; lia.
    + destruct (negb (is_retriable exc || inv)).
      * intros [= <-]. simpl. unfold inc_dead_letters.
        destruct (Z.leb_spec (Z.of_nat (length batch)) 0); simpl; lia.
      * intros Hrun. apply IH in Hrun. cbv zeta in Hrun.
        match type of Hrun with
        | context [wait ?d ?c0] =>
            destruct (wait_keeps d c0) as (Hm & _);
            destruct (wait_frame d c0) as (Hp & Hs & _);
            rewrite Hm, Hp, Hs in Hrun
        end.
        simpl in Hrun. simpl. lia.
  - intros [= <-]. simpl. lia.
Qed.

(** X14. Whatever the request sender does, [_dispatch] returns, counts
    one request, and accounts for every diff of the batch exactly once:
    the batch length is added either to [success_total] or to
    [dead_letter_total], never to both.  The sender is called once more
    than the retries counted, and those are at most [retry_attempts]. *)
Theorem dispatch_accounts_for_every_diff sender batch c :
  0 <= retries (retry_policy c) ->
  exists c',
    dispatch sender batch c = Some c'
    /\ requests_total (metrics c') = requests_total (metrics c) + 1
    /\ success_total (metrics c') + dead_letter_total (metrics c')
       = success_total (metrics c) + dead_letter_total (metrics c)
         + Z.of_nat (length batch)
    /\ Z.of_nat (sent c') - Z.of_nat (sent c)
       = retry_total (metrics c') - retry_total (metrics c) + 1
    /\ 0 <= retry_total (metrics c') - retry_total (metrics c)
       <= retries (retry_policy c)
    /\ (failure_total (metrics c') = failure_total (metrics c) + 1
        /\ success_total (metrics c') = success_total (metrics c)
        \/ failure_total (metrics c') = failure_total (metrics c)
           /\ dead_letter_total (metrics c') = dead_letter_total (metrics c)).
Proof.
  intros Hretries.
  destruct (dispatch_total sender batch c Hretries) as [c' Hrun].
  exists c'. split; [done|]. unfold dispatch in Hrun.
  apply dispatch_loop_accounts in Hrun. cbv zeta in Hrun.
  unfold max_attempts in Hrun. simpl in Hrun. lia.
Qed.

(** X15. An error that is not retriable and does not invalidate the
    session ends the dispatch at the first attempt: one call of the
    sender, no sleep, no retry counted, one failure recorded by the
    circuit breaker, and the whole batch handed to the dead-letter
    handler with that error. *)
Theorem non_retriable_error_is_not_retried sender batch c e :
  0 <= retries (retry_policy c) ->
  sender (sent c) = Some e ->
  is_retriable e = false ->
  (handle_session_error e (session_manager c)).1 = false ->
  exists c',
    dispatch sender batch c = Some c'
    /\ sent c' = S (sent c)
    /\ slept c' = slept c
    /\ retry_total (metrics c') = retry_total (metrics c)
    /\ failure_total (metrics c') = failure_total (metrics c) + 1
    /\ circuit c' = record_failure (clock c) (circuit c)
    /\ dead_lettered c' =
       (if dead_letter_handler c
        then dead_lettered c ++ ((fun d => (d, e)) <$> batch)
        else dead_lettered c).
Proof.
  intros Hretries Hsend Hre Hsession. unfold dispatch.
  destruct (Z.to_nat (max_attempts (retry_policy c))) as [|fuel] eqn:Hfuel.
  { unfold max_attempts in Hfuel. lia. }
  cbn [dispatch_loop sent]. rewrite Hsend.
  cbn [count_send session_manager retry_policy circuit clock metrics].
  destruct (handle_session_error e (session_manager c)) as [inv session].
  simpl in Hsession. subst inv. rewrite Hre. cbn [orb negb].
  rewrite orb_true_r. eexists. split; [done|]. simpl.
  unfold inc_dead_letters.
  by destruct (Z.of_nat (length batch) <=? 0).
Qed.

End Accounting.

Lemma dispatch_accounts_for_every_diff_witness :
  exists c',
    dispatch always_unreachable [tt; tt; tt]
             (client_for (MkRetryPolicy 2 (fun limit => limit) [1%Q; 2%Q]))
    = Some c'
    /\ dead_letter_total (metrics c') = 3
    /\ sent c' = 3%nat.
Proof.
  destruct (dispatch_accounts_for_every_diff always_unreachable [tt; tt; tt]
              (client_for (MkRetryPolicy 2 (fun limit => limit) [1%Q; 2%Q])))
    as (c' & Hrun & _).
  - simpl. lia.
  - exists c'. split; [exact Hrun|].
    vm_compute in Hrun. injection Hrun as <-. split; reflexivity.
Defined.

Lemma non_retriable_error_is_not_retried_witness :
  exists c',
    dispatch rejects_payload [tt]
             (client_for (MkRetryPolicy 2 (fun limit => limit) [1%Q; 2%Q]))
    = Some c'
    /\ sent c' = 1%nat
    /\ slept c' = [].
Proof.
  destruct (non_retriable_error_is_not_retried rejects_payload [tt]
              (client_for (MkRetryPolicy 2 (fun limit => limit) [1%Q; 2%Q]))
              PayloadTooLargeError)
    as (c' & Hrun & Hsent & Hslept & _).
  - simpl. lia.
  - reflexivity.
  - reflexivity.
  - reflexivity.
  - exists c'. split; [exact Hrun|]. split; [exact Hsent | exact Hslept].
Defined.


(** *** The queue: [enqueue], [_acquire_batch] and [drain_once] *)

Section Queue.
Context {Diff : Type}.
Implicit Types (w : QueuedClient Diff) (c : Client Diff).

Lemma enqueue_all_cons d ds w :
  enqueue_all (d :: ds) w = enqueue_all ds (enqueue d w).2.
Proof. done. Qed.

(** X17. The queue never grows beyond [queue_capacity].  Of the diffs a
    producer enqueues in a row, those that fit are appended in order
    and every later one is refused: each refusal is counted in
    [queue_dropped_total] and passed to the backpressure handler when
    there is one. *)
Theorem enqueue_keeps_the_first_that_fit diffs w :
  Z.of_nat (length (queue w)) <= queue_capacity w ->
  let w' := enqueue_all diffs w in
  let room := (Z.to_nat (queue_capacity w) - length (queue w))%nat in
  queue w' = queue w ++ take room diffs
  /\ Z.of_nat (length (queue w')) <= queue_capacity w
  /\ queue_dropped_total (metrics (worker w'))
     = queue_dropped_total (metrics (worker w))
       + Z.of_nat (length (drop room diffs))
  /\ backpressured w' =
     backpressured w
     ++ (if backpressure_handler w then drop room diffs else []).
Proof.
  revert w. induction diffs as [|d diffs IH]; intros w Hfits.
  - cbv zeta. rewrite take_nil, drop_nil, app_nil_r. simpl.
    split; [done|]. split; [done|]. split; [lia|].
    by destruct (backpressure_handler w); rewrite app_nil_r.
  - rewrite enqueue_all_cons. cbv zeta. unfold enqueue.
    destruct (Z.geb_spec (Z.of_nat (length (queue w))) (queue_capacity w))
      as [Hfull|Hroom]; cbn [snd].
    + match goal with
      | |- context [enqueue_all diffs ?w1] =>
          pose proof (IH w1) as IH1;
          remember (enqueue_all diffs w1) as w' eqn:Hw'; clear Hw'
      end.
      cbv zeta in IH1.
      cbn [queue queue_capacity backpressure_handler backpressured worker
           set_metrics metrics inc_queue_dropped queue_dropped_total] in IH1.
      destruct IH1 as (Hq & Hlen & Hdrop & Hback); [lia|].
      replace (Z.to_nat (queue_capacity w) - length (queue w))%nat with O in *
        by lia.
      rewrite take_0, drop_0 in *. rewrite Hq, Hdrop, Hback.
      rewrite app_nil_r. split; [done|]. split; [lia|].
      split; [simpl; lia|].
      destruct (backpressure_handler w); [by rewrite <- app_assoc|].
      by rewrite !app_nil_r.
    + match goal with
      | |- context [enqueue_all diffs ?w1] =>
          pose proof (IH w1) as IH1;
          remember (enqueue_all diffs w1) as w' eqn:Hw'; clear Hw'
      end.
      cbv zeta in IH1.
      cbn [queue queue_capacity backpressure_handler backpressured worker
           set_metrics metrics set_queue_depth queue_dropped_total] in IH1.
      rewrite length_app in IH1. simpl in IH1.
      destruct IH1 as (Hq & Hlen & Hdrop & Hback); [lia|].
      destruct (Z.to_nat (queue_capacity w) - length (queue w))%nat
        as [|room] eqn:Hr; [lia|].
      replace (Z.to_nat (queue_capacity w) - (length (queue w) + 1))%nat
        with room in * by lia.
      rewrite Hq, Hdrop, Hback. simpl. rewrite <- app_assoc.
      split; [done|]. split; [|done].
      rewrite Hq in Hlen. by rewrite <- app_assoc in Hlen.
Qed.

Lemma take_batch_spec limit (pending batch : list Diff) :
  take_batch limit pending batch =
  let k := Z.to_nat (limit - Z.of_nat (length batch)) in
  (batch ++ take k pending, drop k pending).
Proof.
  revert batch. induction pending as [|d pending IH]; intros batch; simpl.
  - by rewrite take_nil, drop_nil, app_nil_r.
  - destruct (Z.ltb_spec (Z.of_nat (length batch)) limit) as [Hlt|Hge].
    + rewrite IH. cbv zeta. rewrite length_app. simpl.
      replace (Z.to_nat (limit - Z.of_nat (length batch)))
        with (S (Z.to_nat (limit - Z.of_nat (length batch + 1)))) by lia.
      simpl. by rewrite <- app_assoc.
    + replace (Z.to_nat (limit - Z.of_nat (length batch))) with O by lia.
      simpl. by rewrite app_nil_r.
Qed.

Lemma allow_false now cb :
  (allow now cb).1 = false ->
  (allow now cb).2 = cb /\ (0 < time_until_allow now cb)%Q.
Proof.
  unfold allow. destruct (state cb); simpl; [done| |done].
  destruct (Qltb 0 (time_until_allow now cb)) eqn:Hpos; [|done].
  intros _. split; [done|]. by apply Qltb_lt.
Qed.

Lemma wait_positive nap (c : Client Diff) :
  (0 < nap)%Q ->
  wait nap c =
  MkClient (retry_policy c) (circuit c) (metrics c) (session_manager c)
           (dead_letter_handler c) (Float64.add (clock c) nap)
           (slept c ++ [nap]) (sent c) (dead_lettered c).
Proof.
  intros Hpos. unfold wait.
  destruct (Qle_bool nap 0) eqn:E; [apply Qle_bool_iff in E; lra | done].
Qed.

Lemma acquire_batch_round fuel w :
  acquire_batch (S fuel) w =
  match queue w with
  | [] => Some (None, w)
  | _ :: _ =>
      let c := worker w in
      let '(allowed, cb) := allow (clock c) (circuit c) in
      if negb allowed then
        let c := set_metrics
                   (set_circuit_state (state cb)
                      (inc_circuit_open (metrics c)))
                   (set_circuit cb c) in
        acquire_batch fuel
          (MkQueuedClient (queue_capacity w) (max_batch_tags w)
             (queue w) (bucket w) (backpressure_handler w)
             (backpressured w)
             (wait (time_until_allow (clock c) cb) c))
      else
        let c := set_circuit cb c in
        let '(consumed, b) := consume (clock c) 1 (bucket w) in
        if negb consumed then
          let c := set_metrics (inc_throttled (metrics c)) c in
          let '(wait_time, b) := time_until_ready (clock c) 1 b in
          acquire_batch fuel
            (MkQueuedClient (queue_capacity w) (max_batch_tags w)
               (queue w) b (backpressure_handler w)
               (backpressured w)
               (wait (if Qltb 0 wait_time then wait_time else (1 # 100)%Q)
                     c))
        else
          let '(batch, rest) :=
            take_batch (max_batch_tags w) (queue w) [] in
          Some (Some batch,
                MkQueuedClient (queue_capacity w) (max_batch_tags w)
                  rest b (backpressure_handler w) (backpressured w)
                  (set_metrics
                     (set_queue_depth (Z.of_nat (length rest)) (metrics c))
                     c))
  end.
Proof. done. Qed.

(** The round in which the circuit lets the batch through and the
    bucket has a token. *)
Lemma acquire_batch_ready fuel w cb b :
  queue w <> [] ->
  allow (clock (worker w)) (circuit (worker w)) = (true, cb) ->
  consume (clock (worker w)) 1 (bucket w) = (true, b) ->
  exists w',
    acquire_batch (S fuel) w
    = Some (Some (take (Z.to_nat (max_batch_tags w)) (queue w)), w')
    /\ queue w' = drop (Z.to_nat (max_batch_tags w)) (queue w)
    /\ queue_depth (metrics (worker w')) = Z.of_nat (length (queue w'))
    /\ slept (worker w') = slept (worker w)
    /\ clock (worker w') = clock (worker w)
    /\ retry_policy (worker w') = retry_policy (worker w)
    /\ success_total (metrics (worker w')) = success_total (metrics (worker w))
    /\ dead_letter_total (metrics (worker w'))
       = dead_letter_total (metrics (worker w))
    /\ throttled_total (metrics (worker w'))
       = throttled_total (metrics (worker w))
    /\ circuit_open_total (metrics (worker w'))
       = circuit_open_total (metrics (worker w)).
Proof.
  intros Hq Hallow Hconsume. rewrite acquire_batch_round.
  destruct (queue w) as [|d q] eqn:Hqueue; [done|]. cbv zeta.
  rewrite Hallow. cbn [negb set_circuit clock]. rewrite Hconsume. cbn [negb].
  rewrite take_batch_spec. cbv zeta. cbn [length app].
  rewrite Z.sub_0_r. eexists. split; [done|]. simpl. repeat split. lia.
Qed.

(** A round in which the circuit refuses or the bucket lacks a token:
    one refusal is counted, the client sleeps once, for a positive
    time, and the loop goes on with the queue as it was. *)
Lemma acquire_batch_refused fuel w :
  queue w <> [] ->
  (allow (clock (worker w)) (circuit (worker w))).1 = false
  \/ (consume (clock (worker w)) 1 (bucket w)).1 = false ->
  exists w1 nap,
    acquire_batch (S fuel) w = acquire_batch fuel w1
    /\ (0 < nap)%Q
    /\ slept (worker w1) = slept (worker w) ++ [nap]
    /\ clock (worker w1) = Float64.add (clock (worker w)) nap
    /\ queue w1 = queue w
    /\ max_batch_tags w1 = max_batch_tags w
    /\ retry_policy (worker w1) = retry_policy (worker w)
    /\ success_total (metrics (worker w1)) = success_total (metrics (worker w))
    /\ dead_letter_total (metrics (worker w1))
       = dead_letter_total (metrics (worker w))
    /\ throttled_total (metrics (worker w1))
       + circuit_open_total (metrics (worker w1))
       = throttled_total (metrics (worker w))
         + circuit_open_total (metrics (worker w)) + 1.
Proof.
  intros Hq Hrefused. rewrite acquire_batch_round.
  destruct (queue w) as [|d q] eqn:Hqueue; [done|]. cbv zeta.
  destruct (allow (clock (worker w)) (circuit (worker w))) as [allowed cb]
    eqn:Hal.
  destruct allowed; cbn [negb].
  - destruct Hrefused as [Hno|Hno]; [done|].
    destruct (consume (clock (worker w)) 1 (bucket w)) as [consumed b] eqn:Hco.
    simpl in Hno. subst consumed.
    cbn [negb set_circuit clock]. rewrite Hco. cbn [negb].
    change (clock (set_metrics _ _)) with (clock (worker w)).
    destruct (time_until_ready (clock (worker w)) 1 b) as [wait_time b2].
    set (nap := if Qltb 0 wait_time then wait_time else (1 # 100)%Q).
    assert (0 < nap)%Q as Hnap.
    { subst nap. destruct (Qltb 0 wait_time) eqn:E; [by apply Qltb_lt | done]. }
    eexists _, nap. split; [done|]. split; [done|].
    rewrite wait_positive by done. simpl. repeat split. lia.
  - destruct (allow_false (clock (worker w)) (circuit (worker w)))
      as [Hcb Hnap]; [by rewrite Hal|].
    rewrite Hal in Hcb. simpl in Hcb. subst cb.
    change (clock (set_metrics _ _)) with (clock (worker w)).
    eexists _, _. split; [done|]. split; [exact Hnap|].
    rewrite wait_positive by done. simpl. repeat split. lia.
Qed.

(** What [_acquire_batch] has done when it returns, after any number of
    rounds. *)
Lemma acquire_batch_returned fuel w result w' :
  acquire_batch fuel w = Some (result, w') ->
  result = match queue w with
           | [] => None
           | _ :: _ => Some (take (Z.to_nat (max_batch_tags w)) (queue w))
           end
  /\ queue w' = drop (Z.to_nat (max_batch_tags w)) (queue w)
  /\ (queue w <> [] ->
      queue_depth (metrics (worker w')) = Z.of_nat (length (queue w')))
  /\ (exists naps,
        slept (worker w') = slept (worker w) ++ naps
        /\ Forall (fun nap => (0 < nap)%Q) naps
        /\ Z.of_nat (length naps)
           = throttled_total (metrics (worker w'))
             + circuit_open_total (metrics (worker w'))
             - throttled_total (metrics (worker w))
             - circuit_open_total (metrics (worker w)))
  /\ retry_policy (worker w') = retry_policy (worker w)
  /\ success_total (metrics (worker w')) = success_total (metrics (worker w))
  /\ dead_letter_total (metrics (worker w'))
     = dead_letter_total (metrics (worker w)).
Proof.
  revert w. induction fuel as [|fuel IH]; intros w Hrun; [done|].
  destruct (queue w) as [|d q] eqn:Hqueue.
  { rewrite acquire_batch_round, Hqueue in Hrun. injection Hrun as <- <-.
    rewrite Hqueue, drop_nil. split; [done|]. split; [done|]. split; [done|].
    split; [|done].
    exists []. rewrite app_nil_r. split; [done|]. split; [done|]. simpl. lia. }
  assert (queue w <> []) as Hq by (by rewrite Hqueue).
  destruct (allow (clock (worker w)) (circuit (worker w))) as [allowed cb]
    eqn:Hal.
  destruct (consume (clock (worker w)) 1 (bucket w)) as [consumed b] eqn:Hco.
  destruct (allowed && consumed) eqn:Hgo.
  - apply andb_true_iff in Hgo as [-> ->].
    destruct (acquire_batch_ready fuel w cb b Hq Hal Hco)
      as (w1 & Hrun1 & Hrest & Hdepth & Hslept & Hclock & Hpol & Hsucc
          & Hdead & Hthr & Hcirc).
    rewrite Hrun1 in Hrun. injection Hrun as <- <-.
    rewrite Hqueue in *. split; [done|]. split; [done|]. split; [done|].
    split; [|done].
    exists []. rewrite app_nil_r. split; [done|]. split; [done|]. simpl. lia.
  - destruct (acquire_batch_refused fuel w Hq)
      as (w1 & nap & Hstep & Hnap & Hslept & Hclock & Hq1 & Hmax & Hpol
          & Hsucc & Hdead & Hcount).
    { rewrite Hal, Hco. simpl. apply andb_false_iff in Hgo. tauto. }
    rewrite Hstep in Hrun.
    destruct (IH w1 Hrun)
      as (Hres & Hrest & Hdepth & (naps & Hnaps & Hpos & Hlen)
          & Hpol' & Hsucc' & Hdead').
    rewrite Hq1, Hmax in *. rewrite Hqueue in *.
    split; [done|]. split; [done|]. split; [done|].
    split; [|split; [|split]; congruence].
    exists (nap :: naps). rewrite Hnaps, Hslept, <- app_assoc.
    split; [done|]. split; [by constructor|]. simpl length. lia.
Qed.


(** X19. [drain_once] loses no diff: whenever it returns, what has left
    the queue is counted in [success_total] or [dead_letter_total], so
    the queue length plus these two counters is the same before and
    after, whatever the sender does.  It reports a batch as handled
    exactly when the queue held a diff and [max_batch_tags] is
    positive.  It returns after one round of [_acquire_batch] when the
    circuit lets the batch through and the bucket holds a token. *)
Theorem drain_once_loses_no_diff fuel sender w :
  0 <= retries (retry_policy (worker w)) ->
  (forall handled w',
     drain_once fuel sender w = Some (handled, w') ->
     queue w' = drop (Z.to_nat (max_batch_tags w)) (queue w)
     /\ Z.of_nat (length (queue w'))
        + success_total (metrics (worker w'))
        + dead_letter_total (metrics (worker w'))
        = Z.of_nat (length (queue w))
          + success_total (metrics (worker w))
          + dead_letter_total (metrics (worker w))
     /\ (handled = true <-> queue w <> [] /\ 0 < max_batch_tags w))
  /\ (queue w <> [] ->
      (allow (clock (worker w)) (circuit (worker w))).1 = true ->
      bucket_ok (bucket w) -> (1 <= tokens (bucket w))%Q ->
      exists handled w', drain_once (S fuel) sender w = Some (handled, w')).
Proof.
  intros Hretries. split.
  - intros handled w'. unfold drain_once.
    destruct (acquire_batch fuel w) as [[result w1]|] eqn:Hrun; [|done].
    destruct (acquire_batch_returned fuel w result w1 Hrun)
      as (Hres & Hrest & _ & _ & Hpol & Hsucc & Hdead).
    pose proof (take_drop (Z.to_nat (max_batch_tags w)) (queue w)) as Hsplit.
    apply (f_equal length) in Hsplit. rewrite length_app, <- Hrest in Hsplit.
    destruct (queue w) as [|d0 q0] eqn:Hqueue.
    { subst result. intros [= <- <-]. rewrite drop_nil in *.
      rewrite Hrest. split; [done|]. simpl. split; [lia|].
      split; [done | by intros [? _]]. }
    subst result. rewrite <- Hqueue in *.
    destruct (take (Z.to_nat (max_batch_tags w)) (queue w)) as [|d batch]
      eqn:Hbatch.
    + intros [= <- <-]. split; [done|]. simpl in Hsplit. split; [lia|].
      split; [done|]. intros [_ Hpos]. rewrite Hqueue in Hbatch.
      destruct (Z.to_nat (max_batch_tags w)) eqn:Hk; [lia | done].
    + destruct (dispatch sender (d :: batch) (worker w1)) as [c|] eqn:Hc;
        [|done].
      intros [= <- <-]. cbn [queue worker]. split; [done|].
      unfold dispatch in Hc. apply dispatch_loop_accounts in Hc. cbv zeta in Hc.
      cbn [metrics inc_requests success_total dead_letter_total] in Hc.
      destruct Hc as (_ & Hsum & _).
      split; [lia|]. split; [|done]. intros _. split; [by rewrite Hqueue|].
      destruct (Z.to_nat (max_batch_tags w)) eqn:Hk; [|lia].
      by rewrite take_0 in Hbatch.
  - intros Hq Hallow Hok Htoken.
    destruct (allow (clock (worker w)) (circuit (worker w))) as [allowed cb]
      eqn:Hal.
    simpl in Hallow. subst allowed.
    destruct (consume_ready (clock (worker w)) (bucket w) Hok Htoken)
      as [b Hco].
    destruct (acquire_batch_ready fuel w cb b Hq Hal Hco)
      as (w1 & Hrun & _ & _ & _ & _ & Hpol & _).
    unfold drain_once. rewrite Hrun.
    destruct (take (Z.to_nat (max_batch_tags w)) (queue w)) as [|d batch];
      [by eexists _, _|].
    destruct (dispatch_total sender (d :: batch) (worker w1)) as [c Hc];
      [by rewrite Hpol|].
    rewrite Hc. by eexists _, _.
Qed.
End Queue.

Lemma empty_bucket_ok : bucket_ok empty_bucket.
Proof. unfold bucket_ok. simpl. repeat split; try lra; reflexivity. Qed.

Lemma consume_keeps_tokens_within_capacity_witness :
  bucket_ok (consume (1 # 4) 1 empty_bucket).2
  /\ (consume (1 # 4) 1 empty_bucket).1 = false.
Proof.
  split; [|reflexivity].
  apply (consume_keeps_tokens_within_capacity (1 # 4) 1 empty_bucket).
  - exact empty_bucket_ok.
  - exact Float64Proofs.is_float_1.
  - lra.
Defined.

Lemma time_until_ready_only_refills_witness :
  ((time_until_ready (1 # 4) 1 empty_bucket).1 == 1 # 4)%Q
  /\ consume (1 # 4) 1 (time_until_ready (1 # 4) 1 empty_bucket).2
     = consume (1 # 4) 1 empty_bucket.
Proof.
  split; [vm_compute; reflexivity|].
  apply (time_until_ready_only_refills (1 # 4) 1 empty_bucket).
  - exact empty_bucket_ok.
  - exact Float64Proofs.is_float_1.
Defined.

Lemma enqueue_keeps_the_first_that_fit_witness :
  queue (enqueue_all [tt; tt; tt; tt; tt]
           (MkQueuedClient 3 2 [tt] empty_bucket true []
              (client_for (MkRetryPolicy 2 (fun limit => limit) [1%Q; 2%Q]))))
  = [tt; tt; tt].
Proof.
  apply (enqueue_keeps_the_first_that_fit [tt; tt; tt; tt; tt]
           (MkQueuedClient 3 2 [tt] empty_bucket true []
              (client_for (MkRetryPolicy 2 (fun limit => limit) [1%Q; 2%Q])))).
  simpl. lia.
Defined.


Lemma drain_once_loses_no_diff_witness :
  exists w',
    drain_once 3 always_unreachable throttled_client = Some (true, w')
    /\ queue w' = [tt]
    /\ dead_letter_total (metrics (worker w')) = 2.
Proof.
  destruct (drain_once 3 always_unreachable throttled_client)
    as [[handled w']|] eqn:Hrun; [|vm_compute in Hrun; discriminate].
  destruct (drain_once_loses_no_diff 3 always_unreachable throttled_client)
    as [Hreturned _]; [simpl; lia|].
  destruct (Hreturned handled w' Hrun) as (Hrest & _ & Hhandled).
  destruct Hhandled as [_ Hyes].
  assert (handled = true) as ->
    by (apply Hyes; split; [discriminate | reflexivity]).
  exists w'. split; [reflexivity|]. split; [exact Hrest|].
  vm_compute in Hrun. injection Hrun as <-. reflexivity.
Defined.

Lemma pow2_mono i j :
  (i <= j)%nat -> (inject_Z (2 ^ Z.of_nat i) <= inject_Z (2 ^ Z.of_nat j))%Q.
Proof.
  intros Hij. rewrite <- Zle_Qle. apply Z.pow_le_mono_r; lia.
Qed.

(** X20. The backoff limits of a retry policy are positive, never
    decrease from one retry to the next, and never exceed [max_delay];
    with a jitter that stays below its limit every delay
    [next_delay] returns lies between 0 and [max_delay], for any
    attempt number. *)
Theorem backoff_delays_are_capped attempts base_delay max_delay jitter policy :
  retry_policy_init attempts base_delay max_delay jitter = Ok policy ->
  (forall limit, (jitter limit <= limit)%Q) ->
  (forall i j li lj,
      (i <= j)%nat ->
      all_delays policy !! i = Some li -> all_delays policy !! j = Some lj ->
      (0 < li)%Q /\ (li <= lj)%Q /\ (lj <= max_delay)%Q)
  /\ forall attempt,
       (0 <= next_delay attempt policy)%Q
       /\ (next_delay attempt policy <= max_delay)%Q.
Proof.
  intros Hinit Hjitter.
  apply retry_policy_init_ok in Hinit as (Hattempts & Hbase & Hmax & ->).
  unfold all_delays. cbn [limits].
  assert (forall k limit,
             build_limits (Z.to_nat attempts) base_delay max_delay !! k
             = Some limit ->
             (0 < limit)%Q /\ (limit <= max_delay)%Q) as Hbound.
  { intros k limit Hk.
    rewrite (build_limits_closed_form _ _ _ _ _ Hbase Hmax Hk).
    pose proof (pow2_ge_1 k) as Hp.
    destruct (Qmin_cases (base_delay * inject_Z (2 ^ Z.of_nat k)) max_delay)
      as [[Hle ->]|[Hlt ->]]; split; try lra; nra. }
  split.
  - intros i j li lj Hij Hi Hj.
    destruct (Hbound _ _ Hi) as [Hpos _]. destruct (Hbound _ _ Hj) as [_ Hcap].
    split; [done|]. split; [|done].
    rewrite (build_limits_closed_form _ _ _ _ _ Hbase Hmax Hi).
    rewrite (build_limits_closed_form _ _ _ _ _ Hbase Hmax Hj).
    apply Q.min_le_compat_r.
    pose proof (pow2_mono i j Hij). pose proof (pow2_ge_1 i). nra.
  - intros attempt. unfold next_delay. cbn [limits jitter_fn].
    destruct (attempt <=? 1); [lra|].
    destruct (_ <? 0); [lra|].
    destruct (build_limits _ _ _ !! _) as [limit|] eqn:Hk; [|lra].
    destruct (Hbound _ _ Hk) as [Hpos Hcap]. specialize (Hjitter limit).
    destruct (Q.max_spec 0 (jitter limit)) as [[? ->]|[? ->]]; lra.
Qed.

Lemma backoff_delays_are_capped_witness :
  (next_delay 7 (MkRetryPolicy 3 (fun limit => limit)
                   (build_limits 3 1 3)) <= 3)%Q.
Proof.
  apply (backoff_delays_are_capped 3 1 3 (fun limit => limit)).
  - reflexivity.
  - intros limit. lra.
Defined.
End CanaryProofs.

Module SparkplugProofs.
Import Sparkplug.

Lemma empty_body_not_wrapper payload :
  body payload = [] -> is_compressed_wrapper payload = false.
Proof.
  intros Hbody. unfold is_compressed_wrapper. rewrite Hbody. simpl.
  by rewrite !andb_false_r.
Qed.

(** C9 (amended). A payload whose body is empty is never taken for a
    compression wrapper, whatever its uuid and its metrics say: decoding
    returns it unchanged and raises no [CompressionError]. *)
Theorem empty_wrapper_is_returned gzip_decompress zlib_decompress parse payload :
  body payload = [] ->
  is_compressed_wrapper payload = false
  /\ unwrap_if_compressed gzip_decompress zlib_decompress parse payload = Ok payload
  /\ (forall blob,
        parse blob = Ok payload ->
        decode_sparkplug_payload gzip_decompress zlib_decompress parse blob
        = Ok payload).
Proof.
  intros Hbody. pose proof (empty_body_not_wrapper payload Hbody) as Hnot.
  assert (unwrap_if_compressed gzip_decompress zlib_decompress parse payload
          = Ok payload) as Hunwrap.
  { unfold unwrap_if_compressed. by rewrite Hnot. }
  split; [done|]. split; [done|].
  intros blob Hparse. unfold decode_sparkplug_payload. rewrite Hparse. exact Hunwrap.
Qed.

Lemma empty_wrapper_is_returned_witness :
  unwrap_if_compressed no_gzip no_zlib no_parse empty_gzip_wrapper
  = Ok empty_gzip_wrapper.
Proof.
  apply (empty_wrapper_is_returned no_gzip no_zlib no_parse empty_gzip_wrapper).
  reflexivity.
Defined.

(** C9 as stated fails: the payload carries the wrapper's uuid and an empty
    body, and [unwrap_if_compressed] returns it as it is. *)
Lemma empty_uuid_wrapper_not_rejected :
  uuid empty_uuid_wrapper = "SPBV1.0_COMPRESSED"%string
  /\ body empty_uuid_wrapper = []
  /\ unwrap_if_compressed no_gzip no_zlib no_parse empty_uuid_wrapper
     = Ok empty_uuid_wrapper.
Proof. repeat split. Qed.
End SparkplugProofs.

Module AliasCacheProofs.
Import AliasCache.

Lemma int_of_str_of_int z : int_of_str (str_of_int z) = Ok z.
Proof.
  unfold int_of_str, str_of_int. rewrite NilZero.isi.
  - by rewrite DecimalZ.of_to.
  - destruct z; simpl; try discriminate.
    intros [= H]. by apply Unsigned.to_uint_nonnil in H.
  - destruct z; simpl; try discriminate.
    intros [= H]. by apply Unsigned.to_uint_nonnil in H.
Qed.

Lemma split_once_app sep before after :
  has_char sep before = false ->
  split_once sep (before ++ String sep after) = Some (before, after).
Proof.
  induction before as [|a before IH]; simpl.
  - intros _. by rewrite Ascii.eqb_refl.
  - intros [Ha Hrest]%orb_false_iff. rewrite Ha. by rewrite IH.
Qed.

Lemma bar_append (text : string) : ("|" ++ text)%string = String "|" text.
Proof. reflexivity. Qed.

Lemma split_once_none sep text :
  has_char sep text = false -> split_once sep text = None.
Proof.
  induction text as [|a text IH]; simpl; [done|].
  intros [Ha Hrest]%orb_false_iff. rewrite Ha. by rewrite IH.
Qed.

Section WithInfo.
Context {Info : Type}.
Implicit Types (entries : list (Z * Info))
  (alias_maps : list (string * string * option string * list (Z * Info))).

(** Filling a dictionary with items whose keys are new and distinct appends
    them in order. *)
Lemma update_fresh {K V} `{EqDecision K} (d items : list (K * V)) :
  NoDup (PyDict.keys (d ++ items)) -> PyDict.update d items = d ++ items.
Proof.
  revert d. induction items as [|[k v] items IH]; intros d Hnd; simpl.
  - by rewrite app_nil_r.
  - unfold PyDict.update in *. simpl.
    rewrite PyDictFacts.set_absent.
    + rewrite IH; [by rewrite <- app_assoc|]. by rewrite <- app_assoc.
    + apply PyDictFacts.get_None_keys. unfold PyDict.keys in *.
      rewrite fmap_app in Hnd. apply NoDup_app in Hnd as (_ & Hdisj & _).
      intros Hin. apply (Hdisj k Hin). simpl. apply list_elem_of_here.
Qed.

Lemma for_each_fresh {A K V} `{EqDecision K} (ser : K * V -> A)
    (step : list (K * V) -> A -> result (list (K * V))) (items acc : list (K * V)) :
  (forall acc' item, item ∈ items ->
                     step acc' (ser item) = Ok (PyDict.set item.1 item.2 acc')) ->
  NoDup (PyDict.keys (acc ++ items)) ->
  for_each step acc (ser <$> items) = Ok (acc ++ items).
Proof.
  revert acc. induction items as [|[k v] items IH]; intros acc Hstep Hnd; simpl.
  - by rewrite app_nil_r.
  - rewrite Hstep by apply list_elem_of_here. simpl.
    rewrite PyDictFacts.set_absent.
    + rewrite IH; [by rewrite <- app_assoc | | by rewrite <- app_assoc].
      intros acc' item Hin. apply Hstep. by apply list_elem_of_further.
    + apply PyDictFacts.get_None_keys. unfold PyDict.keys in *.
      rewrite fmap_app in Hnd. apply NoDup_app in Hnd as (_ & Hdisj & _).
      intros Hin. apply (Hdisj k Hin). simpl. apply list_elem_of_here.
Qed.

Lemma str_of_int_inj a b : str_of_int a = str_of_int b -> a = b.
Proof.
  intros Heq. pose proof (int_of_str_of_int a) as Ha.
  rewrite Heq, int_of_str_of_int in Ha. congruence.
Qed.

Lemma serialize_entries_eq entries :
  NoDup (PyDict.keys entries) ->
  serialize_entries entries = (fun e => (str_of_int e.1, e.2)) <$> entries.
Proof.
  intros Hnd. unfold serialize_entries. rewrite update_fresh; [done|].
  simpl. unfold PyDict.keys in *. rewrite <- list_fmap_compose.
  change (NoDup ((str_of_int ∘ fst) <$> entries)).
  rewrite list_fmap_compose. apply NoDup_fmap_2_strong; [|done].
  intros a b _ _. apply str_of_int_inj.
Qed.

Lemma deserialize_entries_serialized entries :
  NoDup (PyDict.keys entries) ->
  deserialize_entries (serialize_entries entries) = Ok entries.
Proof.
  intros Hnd. rewrite serialize_entries_eq by done.
  unfold deserialize_entries.
  rewrite (for_each_fresh (fun e => (str_of_int e.1, e.2))); [done| |done].
  intros acc item _. simpl. by rewrite int_of_str_of_int.
Qed.

(** The composite key splits back into its three parts. *)
Lemma split_composite_key (key : string * string * option string) :
  key_ok key ->
  split "|" 2 (composite_key_of key)
  = [key.1.1; key.1.2; match key.2 with None => ""%string | Some d => d end].
Proof.
  destruct key as [[group edge] device]. intros (Hg & He & _). simpl in *.
  rewrite !bar_append.
  rewrite (split_once_app "|" group _ Hg).
  by rewrite (split_once_app "|" edge _ He).
Qed.

Lemma composite_key_inj (k1 k2 : string * string * option string) :
  key_ok k1 -> key_ok k2 -> composite_key_of k1 = composite_key_of k2 -> k1 = k2.
Proof.
  intros H1 H2 Heq. pose proof (split_composite_key k1 H1) as S1.
  rewrite Heq, (split_composite_key k2 H2) in S1.
  destruct k1 as [[g1 e1] d1], k2 as [[g2 e2] d2]. simpl in S1.
  destruct H1 as (_ & _ & Hd1), H2 as (_ & _ & Hd2). simpl in *.
  injection S1 as -> -> Hd. f_equal.
  destruct d1, d2; congruence.
Qed.

(** C10. Alias cache round trip: a registry whose keys have no ['|'] in
    group and edge and a device that is [None] or a non-empty string,
    serialised and deserialised, comes back as it was (with its items in the
    same order). *)
Theorem alias_maps_round_trip alias_maps :
  registry_ok alias_maps ->
  deserialize_alias_maps (serialize_alias_maps alias_maps) = Ok alias_maps.
Proof.
  intros [Hnd Hall]. rewrite Forall_forall in Hall.
  unfold serialize_alias_maps. rewrite update_fresh.
  - unfold deserialize_alias_maps. rewrite app_nil_l.
    rewrite (for_each_fresh
               (fun item => (composite_key_of item.1, serialize_entries item.2)));
      [done| |done].
    intros acc [key entries] Hin. destruct (Hall _ Hin) as [Hkey Hentries].
    cbv beta iota delta [fst snd] in Hkey, Hentries |- *.
    rewrite (split_composite_key key Hkey).
    rewrite deserialize_entries_serialized by done.
    destruct key as [[group edge] device]. destruct Hkey as (_ & _ & Hdev).
    simpl in *. destruct device as [d|].
    + rewrite bool_decide_eq_false_2; [done|]. congruence.
    + by rewrite bool_decide_eq_true_2.
  - simpl. unfold PyDict.keys in *. rewrite <- list_fmap_compose.
    apply (NoDup_fmap_2_strong _ alias_maps).
    + intros [k1 v1] [k2 v2] H1 H2 Heq. simpl in Heq.
      assert (k1 = k2) as ->.
      { apply composite_key_inj; [apply (Hall _ H1) | apply (Hall _ H2) | done]. }
      f_equal. by apply (PyDictFacts.keys_unique alias_maps k2).
    + eapply NoDup_fmap_1. exact Hnd.
Qed.
End WithInfo.

(** The serialised form of the example registry. *)
Example example_registry_serialised :
  serialize_alias_maps example_registry
  = [("Secil|EdgeNode|DeviceA", [("7", "pump_state")]);
     ("Secil|EdgeNode|", [("5", "node_temp"); ("-3", "spare")])]%string.
Proof. vm_compute. reflexivity. Qed.

(** A composite key with fewer than two separators cannot be unpacked. *)
Example short_key_is_refused :
  deserialize_alias_maps [("Secil|EdgeNode"%string, [("7"%string, 0)])]
  = Raise (ValueError "not enough values to unpack").
Proof. vm_compute. reflexivity. Qed.

Lemma alias_maps_round_trip_witness :
  deserialize_alias_maps (serialize_alias_maps example_registry)
  = Ok example_registry.
Proof.
  apply alias_maps_round_trip. split.
  - apply (bool_decide_unpack _). vm_compute. exact I.
  - repeat constructor; simpl; try discriminate;
      apply (bool_decide_unpack _); vm_compute; exact I.
Defined.
End AliasCacheProofs.

Module RepositoryProofs.
Import Repository.

Section WithBuiltins.
Context {Obj PyFloat : Type} `{EqDecision PyFloat} `{FloatEq PyFloat}.
Context (py_int : Obj -> result Z) (py_float : Obj -> result PyFloat)
        (py_str : Obj -> string) (py_bool : Obj -> bool).
Local Abbreviation columns_of := (property_column_values py_int py_float py_str py_bool).
Local Abbreviation rows_of := (property_rows py_int py_float py_str py_bool).
Implicit Types (payload : MetricPropertyPayload Obj)
  (payloads : list (MetricPropertyPayload Obj)).

Lemma columns_of_invalid payload :
  type payload ∉ allowed ->
  columns_of payload = Raise (RepositoryError (invalid_type_msg (type payload))).
Proof.
  intros Hbad. unfold property_column_values.
  by rewrite bool_decide_eq_false_2.
Qed.

Lemma coerce_shape {A} (f : Obj -> result A) (v : option Obj) (c : option A) :
  coerce f v = Ok c -> is_none c = is_none v.
Proof.
  destruct v as [o|]; simpl.
  - destruct (f o); simpl; [|done]. by intros [= <-].
  - by intros [= <-].
Qed.

(** The columns computed for a payload of an allowed type: the column of
    its type holds the coerced value, the others are NULL. *)
Lemma columns_of_typed payload columns :
  columns_of payload = Ok columns ->
  non_null_columns columns =
  if value payload is Some _ then [column_of_type (type payload)] else [].
Proof.
  unfold property_column_values, column_of_type.
  case_bool_decide as Hallowed; simpl; [|done].
  repeat case_bool_decide; simpl.
  all: try (destruct (coerce _ (value payload)) as [c|] eqn:Hc; simpl;
            [apply coerce_shape in Hc | done]).
  all: intros [= <-]; unfold non_null_columns; simpl.
  all: try (by destruct c, (value payload)).
  all: try (by destruct (value payload)).
  exfalso. unfold allowed in Hallowed.
  repeat (apply elem_of_cons in Hallowed as [?|Hallowed]; [done|]).
  by apply elem_of_nil in Hallowed.
Qed.

Lemma rows_of_error payloads payload :
  payload ∈ payloads ->
  type payload ∉ allowed ->
  exists e, rows_of payloads = Raise e.
Proof.
  intros Hin Hbad. induction payloads as [|p rest IH]; simpl.
  - by apply elem_of_nil in Hin.
  - apply elem_of_cons in Hin as [<-|Hin].
    + rewrite columns_of_invalid by done. eauto.
    + destruct (columns_of p); [|eauto].
      destruct (IH Hin) as [e ->]. eauto.
Qed.

Lemma rows_of_typed payloads rows :
  rows_of payloads = Ok rows ->
  Forall (fun row =>
            non_null_columns (row_columns row) = []
            \/ non_null_columns (row_columns row) = [column_of_type (row_type row)])
         rows.
Proof.
  revert rows. induction payloads as [|p rest IH]; simpl; intros rows.
  - intros [= <-]. constructor.
  - destruct (columns_of p) as [columns|] eqn:Hc; [|done].
    destruct (rows_of rest) as [rows'|]; [|done]. intros [= <-].
    constructor; [|by apply IH]. simpl.
    rewrite (columns_of_typed p columns Hc). destruct (value p); eauto.
Qed.

Section WithConnection.
Context {DB : Type}.
Context (select_property : Z -> string -> DB -> db_reply (option (StoredProperty PyFloat)) * DB)
        (update_property : PropertyRow PyFloat -> DB -> db_reply (option (StoredProperty PyFloat)) * DB)
        (insert_property : PropertyRow PyFloat -> DB -> db_reply (option (StoredProperty PyFloat)) * DB)
        (bulk_upsert_properties : list (PropertyRow PyFloat) -> DB -> db_reply Z * DB).
Local Abbreviation upsert_one :=
  (upsert_metric_property py_int py_float py_str py_bool
     select_property update_property insert_property).
Local Abbreviation upsert_bulk :=
  (upsert_metric_properties_bulk py_int py_float py_str py_bool
     bulk_upsert_properties).
Implicit Types (conn : Connection PyFloat DB).

Lemma transaction_raise {A} (body : Connection PyFloat DB -> result A * Connection PyFloat DB)
    conn e :
  body conn = (Raise e, conn) -> transaction body conn = (Raise e, conn).
Proof. intros Hbody. unfold transaction. rewrite Hbody. simpl. by destruct conn. Qed.

Lemma transaction_executed {A}
    (body : Connection PyFloat DB -> result A * Connection PyFloat DB) conn :
  executed (transaction body conn).2 = executed (body conn).2.
Proof. unfold transaction. by destruct (body conn).1. Qed.

(** The single upsert sends the select, then at most one write, and the
    write carries the columns computed for the payload. *)
Lemma upsert_one_statements payload columns conn :
  columns_of payload = Ok columns ->
  let row := MkPropertyRow (metric_id payload) (key payload) (type payload) columns in
  exists writes,
    executed (upsert_one payload conn).2
    = executed conn ++ SelectProperty (metric_id payload) (key payload) :: writes
    /\ (writes = [] \/ writes = [UpdateProperty row] \/ writes = [InsertProperty row]).
Proof.
  intros Hc row. unfold upsert_metric_property. rewrite Hc.
  rewrite transaction_executed. unfold execute. simpl.
  destruct (select_property _ _ _) as [[[existing|]|] db1]; simpl.
  - destruct (property_rows_equal _ _ _); simpl.
    + exists []. eauto.
    + destruct (update_property _ _) as [[stored|] db2]; simpl;
        exists [UpdateProperty row]; rewrite <- app_assoc; eauto.
  - destruct (insert_property _ _) as [[stored|] db2]; simpl;
      exists [InsertProperty row]; rewrite <- app_assoc; eauto.
  - exists []. eauto.
Qed.

Lemma send_property_batches_executed batches total conn :
  exists sent,
    sent `prefix_of` batches
    /\ executed (send_property_batches bulk_upsert_properties batches total conn).2
       = executed conn ++ (BulkUpsertProperties <$> sent).
Proof.
  revert total conn. induction batches as [|batch rest IH]; intros total conn.
  - exists []. simpl. by rewrite app_nil_r.
  - simpl. unfold execute. destruct (bulk_upsert_properties batch (db conn))
      as [[rowcount|] db1]; simpl.
    + destruct (IH (total + rowcount)
                   (MkConnection db1 (executed conn ++ [BulkUpsertProperties batch])))
        as (sent & Hpre & ->).
      exists (batch :: sent). split; [by apply prefix_cons|].
      simpl. by rewrite <- app_assoc.
    + exists [batch]. split; [|done]. by apply prefix_cons, prefix_nil.
Qed.

(** C4 (amended). A payload whose type is outside
    [{int,long,float,double,string,boolean}] makes the upsert fail with the
    invalid-property-type error before any statement is sent, and makes a
    bulk upsert that still holds it after de-duplication fail likewise.  For
    a payload of an allowed type whose value coerces, every column other
    than the one of the declared type is NULL, and that column is non-null
    exactly when the payload's value is not [None]: at most one non-null
    column, none for a [None] value.  The row the single upsert writes, and
    every row the bulk variant sends, carries these columns. *)
Theorem property_typing payload :
  (type payload ∉ allowed ->
     columns_of payload = Raise (RepositoryError (invalid_type_msg (type payload)))
     /\ (forall conn,
           upsert_one payload conn
           = (Raise (RepositoryError (invalid_type_msg (type payload))), conn))
     /\ (forall payloads batch_size manage conn,
           payload ∈ deduplicated payloads ->
           exists e, upsert_bulk payloads batch_size manage conn = (Raise e, conn)))
  /\ (forall columns,
        columns_of payload = Ok columns ->
        non_null_columns columns
        = (if value payload is Some _ then [column_of_type (type payload)] else [])
        /\ (forall conn, exists writes,
              executed (upsert_one payload conn).2
              = executed conn
                ++ SelectProperty (metric_id payload) (key payload) :: writes
              /\ (writes = []
                  \/ writes = [UpdateProperty
                                 (MkPropertyRow (metric_id payload) (key payload)
                                                (type payload) columns)]
                  \/ writes = [InsertProperty
                                 (MkPropertyRow (metric_id payload) (key payload)
                                                (type payload) columns)])))
  /\ (forall payloads rows batch_size manage conn,
        rows_of (deduplicated payloads) = Ok rows ->
        Forall (fun row =>
                  non_null_columns (row_columns row) = []
                  \/ non_null_columns (row_columns row)
                     = [column_of_type (row_type row)]) rows
        /\ exists sent,
             sent `prefix_of` batched (Z.to_nat batch_size) rows
             /\ executed (upsert_bulk payloads batch_size manage conn).2
                = executed conn ++ (BulkUpsertProperties <$> sent)).
Proof.
  split; [|split].
  - intros Hbad. split; [by apply columns_of_invalid|]. split.
    + intros conn. unfold upsert_metric_property.
      by rewrite columns_of_invalid.
    + intros payloads batch_size manage conn Hin.
      unfold upsert_metric_properties_bulk.
      destruct (batch_size <=? 0); [eauto|].
      destruct payloads as [|p0 rest]; [by apply elem_of_nil in Hin|].
      destruct (rows_of_error _ _ Hin Hbad) as [e He].
      exists e. destruct manage.
      * apply transaction_raise. by rewrite He.
      * by rewrite He.
  - intros columns Hc. split; [by apply columns_of_typed|].
    intros conn. by apply upsert_one_statements.
  - intros payloads rows batch_size manage conn Hrows.
    split; [by apply (rows_of_typed _ _ Hrows)|].
    unfold upsert_metric_properties_bulk.
    destruct (batch_size <=? 0); simpl.
    { exists []. split; [apply prefix_nil | by rewrite app_nil_r]. }
    destruct payloads as [|p0 rest].
    { exists []. split; [apply prefix_nil | by rewrite app_nil_r]. }
    destruct manage; rewrite ?transaction_executed; cbv beta; rewrite Hrows;
      (destruct rows as [|r rs];
       [ exists []; split; [apply prefix_nil | by rewrite app_nil_r]
       | apply send_property_batches_executed ]).
Qed.
End WithConnection.

(** *** De-duplication in the bulk property upsert *)

Abbreviation group_step :=
  (fun grouped payload =>
     PyDict.set (metric_id payload)
       (PyDict.set (key payload) payload
          (default [] (PyDict.get (metric_id payload) grouped)))
       grouped).

Lemma group_step_lookup (grouped : list (Z * list (string * MetricPropertyPayload Obj)))
    payload mid k :
  PyDict.get mid (group_step grouped payload) ≫= PyDict.get k
  = if decide (natural_key payload = (mid, k)) then Some payload
    else PyDict.get mid grouped ≫= PyDict.get k.
Proof.
  unfold natural_key. destruct (decide (metric_id payload = mid)) as [<-|Hmid].
  - rewrite PyDictFacts.get_set_eq. simpl.
    destruct (decide (key payload = k)) as [<-|Hk].
    + rewrite decide_True by done. apply PyDictFacts.get_set_eq.
    + rewrite decide_False by congruence.
      rewrite PyDictFacts.get_set_ne by done.
      by destruct (PyDict.get (metric_id payload) grouped).
  - rewrite decide_False by congruence.
    by rewrite PyDictFacts.get_set_ne.
Qed.

(** Last write wins: under each natural key the groups hold the last
    payload of the batch that carries it. *)
Lemma group_payloads_lookup payloads mid k :
  PyDict.get mid (group_payloads payloads) ≫= PyDict.get k
  = last (with_natural_key (mid, k) payloads).
Proof.
  unfold with_natural_key.
  induction payloads as [|payload payloads IH] using rev_ind; [done|].
  unfold group_payloads in *. rewrite foldl_app. simpl.
  rewrite group_step_lookup, IH, filter_app, filter_cons, filter_nil.
  case_decide.
  - by rewrite last_snoc.
  - by rewrite app_nil_r.
Qed.

Lemma group_step_ok (grouped : list (Z * list (string * MetricPropertyPayload Obj)))
    payload :
  grouped_ok grouped -> grouped_ok (group_step grouped payload).
Proof.
  intros [Hnd Hall]. split; [by apply PyDictFacts.NoDup_keys_set|].
  assert (NoDup (PyDict.keys (default [] (PyDict.get (metric_id payload) grouped)))
          /\ Forall (fun kp => metric_id kp.2 = metric_id payload /\ key kp.2 = kp.1)
                    (default [] (PyDict.get (metric_id payload) grouped)))
    as [Hin_nd Hin_all].
  { destruct (PyDict.get (metric_id payload) grouped) as [inner|] eqn:Hget; simpl.
    - apply PyDictFacts.get_Some_elem in Hget.
      rewrite Forall_forall in Hall. apply (Hall _ Hget).
    - split; constructor. }
  assert (NoDup (PyDict.keys (PyDict.set (key payload) payload
                    (default [] (PyDict.get (metric_id payload) grouped))))
          /\ Forall (fun kp => metric_id kp.2 = metric_id payload /\ key kp.2 = kp.1)
                    (PyDict.set (key payload) payload
                       (default [] (PyDict.get (metric_id payload) grouped))))
    as Hnew.
  { split; [by apply PyDictFacts.NoDup_keys_set|].
    apply PyDictFacts.Forall_set; [done| |done].
    intros k0. destruct (decide (k0 = key payload)) as [->|]; [by left | by right]. }
  apply PyDictFacts.Forall_set; [done| |done].
  intros k0. destruct (decide (k0 = metric_id payload)) as [->|]; [by left | by right].
Qed.

Lemma group_payloads_ok payloads : grouped_ok (group_payloads payloads).
Proof.
  induction payloads as [|payload payloads IH] using rev_ind.
  - split; constructor.
  - unfold group_payloads in *. rewrite foldl_app. simpl. by apply group_step_ok.
Qed.

Lemma flattened_elem (grouped : list (Z * list (string * MetricPropertyPayload Obj)))
    payload :
  payload ∈ mjoin (PyDict.values <$> PyDict.values grouped) <->
  exists mid inner k, (mid, inner) ∈ grouped /\ (k, payload) ∈ inner.
Proof.
  unfold PyDict.values. rewrite list_elem_of_join. split.
  - intros (ps & Hp & Hps). apply list_elem_of_fmap in Hps as (inner & -> & Hinner).
    apply list_elem_of_fmap in Hinner as ([mid inner'] & -> & Hg).
    apply list_elem_of_fmap in Hp as ([k p] & -> & Hkp). eauto.
  - intros (mid & inner & k & Hg & Hkp). exists (inner.*2). split.
    + apply list_elem_of_fmap. by exists (k, payload).
    + apply list_elem_of_fmap. exists inner. split; [done|].
      apply list_elem_of_fmap. by exists (mid, inner).
Qed.

Lemma flattened_NoDup (grouped : list (Z * list (string * MetricPropertyPayload Obj))) :
  grouped_ok grouped ->
  NoDup (natural_key <$> mjoin (PyDict.values <$> PyDict.values grouped)).
Proof.
  intros [Hnd Hall]. unfold PyDict.keys, PyDict.values in *.
  induction grouped as [|[mid inner] grouped IH]; csimpl; [constructor|].
  apply NoDup_cons in Hnd as [Hfresh Hnd].
  apply Forall_cons in Hall as [[Hinner_nd Hinner] Hall]. csimpl in *.
  rewrite fmap_app. apply NoDup_app. split; [|split].
  - assert (natural_key <$> inner.*2 = pair mid <$> inner.*1) as ->.
    { clear Hinner_nd. induction Hinner as [|[k p] inner [Hm Hk] _ IHi]; [done|].
      csimpl in *. rewrite IHi. unfold natural_key. by rewrite Hm, Hk. }
    apply NoDup_fmap_2; [|done]. by intros a b [= ->].
  - intros nk Hfirst Hrest.
    apply list_elem_of_fmap in Hfirst as (p & -> & Hp).
    apply list_elem_of_fmap in Hp as ([k p'] & -> & Hkp).
    rewrite Forall_forall in Hinner. destruct (Hinner _ Hkp) as [Hm _].
    apply list_elem_of_fmap in Hrest as (q & Heq & Hq).
    apply (flattened_elem grouped q) in Hq as (mid' & inner' & k' & Hg & Hkq).
    rewrite Forall_forall in Hall. destruct (Hall _ Hg) as [_ Hq_all].
    rewrite Forall_forall in Hq_all. destruct (Hq_all _ Hkq) as [Hm' _].
    simpl in *. unfold natural_key in Heq. injection Heq as Hmid _.
    apply Hfresh. apply list_elem_of_fmap. exists (mid', inner'). split; [|done].
    simpl. congruence.
  - by apply IH.
Qed.

(** The bulk property upsert de-duplicates its batch by natural key: no key
    twice among the payloads it keeps, and each of them is the last payload
    of the batch with its key. *)
Lemma properties_bulk_deduplicates payloads :
  NoDup (natural_key <$> deduplicated payloads)
  /\ (forall payload,
        payload ∈ deduplicated payloads ->
        last (with_natural_key (natural_key payload) payloads) = Some payload).
Proof.
  pose proof (group_payloads_ok payloads) as Hok.
  split; [by apply flattened_NoDup|].
  intros payload Hin. unfold deduplicated in Hin.
  apply flattened_elem in Hin as (mid & inner & k & Hg & Hkp).
  destruct Hok as [Hnd Hall]. rewrite Forall_forall in Hall.
  destruct (Hall _ Hg) as [Hinner_nd Hinner]. rewrite Forall_forall in Hinner.
  destruct (Hinner _ Hkp) as [Hm Hk]. simpl in *.
  unfold natural_key. rewrite Hm, Hk, <- group_payloads_lookup.
  rewrite (PyDictFacts.elem_get _ _ _ Hnd Hg). simpl.
  by apply PyDictFacts.elem_get.
Qed.
End WithBuiltins.

Lemma property_typing_witness :
  non_null_columns (MkColumns (PyFloat := Z) (Some 5) None None None None None)
  = ["value_int"%string]
  /\ upsert_metric_property int_of_int float_of_int AliasCache.str_of_int
       bool_of_int no_property store_property store_property
       (MkMetricPropertyPayload 1 "unsupported" "json" (Some 0)) fresh_connection
     = (Raise (RepositoryError (invalid_type_msg "json")), fresh_connection).
Proof.
  split.
  - destruct (property_typing int_of_int float_of_int AliasCache.str_of_int
                bool_of_int no_property store_property store_property
                store_properties (MkMetricPropertyPayload 1 "count" "int" (Some 5)))
      as (_ & Htyped & _).
    destruct (Htyped (MkColumns (Some 5) None None None None None)) as [Hcols _].
    + reflexivity.
    + exact Hcols.
  - destruct (property_typing int_of_int float_of_int AliasCache.str_of_int
                bool_of_int no_property store_property store_property
                store_properties
                (MkMetricPropertyPayload 1 "unsupported" "json" (Some 0)))
      as (Hinvalid & _).
    destruct Hinvalid as (_ & Hone & _).
    + apply (bool_decide_unpack _). vm_compute. exact I.
    + apply Hone.
Defined.

(** C4 as stated fails for a payload without a value: the type [int] is
    allowed, every column computed is NULL, and the upsert inserts the row
    with no non-null column. *)
Lemma null_value_leaves_all_columns_null :
  type null_int_property ∈ allowed
  /\ property_column_values int_of_int float_of_int AliasCache.str_of_int
       bool_of_int null_int_property
     = Ok (MkColumns None None None None None None)
  /\ non_null_columns (MkColumns (PyFloat := Z) None None None None None None) = []
  /\ executed (upsert_metric_property int_of_int float_of_int
                 AliasCache.str_of_int bool_of_int no_property store_property
                 store_property null_int_property fresh_connection).2
     = [SelectProperty 1 "precision";
        InsertProperty (MkPropertyRow 1 "precision" "int"
                          (MkColumns None None None None None None))].
Proof.
  split; [|repeat split].
  apply (bool_decide_unpack _). vm_compute. exact I.
Qed.

(** C5 on the code: [upsert_metrics_bulk] sends both payloads of a pair
    with the same [(device_id, name)] in one statement, earlier values
    included; nothing is de-duplicated. *)
Lemma metrics_bulk_sends_duplicates :
  metric_row temperature_first <> metric_row temperature_second
  /\ (device_id temperature_first, name temperature_first)
     = (device_id temperature_second, name temperature_second)
  /\ executed (upsert_metrics_bulk store_metrics no_metric_ids
                 [temperature_first; temperature_second] 1000
                 fresh_connection).2
     = [BulkUpsertMetrics [metric_row temperature_first;
                           metric_row temperature_second];
        SelectMetricIds 1 ["temperature"; "temperature"]].
Proof. split; [discriminate | split; reflexivity]. Qed.

(** *** Batches, and what the bulk and the single property upsert send *)

Lemma batched_from_concat {A} (fuel size : nat) (items : list A) :
  (0 < size)%nat -> (length items <= fuel)%nat ->
  concat (batched_from fuel size items) = items
  /\ Forall (fun batch => batch <> [] /\ (length batch <= size)%nat)
            (batched_from fuel size items)
  /\ (length (batched_from fuel size items) * size < length items + size)%nat
  /\ (length items <= length (batched_from fuel size items) * size)%nat.
Proof.
  intros Hsize. revert items. induction fuel as [|fuel IH]; intros items Hfuel.
  - destruct items; [|simpl in Hfuel; lia]. simpl. repeat split; [constructor|lia..].
  - destruct items as [|x items]; [simpl; repeat split; [constructor|lia..]|].
    cbn [batched_from].
    destruct (IH (drop size (x :: items))) as (Hcat & Hall & Hup & Hlow).
    { rewrite length_drop. simpl in *. lia. }
    cbn [concat length]. rewrite Hcat, take_drop. split; [done|]. split.
    + constructor; [|done]. rewrite length_take. split; [|lia].
      destruct size; [lia | done].
    + rewrite Nat.mul_succ_l.
      destruct (decide (length (x :: items) <= size)%nat) as [Hshort|Hlong].
      * rewrite drop_ge by done.
        assert (batched_from fuel size (@nil A) = []) as -> by by destruct fuel.
        simpl in *. lia.
      * rewrite length_drop in Hup, Hlow. cbn [length] in *. lia.
Qed.

(** X21. For a positive batch size the batches are a partition of the
    items in order: concatenated they give the items back, none is
    empty, none is longer than the batch size, and there are
    [ceil(len(items) / size)] of them. *)
Theorem batched_partitions_the_items {A} (size : nat) (items : list A) :
  (0 < size)%nat ->
  concat (batched size items) = items
  /\ Forall (fun batch => batch <> [] /\ (length batch <= size)%nat)
            (batched size items)
  /\ length (batched size items) = ((length items + size - 1) / size)%nat.
Proof.
  intros Hsize. unfold batched.
  destruct (batched_from_concat (length items) size items Hsize)
    as (Hcat & Hall & Hup & Hlow); [done|].
  split; [done|]. split; [done|].
  apply (Nat.div_unique _ _ _
    (length items + size - 1
     - size * length (batched_from (length items) size items))); lia.
Qed.

Section Bulk.
Context {Obj PyFloat : Type} `{EqDecision PyFloat} `{FloatEq PyFloat}.
Context (py_int : Obj -> result Z) (py_float : Obj -> result PyFloat)
        (py_str : Obj -> string) (py_bool : Obj -> bool).
Context {DB : Type}.
Context (select_property : Z -> string -> DB -> db_reply (option (StoredProperty PyFloat)) * DB)
        (update_property : PropertyRow PyFloat -> DB -> db_reply (option (StoredProperty PyFloat)) * DB)
        (insert_property : PropertyRow PyFloat -> DB -> db_reply (option (StoredProperty PyFloat)) * DB)
        (bulk_upsert_properties : list (PropertyRow PyFloat) -> DB -> db_reply Z * DB).
Implicit Types (payload : MetricPropertyPayload Obj)
  (payloads : list (MetricPropertyPayload Obj))
  (conn : Connection PyFloat DB).

(** X22. The bulk property upsert keeps, for every [(metric_id, key)]
    among its payloads, exactly the payload given last for it: no key
    is lost, none is kept twice, and an earlier payload of a repeated
    key is never sent. *)
Theorem properties_bulk_keeps_the_last_of_each_key payloads :
  NoDup (natural_key <$> deduplicated payloads)
  /\ forall payload,
       payload ∈ deduplicated payloads <->
       last (with_natural_key (natural_key payload) payloads) = Some payload.
Proof.
  pose proof (group_payloads_ok payloads) as Hok.
  split; [by apply flattened_NoDup|].
  intros payload. unfold deduplicated. rewrite flattened_elem. split.
  - intros (mid & inner & k & Hg & Hkp).
    destruct Hok as [Hnd Hall]. rewrite Forall_forall in Hall.
    destruct (Hall _ Hg) as [Hinner_nd Hinner]. rewrite Forall_forall in Hinner.
    destruct (Hinner _ Hkp) as [Hm Hk]. simpl in *.
    unfold natural_key. rewrite Hm, Hk, <- group_payloads_lookup.
    rewrite (PyDictFacts.elem_get _ _ _ Hnd Hg). simpl.
    by apply PyDictFacts.elem_get.
  - unfold natural_key at 1. rewrite <- group_payloads_lookup.
    destruct (PyDict.get (metric_id payload) (group_payloads payloads))
      as [inner|] eqn:Hg; [|done].
    simpl. intros Hk. exists (metric_id payload), inner, (key payload).
    split; by apply PyDictFacts.get_Some_elem.
Qed.

Lemma property_rows_keys payloads rows :
  property_rows py_int py_float py_str py_bool payloads = Ok rows ->
  (fun row => (row_metric_id row, row_key row)) <$> rows
  = natural_key <$> payloads.
Proof.
  revert rows. induction payloads as [|payload payloads IH]; intros rows; simpl.
  - by intros [= <-].
  - destruct (property_column_values _ _ _ _ payload) as [columns|]; [|done].
    destruct (property_rows _ _ _ _ payloads) as [rest|]; [|done].
    intros [= <-]. csimpl. by rewrite (IH rest).
Qed.

Lemma send_property_batches_ok batches total conn total' conn' :
  send_property_batches bulk_upsert_properties batches total conn
  = (Ok total', conn') ->
  executed conn' = executed conn ++ (BulkUpsertProperties <$> batches).
Proof.
  revert total conn. induction batches as [|batch rest IH]; intros total conn.
  - simpl. intros [= _ <-]. by rewrite app_nil_r.
  - simpl. unfold execute.
    destruct (bulk_upsert_properties batch (db conn)) as [[rowcount|] db1];
      simpl; [|done].
    intros Hrun. apply IH in Hrun. rewrite Hrun. simpl.
    by rewrite <- app_assoc.
Qed.

(** X23. A bulk property upsert that returns has sent one statement for
    each batch and nothing else; no batch is empty or longer than
    [batch_size], the rows are those of the de-duplicated payloads in
    order, and no [(metric_id, key)] occurs twice in all the
    statements together, so an [ON CONFLICT] never meets the same row
    twice. *)
Theorem properties_bulk_sends_each_key_once payloads batch_size manage conn
    total conn' :
  upsert_metric_properties_bulk py_int py_float py_str py_bool
    bulk_upsert_properties payloads batch_size manage conn = (Ok total, conn') ->
  exists batches,
    executed conn' = executed conn ++ (BulkUpsertProperties <$> batches)
    /\ Forall (fun batch =>
                 batch <> [] /\ Z.of_nat (length batch) <= batch_size) batches
    /\ (fun row => (row_metric_id row, row_key row)) <$> concat batches
       = natural_key <$> deduplicated payloads
    /\ NoDup ((fun row => (row_metric_id row, row_key row)) <$> concat batches).
Proof.
  unfold upsert_metric_properties_bulk.
  destruct (Z.leb_spec batch_size 0) as [|Hsize]; [done|].
  destruct payloads as [|p ps].
  { intros [= _ <-]. exists []. rewrite app_nil_r. repeat split; constructor. }
  cbv zeta. generalize (p :: ps). clear p ps. intros payloads.
  assert (NoDup (natural_key <$> deduplicated payloads)) as Hnd
    by apply flattened_NoDup, group_payloads_ok.
  assert (forall c r,
    match property_rows py_int py_float py_str py_bool (deduplicated payloads)
    with
    | Ok [] => (Ok 0, c)
    | Ok ((_ :: _) as rows) =>
        send_property_batches bulk_upsert_properties
          (batched (Z.to_nat batch_size) rows) 0 c
    | Raise e => (Raise e, c)
    end = (Ok total, r) ->
    exists batches,
      executed r = executed c ++ (BulkUpsertProperties <$> batches)
      /\ Forall (fun batch =>
                   batch <> [] /\ Z.of_nat (length batch) <= batch_size) batches
      /\ (fun row => (row_metric_id row, row_key row)) <$> concat batches
         = natural_key <$> deduplicated payloads
      /\ NoDup ((fun row => (row_metric_id row, row_key row)) <$> concat batches))
    as Hbody.
  { intros c r.
    destruct (property_rows _ _ _ _ (deduplicated payloads)) as [rows|] eqn:Hrows;
      [|done].
    pose proof (property_rows_keys _ _ Hrows) as Hkeys.
    destruct rows as [|row rows].
    - intros [= _ <-]. exists []. rewrite app_nil_r. simpl in *.
      rewrite <- Hkeys. repeat split; constructor.
    - intros Hsend. apply send_property_batches_ok in Hsend.
      destruct (batched_from_concat (length (row :: rows))
                  (Z.to_nat batch_size) (row :: rows))
        as (Hcat & Hall & _); [lia|done|].
      fold (batched (Z.to_nat batch_size) (row :: rows)) in Hcat, Hall.
      exists (batched (Z.to_nat batch_size) (row :: rows)).
      split; [done|]. rewrite Hcat, Hkeys. split; [|done].
      eapply Forall_impl; [exact Hall|]. simpl. intros batch [? ?].
      split; [done | lia]. }
  destruct manage; [|apply Hbody].
  unfold transaction. cbv beta zeta.
  match goal with
  | |- context [fst ?x] => destruct x as [[t|e] c1] eqn:Hrun
  end; simpl; [|done].
  intros [= -> ->]. by apply Hbody in Hrun.
Qed.

(** X24. When the property is already stored, the single upsert compares
    the stored type and the six value columns with what it would write,
    each with [==].  If all compare equal it answers [noop] with the
    stored row after the one [SELECT] and writes nothing; otherwise it
    sends exactly one [UPDATE] carrying the new columns, and when that
    fails the transaction leaves the database as it was.  Equal rows
    agree on the type and on the integer, string and boolean columns.
    A stored row that is the very row to write is a [noop] exactly when
    its float, if it has one, is equal to itself: a NaN is written
    again every time. *)
Theorem upsert_property_writes_only_a_change payload columns conn existing db1 :
  property_column_values py_int py_float py_str py_bool payload = Ok columns ->
  select_property (metric_id payload) (key payload) (db conn)
  = (db_ok (Some existing), db1) ->
  let r := upsert_metric_property py_int py_float py_str py_bool
             select_property update_property insert_property payload conn in
  let row := MkPropertyRow (metric_id payload) (key payload) (type payload)
                           columns in
  let select := SelectProperty (metric_id payload) (key payload) in
  (if property_rows_equal existing payload columns
   then r = (Ok (MkUpsertResult noop (Some existing)),
             MkConnection db1 (executed conn ++ [select]))
   else executed r.2 = executed conn ++ [select; UpdateProperty row]
        /\ (r.1 = Raise property_failed /\ db r.2 = db conn
            \/ exists stored, r.1 = Ok (MkUpsertResult updated stored)))
  /\ (property_rows_equal existing payload columns = true ->
      let held := row_columns (stored_row existing) in
      row_type (stored_row existing) = type payload
      /\ value_int held = value_int columns
      /\ value_long held = value_long columns
      /\ value_string held = value_string columns
      /\ value_bool held = value_bool columns)
  /\ (stored_row existing = row ->
      (property_rows_equal existing payload columns = true <->
       forall x,
         value_float columns = Some x \/ value_double columns = Some x ->
         float_eq x x = true)).
Proof.
  intros Hcolumns Hselect r row select. split; [|split].
  - subst r. unfold upsert_metric_property. rewrite Hcolumns.
    unfold transaction, execute. cbv beta zeta. cbn [fst snd db executed].
    rewrite Hselect. cbn [fst snd].
    destruct (property_rows_equal existing payload columns); [done|].
    cbn [fst snd db executed].
    destruct (update_property _ db1) as [[stored|] db2]; cbn [fst snd executed db].
    + rewrite <- app_assoc. split; [done|]. right. by exists stored.
    + rewrite <- app_assoc. split; [done|]. by left.
  - unfold property_rows_equal. rewrite !andb_true_iff, !bool_decide_eq_true.
    intros [[[[[[? ?] ?] ?] ?] ?] ?]. by repeat split.
  - intros Hrow. unfold property_rows_equal. rewrite Hrow. subst row.
    cbn [row_type row_columns].
    rewrite !andb_true_iff, !bool_decide_eq_true. split.
    + intros [[[[[[_ _] _] Hfloat] Hdouble] _] _] x [Hx|Hx];
        [rewrite Hx in Hfloat | rewrite Hx in Hdouble]; done.
    + intros Hself. repeat split.
      * destruct (value_float columns) as [x|] eqn:Hx; [|done].
        simpl. by apply Hself; left.
      * destruct (value_double columns) as [x|] eqn:Hx; [|done].
        simpl. by apply Hself; right.
Qed.
End Bulk.

Lemma batched_partitions_the_items_witness :
  batched 2 [1; 2; 3; 4; 5] = [[1; 2]; [3; 4]; [5]]
  /\ concat (batched 2 [1; 2; 3; 4; 5]) = [1; 2; 3; 4; 5].
Proof.
  split; [reflexivity|].
  apply (batched_partitions_the_items 2 [1; 2; 3; 4; 5]). lia.
Defined.

Lemma properties_bulk_sends_each_key_once_witness :
  exists batches,
    executed (upsert_metric_properties_bulk int_of_int float_of_int
                AliasCache.str_of_int bool_of_int store_properties
                [precision_five; unit_celsius; precision_six] 1 true
                fresh_connection).2
    = BulkUpsertProperties <$> batches
    /\ (fun row => (row_metric_id row, row_key row)) <$> concat batches
       = [(1, "precision"%string); (2, "precision"%string)].
Proof.
  destruct (properties_bulk_sends_each_key_once int_of_int float_of_int
              AliasCache.str_of_int bool_of_int store_properties
              [precision_five; unit_celsius; precision_six] 1 true
              fresh_connection 2
              (upsert_metric_properties_bulk int_of_int float_of_int
                 AliasCache.str_of_int bool_of_int store_properties
                 [precision_five; unit_celsius; precision_six] 1 true
                 fresh_connection).2)
    as (batches & Hexec & _ & Hkeys & _).
  - reflexivity.
  - exists batches. split; [exact Hexec | exact Hkeys].
Defined.

Lemma upsert_property_writes_only_a_change_witness :
  upsert_metric_property int_of_int float_of_int AliasCache.str_of_int
    bool_of_int held_property store_property store_property precision_five
    fresh_connection
  = (Ok (MkUpsertResult noop (Some (MkStoredProperty precision_row 0))),
     MkConnection tt [SelectProperty 1 "precision"]).
Proof.
  pose proof (upsert_property_writes_only_a_change int_of_int float_of_int
                AliasCache.str_of_int bool_of_int held_property store_property
                store_property precision_five
                (MkColumns (Some 5) None None None None None) fresh_connection
                (MkStoredProperty precision_row 0) tt eq_refl eq_refl)
    as [Hrun _].
  exact Hrun.
Defined.
End RepositoryProofs.

Module ServiceProofs.
Import Repository Service.
Section WithBuiltins.
Context {PyFloat : Type} `{EqDecision PyFloat}.
Context (py_int : PyValue PyFloat -> result Z)
        (py_float : PyValue PyFloat -> result PyFloat)
        (py_str : PyValue PyFloat -> string)
        (py_bool : PyValue PyFloat -> bool)
        (strip : string -> string).

(** X25. Every payload [_build_property_payload] returns is accepted by
    the repository and lands in one column: booleans in [value_bool],
    integers in [value_int] when they fit 32 bits and in [value_long]
    otherwise, floats in [value_double], and strings, stripped, in
    [value_string].  Its type is always one the repository allows. *)
Theorem built_property_lands_in_its_column metric_id key value payload :
  (forall n, py_int (PyInt n) = Ok n) ->
  (forall x, py_float (PyFloatValue x) = Ok x) ->
  (forall s, py_str (PyStr s) = s) ->
  (forall b, py_bool (PyBool b) = b) ->
  build_property_payload strip metric_id key value = Some payload ->
  Repository.metric_id payload = metric_id
  /\ Repository.key payload = key
  /\ type payload ∈ allowed
  /\ property_column_values py_int py_float py_str py_bool payload
     = Ok match value with
          | Some (PyBool b) => MkColumns None None None None None (Some b)
          | Some (PyInt n) =>
              if (-2147483648 <=? n) && (n <=? 2147483647)
              then MkColumns (Some n) None None None None None
              else MkColumns None (Some n) None None None None
          | Some (PyFloatValue x) => MkColumns None None None (Some x) None None
          | Some (PyStr s) => MkColumns None None None None (Some (strip s)) None
          | _ => MkColumns None None None None None None
          end.
Proof.
  intros Hint Hfloat Hstr Hbool.
  assert (forall t : string,
             t ∈ ["int"; "long"; "double"; "string"; "boolean"]%string ->
             t ∈ allowed) as Hsub.
  { intros t Ht. unfold allowed.
    repeat (apply elem_of_cons in Ht as [->|Ht];
            [repeat first [apply list_elem_of_here | apply list_elem_of_further]|]).
    by apply elem_of_nil in Ht. }
  assert (forall t : string,
             t ∈ ["int"; "long"; "double"; "string"; "boolean"]%string ->
             negb (bool_decide (t ∈ allowed)) = false) as Hallowed.
  { intros t Ht. rewrite bool_decide_eq_true_2; [done | by apply Hsub]. }
  destruct value as [[b|n|x|s|]|]; simpl; try done.
  - intros [= <-]. simpl. split; [done|]. split; [done|].
    split; [apply Hsub; repeat first [apply list_elem_of_here | apply list_elem_of_further]|].
    unfold property_column_values. cbn [type Repository.value].
    rewrite Hallowed
      by repeat first [apply list_elem_of_here | apply list_elem_of_further]. simpl. by rewrite Hbool.
  - intros [= <-]. simpl. split; [done|]. split; [done|].
    destruct ((-2147483648 <=? n) && (n <=? 2147483647));
      (split; [apply Hsub; repeat first [apply list_elem_of_here | apply list_elem_of_further]|]);
      unfold property_column_values; cbn [type Repository.value];
      rewrite Hallowed
      by repeat first [apply list_elem_of_here | apply list_elem_of_further]; simpl;
      by rewrite Hint.
  - intros [= <-]. simpl. split; [done|]. split; [done|].
    split; [apply Hsub; repeat first [apply list_elem_of_here | apply list_elem_of_further]|].
    unfold property_column_values. cbn [type Repository.value].
    rewrite Hallowed
      by repeat first [apply list_elem_of_here | apply list_elem_of_further]. simpl. by rewrite Hfloat.
  - case_bool_decide; [done|]. intros [= <-]. simpl.
    split; [done|]. split; [done|].
    split; [apply Hsub; repeat first [apply list_elem_of_here | apply list_elem_of_further]|].
    unfold property_column_values. cbn [type Repository.value].
    rewrite Hallowed
      by repeat first [apply list_elem_of_here | apply list_elem_of_further]. simpl. by rewrite Hstr.
Qed.
End WithBuiltins.

Lemma built_property_lands_in_its_column_witness :
  property_column_values int_of_value int_of_value str_of_value bool_of_value
    (MkMetricPropertyPayload 7 "engUnit" "long" (Some (PyInt 4294967296)))
  = Ok (MkColumns None (Some 4294967296) None None None None).
Proof.
  apply (built_property_lands_in_its_column int_of_value int_of_value
           str_of_value bool_of_value (fun s => s) 7 "engUnit"
           (Some (PyInt 4294967296))).
  - reflexivity.
  - reflexivity.
  - reflexivity.
  - reflexivity.
  - reflexivity.
Defined.
End ServiceProofs.

Module ReplicationProofs.
Import Replication.

Lemma Qltb_false x y : Qltb x y = false <-> (y <= x)%Q.
Proof. unfold Qltb. by rewrite negb_false_iff, Qle_bool_iff. Qed.

Lemma backoff_init_ok base mult max limit with_jitter b :
  backoff_init base mult max limit with_jitter = Ok b ->
  backoff_ok b /\ attempt b = 0.
Proof.
  unfold backoff_init.
  destruct (Qle_bool base 0) eqn:Hb; [done|].
  destruct (Qltb mult 1) eqn:Hm; [done|].
  destruct (Qltb max base) eqn:Hx; [done|].
  intros [= <-]. unfold backoff_ok. simpl.
  apply Qltb_false in Hm, Hx.
  assert (0 < base)%Q.
  { apply Qnot_le_lt. intros H%Qle_bool_iff. congruence. }
  repeat split; first [done | lia].
Qed.

(** X26. While the attempts are not exhausted and the power does not
    overflow, [next_delay] counts one attempt and returns a delay
    between 0 and [max_interval]; without jitter the delay is at least
    [base_interval], and exactly [base_interval] right after a reset.
    It raises [BackoffExhausted] only when the attempts counted have
    reached [max_attempts], and then nothing is counted. *)
Theorem next_delay_is_bounded random_value b :
  backoff_ok b -> (0 <= random_value <= 1)%Q ->
  let r := next_delay random_value b in
  match r.1 with
  | inl BackoffExhausted =>
      r.2 = b
      /\ exists limit, max_attempts b = Some limit /\ limit <= attempt b
  | inl OverflowError =>
      r.2 = b /\ (float_overflow <= multiplier b ^ attempt b)%Q
  | inr delay =>
      attempt r.2 = attempt b + 1
      /\ backoff_ok r.2
      /\ (0 <= delay <= max_interval b)%Q
      /\ (jitter b = false ->
          (base_interval b <= delay)%Q
          /\ (attempt b = 0 -> (delay == base_interval b)%Q))
      /\ match max_attempts b with
         | Some limit => attempt b < limit
         | None => True
         end
  end.
Proof.
  intros (Hbase & Hmult & Hmax & Hattempt) [Hr0 Hr1]. unfold next_delay.
  destruct (match max_attempts b with
            | Some limit => attempt b >=? limit
            | None => false
            end) eqn:Hlimit; cbn [fst snd].
  { split; [done|]. destruct (max_attempts b) as [limit|]; [|done].
    exists limit. split; [done | lia]. }
  destruct (Qle_bool float_overflow (multiplier b ^ attempt b)) eqn:Hover;
    cbn [fst snd].
  { split; [done|]. by apply Qle_bool_iff. }
  pose proof (Qpower_1_le (multiplier b) (attempt b) Hmult Hattempt) as Hpow.
  set (power := (multiplier b ^ attempt b)%Q) in *.
  assert (base_interval b <= Qmin (base_interval b * power) (max_interval b))%Q
    as Hlow.
  { apply Q.min_glb; [nra | done]. }
  pose proof (Q.le_min_r (base_interval b * power) (max_interval b)) as Hhigh.
  assert (match max_attempts b with
          | Some limit => attempt b < limit
          | None => True
          end) as Hnot.
  { destruct (max_attempts b); [lia | done]. }
  destruct (jitter b) eqn:Hjitter; cbn [negb fst snd attempt].
  - split; [done|]. split; [unfold backoff_ok; simpl; repeat split; try done; lia|].
    split; [split; nra|]. split; [done | done].
  - split; [done|]. split; [unfold backoff_ok; simpl; repeat split; try done; lia|].
    split; [split; lra|]. split; [|done]. intros _. split; [done|].
    intros Hzero. unfold power. rewrite Hzero. simpl.
    rewrite Q.min_l; [ring | lra].
Qed.

Lemma next_delay_is_bounded_witness :
  match (next_delay 0 (MkBackoff (1 # 2) 2 (32 # 5) (Some 6) false 4)).1 with
  | inr delay => (0 <= delay <= 32 # 5)%Q
  | inl _ => False
  end.
Proof.
  assert (backoff_ok (MkBackoff (1 # 2) 2 (32 # 5) (Some 6) false 4)) as Hok.
  { unfold backoff_ok. simpl. repeat split; first [lra | lia]. }
  assert (0 <= 0 <= 1)%Q as Hrandom by lra.
  generalize (next_delay_is_bounded 0 _ Hok Hrandom). cbv zeta.
  destruct (next_delay 0 (MkBackoff (1 # 2) 2 (32 # 5) (Some 6) false 4)).1
    as [e|delay] eqn:Hrun.
  - vm_compute in Hrun. discriminate.
  - intros (_ & _ & Hbound & _). exact Hbound.
Defined.

Lemma Qpower_base_mono (x y : Q) (n : nat) :
  (0 <= x <= y)%Q -> (x ^ Z.of_nat n <= y ^ Z.of_nat n)%Q.
Proof.
  intros [Hx Hxy]. induction n as [|n IH]; [simpl; lra|].
  rewrite Nat2Z.inj_succ. unfold Z.succ.
  rewrite !Qpower_plus' by lia. simpl (_ ^ 1)%Q.
  pose proof (Qpower_0_le x (Z.of_nat n) Hx).
  apply Qmult_le_compat_nonneg; split; try done. 
Qed.

(** X27. [max_interval] caps the delay but not the power that is computed
    first: with a multiplier of at least 2 and no [max_attempts], once
    1024 delays have been drawn without a reset every further
    [next_delay] raises [OverflowError] and the backoff stays as it
    is. *)
Theorem uncapped_backoff_overflows random_value b :
  (2 <= multiplier b)%Q -> max_attempts b = None -> 1024 <= attempt b ->
  next_delay random_value b = (inl OverflowError, b).
Proof.
  intros Hmult Hnone Hmany. unfold next_delay. rewrite Hnone.
  assert (float_overflow <= multiplier b ^ attempt b)%Q as Hover.
  { apply Qle_trans with (2 ^ 1024)%Q; [by vm_compute|].
    apply Qle_trans with (2 ^ attempt b)%Q.
    - apply Qpower_le_compat_l; [done | lra].
    - rewrite <- (Z2Nat.id (attempt b)) by lia.
      apply Qpower_base_mono. lra. }
  apply Qle_bool_iff in Hover. by rewrite Hover.
Qed.

Lemma uncapped_backoff_overflows_witness :
  next_delay 0 (MkBackoff (1 # 2) 2 30 None true 1024)
  = (inl OverflowError, MkBackoff (1 # 2) 2 30 None true 1024).
Proof.
  apply (uncapped_backoff_overflows 0 (MkBackoff (1 # 2) 2 30 None true 1024)).
  - simpl. lra.
  - reflexivity.
  - simpl. lia.
Defined.

(** *** [process]: what it does to the backoff, for any store *)

Section WithStore.
Context {Store Change : Type}.
Context (load : string -> Store -> result (option Z))
        (save : string -> Z -> Store -> result unit * Store)
        (stream_factory :
           option Z -> result (list ReplicationStreamMessage * option exn))
        (decode : ReplicationStreamMessage -> result (list Change))
        (handler : Change -> option exn).
Implicit Types (c : LogicalReplicationClient Store Change).

Lemma persist_checkpoint_settings l c :
  same_settings c (persist_checkpoint save l c).2.
Proof.
  unfold persist_checkpoint. destruct (beyond_persisted l c); [|done].
  by destruct (save _ _ _).1.
Qed.

Lemma handle_changes_settings max_messages changes processed c :
  same_settings c (handle_changes handler max_messages changes processed c).2
  /\ match (handle_changes handler max_messages changes processed c).1 with
     | Exhausted p | LimitReached p => processed <= p
     | Raised _ => True
     end.
Proof.
  revert processed c. induction changes as [|change rest IH];
    intros processed c; simpl; [split; [done | lia]|].
  destruct (handler change); [done|].
  destruct (limit_reached _ _); [split; [done | simpl; lia]|].
  destruct (IH (processed + 1) (record_handled change c)) as [Hs Hp].
  split; [done|].
  destruct (handle_changes _ _ _ _ _).1; lia.
Qed.

Lemma same_settings_trans c1 c2 c3 :
  same_settings c1 c2 -> same_settings c2 c3 -> same_settings c1 c3.
Proof.
  intros (?&?&?&?) (?&?&?&?). unfold same_settings. repeat split; congruence.
Qed.

Lemma process_messages_settings max_messages messages stream_error processed c :
  let r := process_messages save decode handler max_messages messages
             stream_error processed c in
  match r.1 with
  | Raise _ => same_settings c r.2
  | Ok p =>
      processed <= p
      /\ slot_name r.2 = slot_name c
      /\ checkpoint_interval r.2 = checkpoint_interval c
      /\ backoff r.2 = backoff_reset (backoff c)
      /\ last_error_delay r.2 = None
  end.
Proof.
  revert processed c. induction messages as [|message rest IH];
    intros processed c; cbn [process_messages].
  - destruct stream_error; [done|].
    assert (same_settings c
              (match last_seen_lsn c with
               | Some l => persist_checkpoint save l c
               | None => (Ok tt, c)
               end).2) as Hs.
    { destruct (last_seen_lsn c); [apply persist_checkpoint_settings | done]. }
    cbv zeta. destruct (match last_seen_lsn c with
                        | Some l => persist_checkpoint save l c
                        | None => (Ok tt, c)
                        end) as [[[]|e] c1]; cbn [fst snd] in *; [|done].
    destruct Hs as (?&?&?&?). simpl. repeat split; [lia|congruence..].
  - destruct (decode message) as [decoded|e]; [|done].
    pose proof (handle_changes_settings max_messages decoded processed c)
      as [Hs Hp].
    destruct (handle_changes handler max_messages decoded processed c)
      as [[p|p|e] c1]; cbn [fst snd] in *; [| |done].
    + assert (same_settings c1
                (if p `mod` checkpoint_interval (set_last_seen (lsn message) c1)
                    =? 0
                 then persist_checkpoint save (lsn message)
                        (set_last_seen (lsn message) c1)
                 else (Ok tt, set_last_seen (lsn message) c1)).2) as Hs2.
      { destruct (_ =? 0); [|done].
        eapply same_settings_trans; [|apply persist_checkpoint_settings]. done. }
      cbv zeta.
      destruct (if p `mod` checkpoint_interval (set_last_seen (lsn message) c1)
                   =? 0
                then persist_checkpoint save (lsn message)
                       (set_last_seen (lsn message) c1)
                else (Ok tt, set_last_seen (lsn message) c1))
        as [[[]|e] c2]; cbn [fst snd] in *.
      * specialize (IH p c2). cbv zeta in IH.
        pose proof (same_settings_trans _ _ _ Hs Hs2) as (?&?&?&?).
        destruct (process_messages _ _ _ _ _ _ _ _).1.
        -- destruct IH as (?&?&?&?&?). repeat split; [lia|congruence..].
        -- eapply same_settings_trans; [|exact IH]. by repeat split.
      * by eapply same_settings_trans.
    + assert (same_settings c1
                (if beyond_persisted (lsn message) (set_last_seen (lsn message) c1)
                 then persist_checkpoint save (lsn message)
                        (set_last_seen (lsn message) c1)
                 else (Ok tt, set_last_seen (lsn message) c1)).2) as Hs2.
      { destruct (beyond_persisted _ _); [|done].
        eapply same_settings_trans; [|apply persist_checkpoint_settings]. done. }
      cbv zeta.
      destruct (if beyond_persisted (lsn message) (set_last_seen (lsn message) c1)
                then persist_checkpoint save (lsn message)
                       (set_last_seen (lsn message) c1)
                else (Ok tt, set_last_seen (lsn message) c1))
        as [[[]|e] c2]; cbn [fst snd] in *.
      * pose proof (same_settings_trans _ _ _ Hs Hs2) as (?&?&?&?).
        simpl. repeat split; [lia|congruence..].
      * by eapply same_settings_trans.
Qed.

(** X28. [process] leaves the slot name and the checkpoint interval
    alone, whatever the store, the stream, the decoder and the handler
    do.  When it returns, the backoff is reset and [last_error_delay]
    is [None].  When [checkpoint_store.load] or the stream factory
    raises, which happens before the [try], that exception is raised
    and the client is as it was: the backoff is not asked.  When
    anything raises inside the [try], the backoff has been asked for
    exactly one delay, which [last_error_delay] holds, unless the
    backoff itself raised, and then its exception replaces the first
    and [last_error_delay] keeps its value. *)
Theorem process_settles_or_backs_off max_messages random_value c :
  let r := process load save stream_factory decode handler max_messages
             random_value c in
  slot_name r.2 = slot_name c
  /\ checkpoint_interval r.2 = checkpoint_interval c
  /\ match r.1 with
     | inr processed =>
         0 <= processed
         /\ attempts (backoff r.2) = 0
         /\ last_error_delay r.2 = None
     | inl (RaisedBeforeTry e) =>
         r.2 = c
         /\ (load (slot_name c) (checkpoint_store c) = Raise e
             \/ exists start_lsn,
                  load (slot_name c) (checkpoint_store c) = Ok start_lsn
                  /\ stream_factory start_lsn = Raise e)
     | inl (Failed e) =>
         exists delay,
           next_delay random_value (backoff c) = (inr delay, backoff r.2)
           /\ last_error_delay r.2 = Some delay
     | inl (BackoffFailed b) =>
         next_delay random_value (backoff c) = (inl b, backoff r.2)
         /\ last_error_delay r.2 = last_error_delay c
     end.
Proof.
  unfold process. cbv zeta.
  destruct (load (slot_name c) (checkpoint_store c)) as [start_lsn|e];
    [|cbn [fst snd]; by auto].
  destruct (stream_factory start_lsn) as [stream|e] eqn:Hstream;
    [|cbn [fst snd]; split; [done|]; split; [done|]; split; [done|];
      right; by exists start_lsn].
  pose proof (process_messages_settings max_messages stream.1 stream.2 0 c)
    as Hs.
  cbv zeta in Hs.
  destruct (process_messages _ _ _ _ _ _ _ _) as [[p|e] c1]; cbn [fst snd] in *.
  - destruct Hs as (?&?&?&Hb&?). repeat split; try done.
    rewrite Hb. done.
  - destruct Hs as (?&?&Hb&?). rewrite Hb.
    destruct (next_delay random_value (backoff c)) as [[b|delay] b1];
      cbn [fst snd slot_name checkpoint_interval backoff last_error_delay].
    + repeat split; try done.
    + split; [done|]. split; [done|]. by exists delay.
Qed.
End WithStore.

(** *** [process] over the in-memory store *)

Section InMemory.
Context {Change : Type}.
Context (stream_factory :
           option Z -> result (list ReplicationStreamMessage * option exn))
        (decode : ReplicationStreamMessage -> result (list Change))
        (handler : Change -> option exn).
Implicit Types
  (c : LogicalReplicationClient Checkpoint.InMemoryCheckpointStore Change).

Lemma tracked_resumes l next c :
  tracked l c -> l < next -> resumes_before next c.
Proof.
  intros (Hi & _ & [[Hagree Hbelow]|[Hpos Hper]]) Hlt; split; try done.
  - split; [done|]. intros p Hp. apply Hbelow in Hp. lia.
  - fold (position c). split.
    + intros p Hp. congruence.
    + intros p Hp. rewrite Hpos in Hp. injection Hp as <-. done.
Qed.

Lemma handle_changes_accepted changes processed c :
  Forall (fun change => handler change = None) changes ->
  handle_changes handler None changes processed c
  = (Exhausted (processed + Z.of_nat (length changes)),
     MkReplicationClient (slot_name c) (checkpoint_interval c) (backoff c)
       (last_seen_lsn c) (last_persisted_lsn c) (last_error_delay c)
       (checkpoint_store c) (handled c ++ changes)).
Proof.
  intros Hall. revert processed c.
  induction Hall as [|change rest Hc Hall IH]; intros processed c; simpl.
  - rewrite Z.add_0_r, app_nil_r. by destruct c.
  - rewrite Hc. cbn [limit_reached]. rewrite IH. simpl.
    rewrite <- app_assoc. do 2 f_equal. lia.
Qed.

Lemma persist_in_memory l c :
  resumes_before l c ->
  exists c',
    persist_checkpoint im_store_save l c = (Ok tt, c')
    /\ position c' = Some l
    /\ last_persisted_lsn c' = Some l
    /\ slot_name c' = slot_name c
    /\ checkpoint_interval c' = checkpoint_interval c
    /\ backoff c' = backoff c
    /\ last_error_delay c' = last_error_delay c
    /\ last_seen_lsn c' = last_seen_lsn c
    /\ handled c' = handled c.
Proof.
  intros (Hi & Hagree & Hbelow). unfold persist_checkpoint, beyond_persisted.
  assert ((match last_persisted_lsn c with
           | Some p => p <? l
           | None => true
           end) = true) as ->.
  { destruct (last_persisted_lsn c) as [p|] eqn:Hp; [|done].
    apply Z.ltb_lt, Hbelow, Hagree. done. }
  cbn [im_store_save fst snd]. eexists. split; [done|].
  unfold position. cbn [slot_name checkpoint_store].
  split; [|done]. unfold Checkpoint.im_load, Checkpoint.im_save.
  fold (Checkpoint.im_load (slot_name c) (checkpoint_store c)).
  destruct (Checkpoint.im_load (slot_name c) (checkpoint_store c)) as [p|] eqn:Hp.
  - simpl. pose proof (Hbelow p eq_refl).
    destruct (Z.ltb_spec p l); [|lia]. simpl. by rewrite lookup_insert_eq.
  - simpl. by rewrite lookup_insert_eq.
Qed.

(** One round of the loop on an accepted message. *)
Lemma process_message_accepted message rest stream_error processed c changes :
  resumes_before (lsn message) c ->
  decode message = Ok changes ->
  Forall (fun change => handler change = None) changes ->
  exists c',
    process_messages im_store_save decode handler None (message :: rest)
      stream_error processed c
    = process_messages im_store_save decode handler None rest stream_error
        (processed + Z.of_nat (length changes)) c'
    /\ tracked (lsn message) c'
    /\ handled c' = handled c ++ changes
    /\ slot_name c' = slot_name c
    /\ backoff c' = backoff c
    /\ last_error_delay c' = last_error_delay c.
Proof.
  intros Hres Hdecode Hall. cbn [process_messages]. rewrite Hdecode.
  rewrite (handle_changes_accepted _ _ _ Hall). cbv zeta.
  set (c1 := set_last_seen (lsn message) _).
  assert (resumes_before (lsn message) c1) as Hres1.
  { destruct Hres as (Hi & Hagree & Hbelow). by split. }
  destruct (_ =? 0).
  - destruct (persist_in_memory (lsn message) c1 Hres1)
      as (c2 & -> & Hpos & Hper & Hslot & Hint & Hb & Hd & Hseen & Hh).
    cbn [fst snd]. exists c2. split; [done|].
    split; [|by repeat split].
    split; [rewrite Hint; by destruct Hres|]. split; [by rewrite Hseen|].
    by right.
  - cbn [fst snd]. exists c1. split; [done|]. split; [|by repeat split].
    destruct Hres1 as (Hi & Hagree & Hbelow). split; [done|]. split; [done|].
    by left.
Qed.

(** The rounds on a run of accepted messages with increasing positions. *)
Lemma process_messages_accepted messages rest stream_error processed c first :
  head messages = Some first ->
  resumes_before (lsn first) c ->
  Forall (accepted decode handler) messages ->
  StronglySorted Z.lt (lsn <$> messages) ->
  exists c' final,
    process_messages im_store_save decode handler None (messages ++ rest)
      stream_error processed c
    = process_messages im_store_save decode handler None rest stream_error
        (processed + Z.of_nat (length (changes_of decode messages))) c'
    /\ last (lsn <$> messages) = Some final
    /\ tracked final c'
    /\ handled c' = handled c ++ changes_of decode messages
    /\ slot_name c' = slot_name c
    /\ backoff c' = backoff c
    /\ last_error_delay c' = last_error_delay c.
Proof.
  intros Hhead Hres Hall Hsorted.
  revert first processed c Hhead Hres Hsorted.
  induction Hall as [|message messages (changes & Hdecode & Hok) Hall IH];
    intros first processed c Hhead Hres Hsorted; [done|].
  injection Hhead as <-. csimpl in Hsorted.
  apply StronglySorted_inv in Hsorted as [Hsorted Hlt].
  destruct (process_message_accepted message (messages ++ rest) stream_error
              processed c changes Hres Hdecode Hok)
    as (c1 & Hstep & Htracked & Hh & Hslot & Hb & Hd).
  assert (changes_of decode (message :: messages)
          = changes ++ changes_of decode messages) as Hchanges.
  { unfold changes_of. csimpl. by rewrite Hdecode. }
  destruct messages as [|next messages].
  - exists c1, (lsn message).
    cbn [app] in Hstep |- *. rewrite Hstep, Hchanges.
    assert (changes_of decode [] = []) as -> by done. rewrite app_nil_r.
    do 6 (split; [done|]). done.
  - destruct (IH next (processed + Z.of_nat (length changes)) c1)
      as (c2 & final & Hrun & Hlast & Htracked2 & Hh2 & Hslot2 & Hb2 & Hd2);
      [done| |done|].
    { eapply tracked_resumes; [done|]. by inversion Hlt. }
    exists c2, final. rewrite <- app_comm_cons, Hstep, Hrun, Hchanges.
    rewrite length_app, Hh2, Hh, Hslot2, Hb2, Hd2.
    split; [f_equal; lia|]. split; [done|]. split; [done|].
    split; [by rewrite app_assoc|]. done.
Qed.

(** X29. A run over the in-memory store in which every message is decoded
    and handled, on a stream with increasing positions that resumes
    after the stored one: [process] returns the number of changes, the
    handler has received every change in order, and the store holds the
    position of the last message, whatever the checkpoint interval. *)
Theorem process_saves_the_last_position random_value c messages first :
  stream_factory (position c) = Ok (messages, None) ->
  head messages = Some first ->
  resumes_before (lsn first) c ->
  Forall (accepted decode handler) messages ->
  StronglySorted Z.lt (lsn <$> messages) ->
  exists c',
    process im_store_load im_store_save stream_factory decode handler
      None random_value c
    = (inr (Z.of_nat (length (changes_of decode messages))), c')
    /\ position c' = last (lsn <$> messages)
    /\ last_persisted_lsn c' = last (lsn <$> messages)
    /\ handled c' = handled c ++ changes_of decode messages
    /\ last_error_delay c' = None
    /\ attempts (backoff c') = 0.
Proof.
  intros Hstream Hhead Hres Hall Hsorted. unfold process, im_store_load.
  cbv zeta. fold (position c). rewrite Hstream. cbn [fst snd].
  destruct (process_messages_accepted messages [] None 0 c first
              Hhead Hres Hall Hsorted)
    as (c1 & final & Hrun & Hlast & (Hi & Hseen & Hcase) & Hh & Hslot & Hb & Hd).
  rewrite app_nil_r in Hrun. rewrite Hrun. cbn [process_messages].
  rewrite Hseen. rewrite Hlast.
  destruct Hcase as [[Hagree Hbelow]|[Hpos Hper]].
  - destruct (persist_in_memory final c1) as
      (c2 & -> & Hpos2 & Hper2 & Hslot2 & Hint2 & Hb2 & Hd2 & Hseen2 & Hh2);
      [by split|].
    cbn [fst snd]. eexists. split; [done|].
    unfold position in *. cbn [settle slot_name checkpoint_store
      last_persisted_lsn handled last_error_delay backoff].
    rewrite Hh2, Hh. by repeat split.
  - unfold persist_checkpoint, beyond_persisted. rewrite Hper.
    rewrite Z.ltb_irrefl. cbn [fst snd]. eexists. split; [done|].
    unfold position in *. cbn [settle slot_name checkpoint_store
      last_persisted_lsn handled last_error_delay backoff].
    by repeat split.
Qed.

Lemma handle_changes_raises changes processed c :
  Exists (fun change => handler change <> None) changes ->
  exists e c',
    handle_changes handler None changes processed c = (Raised e, c')
    /\ checkpoint_store c' = checkpoint_store c
    /\ slot_name c' = slot_name c
    /\ handled c `prefix_of` handled c'.
Proof.
  intros Hex. revert processed c.
  induction changes as [|change rest IH]; intros processed c;
    [by apply Exists_nil in Hex|].
  simpl. destruct (handler change) as [e|] eqn:Hh.
  - exists e, c. by repeat split.
  - apply Exists_cons in Hex as [Hbad|Hex]; [done|].
    destruct (IH Hex (processed + 1) (record_handled change c))
      as (e & c' & -> & Hstore & Hslot & Hpre).
    exists e, c'. split; [done|]. split; [done|]. split; [done|].
    etrans; [|exact Hpre]. by apply prefix_app_r.
Qed.

(** X30. When the decoder or the handler raises on a message, [process]
    raises, and the position stored stays before that message: the
    changes of the messages before it were all handled, and the failing
    message will be streamed again. *)
Theorem failing_message_is_not_acknowledged random_value c before message
    after stream_error :
  stream_factory (position c) = Ok (before ++ message :: after, stream_error) ->
  resumes_before (default (lsn message) (lsn <$> head before)) c ->
  Forall (accepted decode handler) before ->
  StronglySorted Z.lt (lsn <$> before ++ [message]) ->
  (forall changes,
      decode message = Ok changes ->
      Exists (fun change => handler change <> None) changes) ->
  exists error c',
    process im_store_load im_store_save stream_factory decode handler
      None random_value c
    = (inl error, c')
    /\ (forall p, position c' = Some p -> p < lsn message)
    /\ (handled c ++ changes_of decode before) `prefix_of` handled c'.
Proof.
  intros Hstream Hres Hall Hsorted Hfails. unfold process, im_store_load.
  cbv zeta. fold (position c). rewrite Hstream. cbn [fst snd].
  assert (exists c1,
             process_messages im_store_save decode handler None
               (before ++ message :: after) stream_error 0 c
             = process_messages im_store_save decode handler None
                 (message :: after) stream_error
                 (0 + Z.of_nat (length (changes_of decode before))) c1
             /\ resumes_before (lsn message) c1
             /\ handled c1 = handled c ++ changes_of decode before)
    as (c1 & -> & Hres1 & Hh1).
  { destruct before as [|first before].
    - exists c. split; [done|]. split; [done|].
      unfold changes_of. simpl. by rewrite app_nil_r.
    - rewrite fmap_app in Hsorted.
      apply StronglySorted_app in Hsorted as (Hlt & Hsorted & _).
      destruct (process_messages_accepted (first :: before) (message :: after)
                  stream_error 0 c first eq_refl Hres Hall Hsorted)
        as (c1 & final & Hrun & Hlast & Htracked & Hh & _).
      exists c1. split; [done|]. split; [|done].
      eapply tracked_resumes; [done|].
      apply Hlt; [|apply list_elem_of_here].
      apply last_Some in Hlast as [front ->].
      apply elem_of_app. right. apply list_elem_of_here. }
  assert (exists e c2,
             process_messages im_store_save decode handler None
               (message :: after) stream_error
               (0 + Z.of_nat (length (changes_of decode before))) c1
             = (Raise e, c2)
             /\ checkpoint_store c2 = checkpoint_store c1
             /\ slot_name c2 = slot_name c1
             /\ handled c1 `prefix_of` handled c2)
    as (e & c2 & -> & Hstore & Hslot & Hpre).
  { cbn [process_messages].
    destruct (decode message) as [changes|e] eqn:Hdecode.
    - destruct (handle_changes_raises changes
                  (0 + Z.of_nat (length (changes_of decode before))) c1
                  (Hfails changes eq_refl))
        as (e & c2 & -> & ?).
      by exists e, c2.
    - by exists e, c1. }
  cbn [fst snd].
  assert (forall p, position c2 = Some p -> p < lsn message) as Hbelow.
  { unfold position. rewrite Hstore, Hslot. by destruct Hres1 as (_ & _ & ?). }
  rewrite Hh1 in Hpre.
  destruct (next_delay random_value (backoff c2)) as [[b|delay] b1];
    cbn [fst snd]; eexists _, _; (split; [done|]); by split.
Qed.
End InMemory.

Lemma test_client_resumes : resumes_before 100 test_client.
Proof.
  split; [reflexivity|]. split; [done|]. intros p Hp. vm_compute in Hp. done.
Qed.

Lemma process_saves_the_last_position_witness :
  exists c',
    process im_store_load im_store_save stream_of_two decode_lsn
      accept_all None 0 test_client = (inr 2, c')
    /\ Checkpoint.im_load "test_slot" (checkpoint_store c') = Some 110.
Proof.
  destruct (process_saves_the_last_position stream_of_two decode_lsn accept_all
              0 test_client two_messages (MkMessage 100 [] 1))
    as (c' & Hrun & Hpos & _).
  - reflexivity.
  - reflexivity.
  - exact test_client_resumes.
  - repeat constructor; eexists; (split; [reflexivity | by repeat constructor]).
  - repeat constructor; lia.
  - exists c'. split; [exact Hrun|].
    vm_compute in Hrun. injection Hrun as <-. reflexivity.
Defined.

Lemma failing_message_is_not_acknowledged_witness :
  exists error c',
    process im_store_load im_store_save stream_of_two decode_first_only
      accept_all None 0 test_client = (inl error, c')
    /\ Checkpoint.im_load "test_slot" (checkpoint_store c') = Some 100
    /\ handled c' = [100].
Proof.
  destruct (failing_message_is_not_acknowledged stream_of_two decode_first_only
              accept_all 0 test_client [MkMessage 100 [] 1] (MkMessage 110 [] 2)
              [] None)
    as (error & c' & Hrun & _).
  - reflexivity.
  - exact test_client_resumes.
  - repeat constructor; eexists; (split; [reflexivity | by repeat constructor]).
  - repeat constructor; lia.
  - intros changes Hdecode. vm_compute in Hdecode. discriminate.
  - exists error, c'. split; [exact Hrun|].
    vm_compute in Hrun. injection Hrun as <- <-. split; reflexivity.
Defined.
End ReplicationProofs.
